(** * A model of run_matrix.py, the interface-test matrix runner

    Shallow embedding of [src/run_matrix.py].  The process state that the
    runner touches (current working directory, the workspace root
    [/tmp/charm-relation-interfaces-tests/] and its per-charm clones,
    files written by the test synthesizer) is threaded explicitly; Python
    exceptions are the error branch of a small state-and-exception monad.
    The outside world (git, virtualenv/pip, pytest, files outside the
    workspace, and the external [collect_tests]) is a record of oracles
    [Host]. *)

From Stdlib Require Import Ascii String List ZArith Bool Lia.
Import ListNotations.
Open Scope string_scope.
Open Scope list_scope.

(** ** Strings and paths *)

(** Components of a path string: split on ["/"], dropping empty and ["."]
    components, as [pathlib.Path] does. *)
Fixpoint split_slash (s : string) (cur : string) : list string :=
  match s with
  | EmptyString => [cur]
  | String c rest =>
      if Ascii.eqb c "/"%char then cur :: split_slash rest ""
      else split_slash rest (cur ++ String c EmptyString)
  end.

Definition path_components (s : string) : list string :=
  filter (fun c => negb (String.eqb c "") && negb (String.eqb c ".")) (split_slash s "").

(** A parsed [pathlib.Path]: absolute or relative, with its components. *)
Inductive PurePath :=
| PAbs (parts : list string)
| PRel (parts : list string).

Definition Path_of (s : string) : PurePath :=
  match s with
  | String c _ => if Ascii.eqb c "/"%char then PAbs (path_components s)
                  else PRel (path_components s)
  | EmptyString => PRel []
  end.

(** Absolute paths, the only ones the runner stores, as component lists. *)
Definition APath := list string.

(** [base / p]: a relative [p] is appended, an absolute one replaces [base]. *)
Definition path_join (base : APath) (p : PurePath) : APath :=
  match p with
  | PAbs l => l
  | PRel l => base ++ l
  end.

(** [Path.parent]. *)
Definition parent (p : APath) : APath := removelast p.

Fixpoint path_eqb (p q : APath) : bool :=
  match p, q with
  | [], [] => true
  | a :: p', b :: q' => String.eqb a b && path_eqb p' q'
  | _, _ => false
  end.

Fixpoint strip_prefix (pre p : APath) : option APath :=
  match pre, p with
  | [], _ => Some p
  | a :: pre', b :: p' => if String.eqb a b then strip_prefix pre' p' else None
  | _ :: _, [] => None
  end.

(** Python truthiness of an [Optional[str]]: [None] and [""] are falsy. *)
Definition truthy_str (o : option string) : bool :=
  match o with
  | Some s => negb (String.eqb s "")
  | None => false
  end.

(** Python truthiness of a list. *)
Definition truthy_list {A} (l : list A) : bool :=
  match l with [] => false | _ => true end.

(** ** Registry data (the types of [interface_tester.collector]) *)

(** [_TestSetup]: a TypedDict whose two keys are always present, each
    [Optional[str]]. *)
Record TestSetup := mkTestSetup {
  location : option string;
  identifier : option string
}.

(** [_CharmTestConfig]. *)
Record CharmTestConfig := mkCharm {
  name : string;
  url : string;
  test_setup : option TestSetup;
  branch : option string
}.

(** [_RoleTestSpec]: the tests (opaque descriptors) and the charms. *)
Record RoleTestSpec := mkRoleSpec {
  tests : list string;
  charms : list CharmTestConfig
}.

(** Python dicts as association lists in insertion order. *)
Definition dict (K V : Type) := list (K * V).

Fixpoint dict_get {V} (k : string) (d : dict string V) : option V :=
  match d with
  | [] => None
  | (k', v) :: d' => if String.eqb k k' then Some v else dict_get k d'
  end.

(** [d[k] = v]: overwrite in place if present, append otherwise. *)
Fixpoint dict_set {V} (k : string) (v : V) (d : dict string V) : dict string V :=
  match d with
  | [] => [(k, v)]
  | (k', v') :: d' => if String.eqb k k' then (k, v) :: d' else (k', v') :: dict_set k v d'
  end.

Definition TestsPerRole := dict string RoleTestSpec.
Definition TestsPerVersion := dict string TestsPerRole.
Definition Registry := dict string TestsPerVersion.

Definition ResultsPerCharm := dict string bool.
Definition ResultsPerRole := dict string ResultsPerCharm.
Definition ResultsPerVersion := dict string ResultsPerRole.
Definition ResultsPerInterface := dict string ResultsPerVersion.

(** ** Constants *)

Definition FIXTURE_PATH := "tests/interface/conftest.py".
Definition FIXTURE_IDENTIFIER := "interface_tester".

(** The default [root] of [_prepare_repo] and [_clean],
    [Path("/tmp/charm-relation-interfaces-tests/")], already split into its
    components (lemma [ws_root_parsed] below). *)
Definition ws_root : APath := ["tmp"; "charm-relation-interfaces-tests"].

(** ** [_get_fixture] *)

Record FixtureSpec := mkFixtureSpec { fs_path : APath; fs_id : string }.

Definition _get_fixture (charm_config : CharmTestConfig) (charm_path : APath) : FixtureSpec :=
  let fixture_path := path_join charm_path (Path_of FIXTURE_PATH) in
  let fixture_id := FIXTURE_IDENTIFIER in
  match test_setup charm_config with
  | Some ts =>
      let fixture_path :=
        if truthy_str (location ts)
        then path_join charm_path (Path_of (match location ts with Some l => l | None => "" end))
        else fixture_path in
      let fixture_id :=
        if truthy_str (identifier ts)
        then match identifier ts with Some i => i | None => "" end
        else fixture_id in
      mkFixtureSpec fixture_path fixture_id
  | None => mkFixtureSpec fixture_path fixture_id
  end.

(** Python [str] of an [int] (used by [str.format] in [_generate_test]). *)
Fixpoint digits_of (fuel : nat) (n : Z) (acc : string) : string :=
  match fuel with
  | O => acc
  | S f =>
      let acc' := String (ascii_of_nat (48 + Z.to_nat (n mod 10))%nat) acc in
      if (n / 10 =? 0)%Z then acc' else digits_of f (n / 10)%Z acc'
  end.

Definition Z_to_string (z : Z) : string :=
  let fuel := S (Z.to_nat (Z.log2 (Z.abs z))) in
  if (z <? 0)%Z then "-" ++ digits_of fuel (Z.abs z) "" else digits_of fuel z "".

(** [str(path)] for an absolute path. *)
Definition path_str (p : APath) : string := "/" ++ String.concat "/" p.

(** ** Python strings

    A Python [str] is held as its UTF-8 encoding.  [code_points] decodes
    it (a malformed byte, which no [str] produces, reads as U+FFFD). *)
Definition is_cont (b : ascii) : bool :=
  let n := nat_of_ascii b in Nat.leb 128 n && Nat.ltb n 192.

(** The number of continuation bytes announced by a lead byte, and its
    payload bits. *)
Definition utf8_lead (n : Z) : option (nat * Z) :=
  if (n <? 128)%Z then Some (O, n)
  else if (n <? 192)%Z then None
  else if (n <? 224)%Z then Some (1%nat, n - 192)%Z
  else if (n <? 240)%Z then Some (2%nat, n - 224)%Z
  else if (n <? 248)%Z then Some (3%nat, n - 240)%Z
  else None.

Fixpoint utf8_go (s : string) (need : nat) (cp : Z) : list Z :=
  match s with
  | EmptyString => match need with O => [] | S _ => [65533%Z] end
  | String b r =>
      let n := Z.of_nat (nat_of_ascii b) in
      match need with
      | S k =>
          if is_cont b then
            match k with
            | O => (cp * 64 + (n - 128))%Z :: utf8_go r O 0
            | S _ => utf8_go r k (cp * 64 + (n - 128))%Z
            end
          else 65533%Z :: utf8_go r O 0
      | O =>
          match utf8_lead n with
          | Some (O, c) => c :: utf8_go r O 0
          | Some (k, c) => utf8_go r k c
          | None => 65533%Z :: utf8_go r O 0
          end
      end
  end.

Definition code_points (s : string) : list Z := utf8_go s O 0.

(** [s[1:]]: the bytes of the first code point are dropped. *)
Fixpoint drop_cont (s : string) : string :=
  match s with
  | String b r => if is_cont b then drop_cont r else s
  | EmptyString => EmptyString
  end.

Definition drop_first (s : string) : string :=
  match s with
  | String _ r => drop_cont r
  | EmptyString => EmptyString
  end.

(** ** Python's [int(str)] in base 10 (CPython 3.11)

    [PyLong_FromUnicodeObject] first maps every code point from 127 up:
    a Unicode white space ([str.isspace]) becomes a space, a Unicode
    decimal digit becomes its ASCII digit, and anything else ends the
    string with ['?'].  [PyLong_FromString] then reads ASCII white space,
    an optional sign, decimal digits with single underscores between
    them (PEP 515), white space and the end of the string; more than
    [sys.get_int_max_str_digits()] = 4300 digits raise [ValueError]. *)
Definition uni_space (c : Z) : bool :=
  existsb (Z.eqb c) [133; 160; 5760; 8232; 8233; 8239; 8287; 12288]%Z ||
  ((8192 <=? c) && (c <=? 8202))%Z.

(** The zero of every block of ten Unicode decimal digits above ASCII
    (Unicode 14.0, the database of CPython 3.11). *)
Definition uni_digit_zeros : list Z :=
  [1632; 1776; 1984; 2406; 2534; 2662; 2790; 2918; 3046; 3174; 3302; 3430; 3558; 3664;
   3792; 3872; 4160; 4240; 6112; 6160; 6470; 6608; 6784; 6800; 6992; 7088; 7232; 7248;
   42528; 43216; 43264; 43472; 43504; 43600; 44016; 65296; 66720; 68912; 69734; 69872;
   69942; 70096; 70384; 70736; 70864; 71248; 71360; 71472; 71904; 72016; 72784; 73040;
   73120; 92768; 92864; 93008; 120782; 120792; 120802; 120812; 120822; 123200; 123632;
   125264; 130032]%Z.

Definition uni_decimal (c : Z) : option Z :=
  match find (fun z => (z <=? c) && (c <? z + 10))%Z uni_digit_zeros with
  | Some z => Some (c - z)%Z
  | None => None
  end.

(** [_PyUnicode_TransformDecimalAndSpaceToASCII]. *)
Fixpoint to_ascii_digits (l : list Z) : list Z :=
  match l with
  | [] => []
  | c :: r =>
      if (c <? 127)%Z then c :: to_ascii_digits r
      else if uni_space c then 32%Z :: to_ascii_digits r
      else match uni_decimal c with
           | Some d => (48 + d)%Z :: to_ascii_digits r
           | None => [63%Z]
           end
  end.

(** [Py_ISSPACE]. *)
Definition ascii_space (c : Z) : bool := (((9 <=? c) && (c <=? 13)) || (c =? 32))%Z.

Fixpoint skip_spaces (l : list Z) : list Z :=
  match l with
  | c :: r => if ascii_space c then skip_spaces r else l
  | [] => []
  end.

Definition is_digit_code (c : Z) : bool := ((48 <=? c) && (c <=? 57))%Z.

(** The run of digits and underscores at the head of [l]: its value, its
    number of digits and what follows it; [None] for a doubled or a
    trailing underscore.  [prev_us]: the previous character was ['_']. *)
Fixpoint scan_digits (l : list Z) (acc : Z) (nd : nat) (prev_us : bool) : option (Z * nat * list Z) :=
  match l with
  | c :: r =>
      if is_digit_code c then scan_digits r (acc * 10 + (c - 48))%Z (S nd) false
      else if (c =? 95)%Z then (if prev_us then None else scan_digits r acc nd true)
      else if prev_us then None else Some (acc, nd, l)
  | [] => if prev_us then None else Some (acc, nd, [])
  end.

Definition parse_int_ascii (l : list Z) : option Z :=
  let l1 := skip_spaces l in
  let '(sign, l2) := match l1 with
                     | c :: r => if (c =? 43)%Z then (1%Z, r)
                                 else if (c =? 45)%Z then ((-1)%Z, r) else (1%Z, l1)
                     | [] => (1%Z, l1)
                     end in
  match l2 with
  | c :: _ => if (c =? 95)%Z then None else
      match scan_digits l2 0 0 false with
      | Some (v, nd, rest) =>
          if Nat.eqb nd 0 then None
          else if Nat.ltb 4300 nd then None
          else match skip_spaces rest with [] => Some (sign * v)%Z | _ => None end
      | None => None
      end
  | [] => None
  end.

(** [int(s)]: [None] where it raises [ValueError]. *)
Definition python_int (s : string) : option Z :=
  parse_int_ascii (to_ascii_digits (code_points s)).

(** ASCII digits (for the spec's reading below). *)
Definition is_digit (c : ascii) : bool :=
  let n := nat_of_ascii c in Nat.leb 48 n && Nat.leb n 57.

(** The spec's reading of "the decimal representation of an integer": an
    optional minus sign followed by one or more decimal digits. *)
Fixpoint all_digits (s : string) : bool :=
  match s with
  | EmptyString => true
  | String c r => is_digit c && all_digits r
  end.

Definition is_decimal_repr (s : string) : bool :=
  match s with
  | String c r =>
      if Ascii.eqb c "-"%char then negb (String.eqb r "") && all_digits r
      else all_digits s
  | EmptyString => false
  end.

(** ** Process and file-system state *)

(** What is at the workspace root. *)
Inductive RootKind := RAbsent | RFile | RDir.

Definition RootKind_eqb (a b : RootKind) : bool :=
  match a, b with
  | RAbsent, RAbsent | RFile, RFile | RDir, RDir => true
  | _, _ => false
  end.

(** A clone [<root>/<name>]: the configuration it was cloned from, the
    files of the cloned tree (relative paths) and how many of the three
    [_setup_venv] commands have completed in it. *)
Record CharmDir := mkCharmDir {
  cd_origin : CharmTestConfig;
  cd_files : list APath;
  cd_venv : nat
}.

(** Trace of the runner's external actions, in order. *)
Inductive Event :=
| EClean                          (* [_clean] was entered *)
| ERmtree                         (* [shutil.rmtree(root)] *)
| EClone (cfg : CharmTestConfig)  (* a [git clone] subprocess *)
| EVenv (p : APath)               (* [_setup_venv(p)] was entered *)
| EWriteTest (p : APath) (content : string)
| EPytest (p : APath).            (* a pytest subprocess on [p] *)

Record State := mkState {
  st_cwd : APath;
  st_root : RootKind;
  st_ws : dict string CharmDir;          (* the subdirectories of the root *)
  st_written : list (APath * string);    (* files written by [_generate_test] *)
  st_log : list Event
}.

(** The outside world. *)
Record Host := mkHost {
  h_clone_rc : CharmTestConfig -> Z;            (* [git clone] exit status *)
  h_repo_files : CharmTestConfig -> list APath; (* files of a successful clone *)
  h_venv_rc : CharmDir -> nat -> Z;             (* exit status of the k-th venv command *)
  h_pytest_rc : CharmDir -> APath -> option string -> Z;
  h_host_file : APath -> bool;                  (* regular files outside the workspace *)
  h_collect : string -> string -> Registry;     (* [collect_tests(path, include)] *)
  h_rmtree : dict string CharmDir -> list (APath * string) ->
             option (APath * dict string CharmDir * list (APath * string))
    (* [shutil.rmtree(root)] on the clones and the files written in the
       workspace: [None] when it removed everything, or the path whose
       removal failed with the clones and written files it left *)
}.

(** Python exceptions the runner raises or lets through. *)
Inductive Exn :=
| SetupError (msg : string)
| InterfaceTestError
| CalledProcessError (rc : Z)
| FileNotFoundError (p : APath)
| ValueError (s : string)
| KeyError (k : string)
| OSError (p : APath).              (* [OSError], e.g. [PermissionError] *)

(** ** A state-and-exception monad *)

Inductive Res (A : Type) := Ok (a : A) | Err (e : Exn).
Arguments Ok {A} a.
Arguments Err {A} e.

Definition M (A : Type) := State -> Res A * State.

Definition ret {A} (a : A) : M A := fun s => (Ok a, s).

Definition bind {A B} (m : M A) (k : A -> M B) : M B :=
  fun s => match m s with
           | (Ok a, s') => k a s'
           | (Err e, s') => (Err e, s')
           end.

Definition raise {A} (e : Exn) : M A := fun s => (Err e, s).

(** [try: m except <handled>: handler]; [h e = None] re-raises [e]. *)
Definition try_except {A} (m : M A) (h : Exn -> option (M A)) : M A :=
  fun s => match m s with
           | (Err e, s') => match h e with Some k => k s' | None => (Err e, s') end
           | r => r
           end.

Definition get : M State := fun s => (Ok s, s).
Definition put (s : State) : M unit := fun _ => (Ok tt, s).

Notation "x <- m ;; k" := (bind m (fun x => k)) (at level 61, m at next level, right associativity).
Notation "m ;;; k" := (bind m (fun _ => k)) (at level 61, right associativity).

Definition log_event (e : Event) : M unit :=
  fun s => (Ok tt, mkState (st_cwd s) (st_root s) (st_ws s) (st_written s) (st_log s ++ [e])).

(** ** File-system queries *)

(** The clone under the workspace root at [p] = [<root>/<n>], if any. *)
Definition ws_entry (s : State) (p : APath) : option CharmDir :=
  match strip_prefix ws_root p with
  | Some [n] => if RootKind_eqb (st_root s) RDir then dict_get n (st_ws s) else None
  | _ => None
  end.

(** Whether the directory [p] exists.  Inside the workspace only the root
    and the clones (and what they contain) exist; directories outside it
    belong to the host and are never removed by the runner. *)
Definition dir_exists (s : State) (p : APath) : bool :=
  match strip_prefix ws_root p with
  | Some [] => RootKind_eqb (st_root s) RDir
  | Some (n :: _) =>
      RootKind_eqb (st_root s) RDir &&
      match dict_get n (st_ws s) with Some _ => true | None => false end
  | None => true
  end.

Fixpoint written_lookup (p : APath) (w : list (APath * string)) : option string :=
  match w with
  | [] => None
  | (q, c) :: w' => if path_eqb q p then Some c else written_lookup p w'
  end.

Section Runner.

Variable h : Host.

(** [Path.is_file]. *)
Definition is_file (s : State) (p : APath) : bool :=
  match written_lookup p (st_written s) with
  | Some _ => true
  | None =>
      match strip_prefix ws_root p with
      | Some (n :: rel) =>
          RootKind_eqb (st_root s) RDir &&
          match dict_get n (st_ws s) with
          | Some cd => existsb (path_eqb rel) (cd_files cd)
          | None => false
          end
      | Some [] => false
      | None => h_host_file h p
      end
  end.

(** [os.getcwd()] fails once the current directory has been removed. *)
Definition os_getcwd : M APath :=
  fun s => if dir_exists s (st_cwd s) then (Ok (st_cwd s), s)
           else (Err (FileNotFoundError (st_cwd s)), s).

Definition os_chdir (p : APath) : M unit :=
  fun s => if dir_exists s p
           then (Ok tt, mkState p (st_root s) (st_ws s) (st_written s) (st_log s))
           else (Err (FileNotFoundError p), s).

(** [Path.exists] for a path [<root>/<n>]. *)
Definition path_exists (p : APath) : M bool :=
  fun s => (Ok (match ws_entry s p with Some _ => true | None => false end), s).

Definition path_is_file (p : APath) : M bool := fun s => (Ok (is_file s p), s).

(** [open(p, "w").write(content)]; the model covers writes that succeed. *)
Definition write_file (p : APath) (content : string) : M unit :=
  fun s => (Ok tt, mkState (st_cwd s) (st_root s) (st_ws s)
                     ((p, content) :: st_written s) (st_log s ++ [EWriteTest p content])).

(** [subprocess.call("git clone ... <url> <charm_path>", shell=True)]: git
    cannot create [<root>/<n>] below a regular file; a successful clone
    creates the root if needed and the clone directory.  A failed clone
    leaves nothing: git removes the directory it created when it exits with
    an error or on a signal it can catch (a SIGKILLed git cannot, which the
    model does not cover).  The model gives a clone directory only to a
    path [<root>/<n>]. *)
Definition git_clone_call (charm_config : CharmTestConfig) (charm_path : APath) : M Z :=
  fun s =>
    let rc := if RootKind_eqb (st_root s) RFile then 128%Z else h_clone_rc h charm_config in
    let log := st_log s ++ [EClone charm_config] in
    if (rc =? 0)%Z then
      match strip_prefix ws_root charm_path with
      | Some [n] =>
          (Ok rc, mkState (st_cwd s) RDir
                    (dict_set n (mkCharmDir charm_config (h_repo_files h charm_config) 0) (st_ws s))
                    (st_written s) log)
      | _ => (Ok rc, mkState (st_cwd s) (st_root s) (st_ws s) (st_written s) log)
      end
    else (Ok rc, mkState (st_cwd s) (st_root s) (st_ws s) (st_written s) log).

(** [subprocess.check_call] of the k-th venv command, run in the current
    directory; it raises [CalledProcessError] on any non-zero status. *)
Definition venv_check_call (k : nat) : M unit :=
  fun s =>
    match strip_prefix ws_root (st_cwd s), ws_entry s (st_cwd s) with
    | Some [n], Some cd =>
        let rc := h_venv_rc h cd k in
        if (rc =? 0)%Z
        then (Ok tt, mkState (st_cwd s) (st_root s)
                       (dict_set n (mkCharmDir (cd_origin cd) (cd_files cd) k) (st_ws s))
                       (st_written s) (st_log s))
        else (Err (CalledProcessError rc), s)
    | _, _ => (Err (CalledProcessError 127), s)
    end.

(** [subprocess.check_call("PYTHONPATH=src:lib .interface-venv/bin/python -m
    pytest <test_path>", shell=True)] in the current directory. *)
Definition pytest_check_call (test_path : APath) : M unit :=
  fun s =>
    let s' := mkState (st_cwd s) (st_root s) (st_ws s) (st_written s) (st_log s ++ [EPytest test_path]) in
    let rc := match ws_entry s (st_cwd s) with
              | Some cd => h_pytest_rc h cd test_path (written_lookup test_path (st_written s))
              | None => 127%Z
              end in
    if (rc =? 0)%Z then (Ok tt, s') else (Err (CalledProcessError rc), s').

(** ** The runner *)

Definition charm_path_of (charm_config : CharmTestConfig) : APath :=
  path_join ws_root (Path_of (name charm_config)).

Definition clone_error_msg (charm_config : CharmTestConfig) : string :=
  "Failed to clone repo for " ++ name charm_config ++ "; " ++ "check the charms.yaml config.".

Definition _clone_charm_repo (charm_config : CharmTestConfig) (charm_path : APath) : M unit :=
  retcode <- git_clone_call charm_config charm_path ;;
  if (retcode >? 0)%Z then raise (SetupError (clone_error_msg charm_config)) else ret tt.

Definition _setup_venv (charm_path : APath) : M unit :=
  log_event (EVenv charm_path) ;;;
  original_wd <- os_getcwd ;;
  os_chdir charm_path ;;;
  try_except (venv_check_call 1 ;;; venv_check_call 2 ;;; venv_check_call 3)
    (fun e => match e with
              | CalledProcessError _ => Some (raise (SetupError "venv setup failed"))
              | _ => None
              end) ;;;
  os_chdir original_wd.

Definition _run_test_with_pytest (root test_path : APath) : M unit :=
  original_wd <- os_getcwd ;;
  os_chdir root ;;;
  try_except (pytest_check_call test_path)
    (fun e => match e with
              | CalledProcessError _ => Some (raise InterfaceTestError)
              | _ => None
              end) ;;;
  os_chdir original_wd.

Definition test_file_name (interface : string) : string :=
  "interface-test-" ++ interface ++ ".py".

(** [_TEST_CONTENT.format(interface=..., fixture_id=..., version=...)]. *)
Definition test_content (interface fixture_id : string) (version : Z) : string :=
  "
# file generated by run_matrix.py
from interface_tester import InterfaceTester
def test_" ++ interface ++ "_interface(" ++ fixture_id ++ ": InterfaceTester):
    " ++ fixture_id ++ ".configure(
        interface_name=" ++ String (ascii_of_nat 34) EmptyString ++ interface
  ++ String (ascii_of_nat 34) EmptyString ++ ",
        interface_version=" ++ Z_to_string version ++ ",
    )
    " ++ fixture_id ++ ".run()
".

Definition _generate_test (interface : string) (test_path : APath) (fixture_id : string)
  (version : Z) : M APath :=
  let content := test_content interface fixture_id version in
  let test_filename := test_file_name interface in
  write_file (test_path ++ [test_filename]) content ;;;
  ret (test_path ++ [test_filename]).

Definition _prepare_repo (charm_config : CharmTestConfig) (interface : string) (version : Z)
  : M (APath * APath) :=
  let charm_path := charm_path_of charm_config in
  ex <- path_exists charm_path ;;
  (if negb ex then _clone_charm_repo charm_config charm_path ;;; _setup_venv charm_path
   else ret tt) ;;;
  fixture_spec <- try_except (ret (_get_fixture charm_config charm_path))
    (fun e => match e with
              | FileNotFoundError _ =>
                  Some (raise (SetupError ("unable to get fixture spec from " ++ path_str charm_path)))
              | _ => None
              end) ;;
  isf <- path_is_file (fs_path fixture_spec) ;;
  if negb isf then raise (SetupError ("fixture missing for charm " ++ name charm_config))
  else
    test_path <- _generate_test interface (parent (fs_path fixture_spec)) (fs_id fixture_spec) version ;;
    ret (charm_path, test_path).

(** Whether a path lies outside the workspace root. *)
Definition outside_ws (pc : APath * string) : bool :=
  match strip_prefix ws_root (fst pc) with Some _ => false | None => true end.

Definition _clean : M unit :=
  log_event EClean ;;;
  fun s =>
    if RootKind_eqb (st_root s) RDir
    then match h_rmtree h (st_ws s) (filter (fun pc => negb (outside_ws pc)) (st_written s)) with
         | None =>
             (Ok tt, mkState (st_cwd s) RAbsent [] (filter outside_ws (st_written s))
                       (st_log s ++ [ERmtree]))
         | Some (p, ws', w') =>
             (Err (OSError p), mkState (st_cwd s) RDir ws' (w' ++ filter outside_ws (st_written s))
                                 (st_log s ++ [ERmtree]))
         end
    else (Ok tt, s).

Definition _test_charm (charm_config : CharmTestConfig) (interface : string) (version : Z)
  (role : string) : M bool :=
  r <- try_except (p <- _prepare_repo charm_config interface version ;; ret (Some p))
         (fun e => match e with SetupError _ => Some (ret None) | _ => None end) ;;
  match r with
  | None => ret false
  | Some (charm_path, test_path) =>
      try_except (_run_test_with_pytest charm_path test_path ;;; ret true)
        (fun e => match e with InterfaceTestError => Some (ret false) | _ => None end)
  end.

(** The [for charm_config in charm_configs] loop of [_test_charms]. *)
Fixpoint test_charms_loop (charm_configs : list CharmTestConfig) (interface : string)
  (version : Z) (role : string) (out : ResultsPerCharm) : M ResultsPerCharm :=
  match charm_configs with
  | [] => ret out
  | charm_config :: rest =>
      success <- _test_charm charm_config interface version role ;;
      test_charms_loop rest interface version role (dict_set (name charm_config) success out)
  end.

Definition _test_charms (charm_configs : list CharmTestConfig) (interface : string)
  (version : Z) (role : string) : M ResultsPerCharm :=
  test_charms_loop charm_configs interface version role [].

(** One iteration of the [for role in ["provider", "requirer"]] loop. *)
Definition test_role_step (tests_per_role : TestsPerRole) (interface : string) (version : Z)
  (results_per_role : ResultsPerRole) (role : string) : M ResultsPerRole :=
  match dict_get role tests_per_role with
  | None => raise (KeyError role)
  | Some spec =>
      let interface_tests := tests spec in
      let charm_configs := charms spec in
      if negb (truthy_list interface_tests) then ret (dict_set role [] results_per_role)
      else if negb (truthy_list charm_configs) then ret (dict_set role [] results_per_role)
      else r <- _test_charms charm_configs interface version role ;;
           ret (dict_set role r results_per_role)
  end.

Fixpoint fold_m {A B} (f : B -> A -> M B) (l : list A) (acc : B) : M B :=
  match l with
  | [] => ret acc
  | x :: l' => acc' <- f acc x ;; fold_m f l' acc'
  end.

Definition _test_roles (tests_per_role : TestsPerRole) (interface : string) (version : Z)
  : M ResultsPerRole :=
  fold_m (test_role_step tests_per_role interface version) ["provider"; "requirer"] [].

(** One iteration of [for version, tests_per_role in tests_per_version.items()]. *)
Definition test_version_step (interface : string) (results_per_version : ResultsPerVersion)
  (item : string * TestsPerRole) : M ResultsPerVersion :=
  let (version, tests_per_role) := item in
  match python_int (drop_first version) with
  | None => raise (ValueError (drop_first version))
  | Some version_int =>
      r <- _test_roles tests_per_role interface version_int ;;
      ret (dict_set version r results_per_version)
  end.

Definition _test_interface_version (tests_per_version : TestsPerVersion) (interface : string)
  : M ResultsPerVersion :=
  fold_m (test_version_step interface) tests_per_version [].

(** One iteration of [for interface, version_to_roles in collected.items()]. *)
Definition test_interface_step (test_results : ResultsPerInterface)
  (item : string * TestsPerVersion) : M ResultsPerInterface :=
  let (interface, version_to_roles) := item in
  results_per_version <- _test_interface_version version_to_roles interface ;;
  ret (dict_set interface results_per_version test_results).

Definition run_interface_tests (path include : string) : M ResultsPerInterface :=
  _clean ;;;
  let collected := h_collect h path include in
  fold_m test_interface_step collected [].

End Runner.

(** ** Overrides as seen by [_get_fixture] *)

Definition loc_override (cfg : CharmTestConfig) : option string :=
  match test_setup cfg with Some ts => location ts | None => None end.

Definition id_override (cfg : CharmTestConfig) : option string :=
  match test_setup cfg with Some ts => identifier ts | None => None end.

Definition default_fixture_path (charm_path : APath) : APath :=
  path_join charm_path (Path_of FIXTURE_PATH).

(** ** Concrete scenarios *)

Definition traefik : CharmTestConfig :=
  mkCharm "traefik-k8s" "https://github.com/canonical/traefik-k8s-operator" None None.

(** A host on which every subprocess succeeds and clones contain the
    default fixture file. *)
Definition host_ok : Host :=
  mkHost (fun _ => 0%Z) (fun _ => [["tests"; "interface"; "conftest.py"]])
    (fun _ _ => 0%Z) (fun _ _ _ => 0%Z) (fun _ => false) (fun _ _ => []) (fun _ _ => None).

Definition s_fresh : State :=
  mkState ["home"; "user"; "charm-relation-interfaces"] RAbsent [] [] [].

(** The roles of an interface, registered requirer first. *)
Definition roles_requirer_first : TestsPerRole :=
  [("requirer", mkRoleSpec ["test_data_published"] []);
   ("provider", mkRoleSpec [] [traefik])].

(** A host where creating the virtualenv fails. *)
Definition host_venv_fails : Host :=
  mkHost (fun _ => 0%Z) (fun _ => [["tests"; "interface"; "conftest.py"]])
    (fun _ _ => 1%Z) (fun _ _ _ => 0%Z) (fun _ => false) (fun _ _ => []) (fun _ _ => None).

(** A host where the conformance test fails. *)
Definition host_test_fails : Host :=
  mkHost (fun _ => 0%Z) (fun _ => [["tests"; "interface"; "conftest.py"]])
    (fun _ _ => 0%Z) (fun _ _ _ => 1%Z) (fun _ => false) (fun _ _ => []) (fun _ _ => None).

(** A host where [git clone] is killed by SIGKILL: [subprocess.call]
    returns [-9]. *)
Definition host_clone_killed : Host :=
  mkHost (fun _ => (-9)%Z) (fun _ => [["tests"; "interface"; "conftest.py"]])
    (fun _ _ => 0%Z) (fun _ _ _ => 0%Z) (fun _ => false) (fun _ _ => []) (fun _ _ => None).

(** A host where [git clone] fails (e.g. an unknown branch). *)
Definition host_clone_fails : Host :=
  mkHost (fun _ => 128%Z) (fun _ => [["tests"; "interface"; "conftest.py"]])
    (fun _ _ => 0%Z) (fun _ _ _ => 0%Z) (fun _ => false) (fun _ _ => []) (fun _ _ => None).

Definition traefik_path : APath := charm_path_of traefik.

(** The workspace right after traefik was cloned. *)
Definition s_cloned : State :=
  mkState ["home"; "user"; "charm-relation-interfaces"] RDir
    [("traefik-k8s", mkCharmDir traefik [["tests"; "interface"; "conftest.py"]] 0)] [] [].

(** A registry with a version label that [int()] rejects. *)
Definition roles_empty : TestsPerRole :=
  [("provider", mkRoleSpec [] []); ("requirer", mkRoleSpec [] [])].

Definition host_with_registry (reg : Registry) : Host :=
  mkHost (fun _ => 0%Z) (fun _ => [["tests"; "interface"; "conftest.py"]])
    (fun _ _ => 0%Z) (fun _ _ _ => 0%Z) (fun _ => false) (fun _ _ => reg) (fun _ _ => None).

Definition registry_bad_label : Registry :=
  [("ingress", [("v1", roles_empty); ("version2", roles_empty); ("v3", roles_requirer_first)]);
   ("tracing", [("v2", roles_requirer_first)])].

Definition s_after_clean : State :=
  mkState ["home"; "user"; "charm-relation-interfaces"] RAbsent [] [] [EClean].

(** Two calls of [_prepare_repo] where [git clone] fails each time. *)
Definition s_clone_failed_once : State :=
  mkState ["home"; "user"; "charm-relation-interfaces"] RAbsent [] [] [EClone traefik].

Definition s_clone_failed_twice : State :=
  mkState ["home"; "user"; "charm-relation-interfaces"] RAbsent [] [] [EClone traefik; EClone traefik].

(** ** Counting provisioning events *)

Definition is_clone (e : Event) : bool := match e with EClone _ => true | _ => false end.
Definition is_venv (e : Event) : bool := match e with EVenv _ => true | _ => false end.
Definition is_write (e : Event) : bool := match e with EWriteTest _ _ => true | _ => false end.
Definition count_clones (l : list Event) : nat := length (filter is_clone l).
Definition count_builds (l : list Event) : nat := length (filter is_venv l).

(** Only test files were written: the workspace itself is untouched. *)
Definition only_writes (s s' : State) : Prop :=
  st_ws s' = st_ws s /\ st_root s' = st_root s /\
  exists l, st_log s' = st_log s ++ l /\ forallb is_write l = true.

(** No clone and no venv build happened, and the directory [p] was not
    removed. *)
Definition no_provisioning (p : APath) (s s' : State) : Prop :=
  (ws_entry s p <> None -> ws_entry s' p <> None) /\
  exists l, st_log s' = st_log s ++ l /\ count_clones l = 0 /\ count_builds l = 0.

(** One interface with one version, for a complete run. *)
Definition registry_one : Registry := [("ingress", [("v1", roles_requirer_first)])].

(** A host where [shutil.rmtree] fails with [PermissionError] on the
    traefik clone and removes nothing. *)
Definition host_rmtree_fails : Host :=
  mkHost (fun _ => 0%Z) (fun _ => [["tests"; "interface"; "conftest.py"]])
    (fun _ _ => 0%Z) (fun _ _ _ => 0%Z) (fun _ => false) (fun _ _ => [])
    (fun ws w => Some (ws_root ++ ["traefik-k8s"], ws, w)).

(** The version label ['v\u0663'] (ARABIC-INDIC DIGIT THREE, UTF-8 bytes
    D9 A3). *)
Definition label_arabic_three : string :=
  String "v" (String (ascii_of_nat 217) (String (ascii_of_nat 163) EmptyString)).

(** The version label ['\u00e93'] (LATIN SMALL LETTER E WITH ACUTE, UTF-8
    bytes C3 A9, then the digit 3). *)
Definition label_e_acute_three : string :=
  String (ascii_of_nat 195) (String (ascii_of_nat 169) "3").

(** The workspace root exists as a regular file. *)
Definition s_root_file : State :=
  mkState ["home"; "user"; "charm-relation-interfaces"] RFile [] [] [].

Definition is_clean (e : Event) : bool := match e with EClean => true | _ => false end.

(** Events were only appended to the log, and none of them is a reset. *)
Definition no_reset (s s' : State) : Prop :=
  exists l, st_log s' = st_log s ++ l /\ forallb (fun e => negb (is_clean e)) l = true.

(** ** What the run of one charm may change *)

(** The clone a workspace path belongs to: [<root>/<n>/...] belongs to [n]. *)
Definition path_owner (p : APath) : option string :=
  match strip_prefix ws_root p with Some (n :: _) => Some n | _ => None end.

(** The workspace root holds clones only when it is a directory. *)
Definition ws_wf (s : State) : Prop := RootKind_eqb (st_root s) RDir = false -> st_ws s = [].

Definition cwd_valid (s : State) : Prop := dir_exists s (st_cwd s) = true.

Definition dirs_kept (s s' : State) : Prop :=
  forall p, dir_exists s p = true -> dir_exists s' p = true.

(** Two states that differ only in what concerns the clone of charm [a]
    (and in the log and the working directory). *)
Definition agree (a : string) (s1 s2 : State) : Prop :=
  RootKind_eqb (st_root s1) RFile = RootKind_eqb (st_root s2) RFile /\
  (forall n, n <> a -> dict_get n (st_ws s1) = dict_get n (st_ws s2)) /\
  (forall p, path_owner p <> Some a ->
             written_lookup p (st_written s1) = written_lookup p (st_written s2)).

Definition states_agree (a : string) (s1 s2 : State) : Prop :=
  agree a s1 s2 /\ cwd_valid s1 /\ cwd_valid s2 /\ ws_wf s1 /\ ws_wf s2.

(** Directories are never removed, and a valid working directory and a
    well-formed workspace stay so. *)
Definition inv_kept (s s' : State) : Prop :=
  dirs_kept s s' /\ (cwd_valid s -> cwd_valid s') /\ (ws_wf s -> ws_wf s').

(** A step of a unit of work of charm [a]. *)
Definition side_step (a : string) (s s' : State) : Prop := agree a s s' /\ inv_kept s s'.

Definition res_rel {A B} (R : A -> B -> Prop) (r1 : Res A) (r2 : Res B) : Prop :=
  match r1, r2 with
  | Ok x, Ok y => R x y
  | Err e1, Err e2 => e1 = e2
  | _, _ => False
  end.

(** Two computations run from related states end in related states, with
    related results or the same exception. *)
Definition rrun {A B} (S : State -> State -> Prop) (R : A -> B -> Prop) (m1 : M A) (m2 : M B) : Prop :=
  forall s1 s2, S s1 s2 ->
    res_rel R (fst (m1 s1)) (fst (m2 s2)) /\ S (snd (m1 s1)) (snd (m2 s2)).

Definition opt_rel {A B} (R : A -> B -> Prop) (o1 : option A) (o2 : option B) : Prop :=
  match o1, o2 with
  | Some x, Some y => R x y
  | None, None => True
  | _, _ => False
  end.

Definition charms_agree (a : string) (d1 d2 : ResultsPerCharm) : Prop :=
  forall c, c <> a -> dict_get c d1 = dict_get c d2.
Definition roles_agree (a : string) (d1 d2 : ResultsPerRole) : Prop :=
  forall r, opt_rel (charms_agree a) (dict_get r d1) (dict_get r d2).
Definition versions_agree (a : string) (d1 d2 : ResultsPerVersion) : Prop :=
  forall v, opt_rel (roles_agree a) (dict_get v d1) (dict_get v d2).
Definition interfaces_agree (a : string) (d1 d2 : ResultsPerInterface) : Prop :=
  forall i, opt_rel (versions_agree a) (dict_get i d1) (dict_get i d2).

(** [results[interface][version][role][charm]], if present. *)
Definition result_leaf (t : ResultsPerInterface) (i v r c : string) : option bool :=
  match dict_get i t with
  | Some tv => match dict_get v tv with
               | Some tr => match dict_get r tr with
                            | Some tc => dict_get c tc
                            | None => None
                            end
               | None => None
               end
  | None => None
  end.

(** The registry without the charms named [a]. *)
Definition drop_charm (a : string) (cfgs : list CharmTestConfig) : list CharmTestConfig :=
  filter (fun c => negb (String.eqb (name c) a)) cfgs.
Definition strip_roles (a : string) (t : TestsPerRole) : TestsPerRole :=
  map (fun rs => (fst rs, mkRoleSpec (tests (snd rs)) (drop_charm a (charms (snd rs))))) t.
Definition strip_versions (a : string) (t : TestsPerVersion) : TestsPerVersion :=
  map (fun vt => (fst vt, strip_roles a (snd vt))) t.
Definition strip_registry (a : string) (reg : Registry) : Registry :=
  map (fun it => (fst it, strip_versions a (snd it))) reg.

Definition role_charms (t : TestsPerRole) : list CharmTestConfig :=
  flat_map (fun rs => charms (snd rs)) t.
Definition version_charms (t : TestsPerVersion) : list CharmTestConfig :=
  flat_map (fun vt => role_charms (snd vt)) t.
Definition registry_charms (reg : Registry) : list CharmTestConfig :=
  flat_map (fun it => version_charms (snd it)) reg.

(** A fixture location override that stays inside the clone: relative,
    naming a file below it, without [..]. *)
Definition fixture_loc_ok (cfg : CharmTestConfig) : bool :=
  match loc_override cfg with
  | Some l =>
      if String.eqb l "" then true
      else match Path_of l with
           | PRel (c :: cs) => negb (existsb (String.eqb "..") (c :: cs))
           | _ => false
           end
  | None => true
  end.

(** A charm whose name is a single path component and whose fixture stays
    in its clone. *)
Definition isolated_cfg (cfg : CharmTestConfig) : Prop :=
  charm_path_of cfg = ws_root ++ [name cfg] /\ fixture_loc_ok cfg = true.

Definition with_registry (h : Host) (reg : Registry) : Host :=
  mkHost (h_clone_rc h) (h_repo_files h) (h_venv_rc h) (h_pytest_rc h) (h_host_file h)
    (fun _ _ => reg) (h_rmtree h).

(** ** Scenarios of failure isolation *)

(** One role with a test and traefik registered. *)
Definition roles_traefik : TestsPerRole :=
  [("provider", mkRoleSpec ["test_data_published"] [traefik]);
   ("requirer", mkRoleSpec [] [])].

(** traefik registered under two interfaces. *)
Definition registry_shared : Registry :=
  [("ingress", [("v1", roles_traefik)]); ("tracing", [("v1", roles_traefik)])].

(** The same registry without the ingress unit. *)
Definition registry_tracing : Registry := [("tracing", [("v1", roles_traefik)])].

(** A host where [pip install -r requirements.txt] (the third venv
    command) fails, while the test only needs what the first two install. *)
Definition host_requirements_fail : Host :=
  mkHost (fun _ => 0%Z) (fun _ => [["tests"; "interface"; "conftest.py"]])
    (fun _ k => if Nat.eqb k 3 then 1%Z else 0%Z)
    (fun cd _ _ => if Nat.leb 2 (cd_venv cd) then 0%Z else 1%Z)
    (fun _ => false) (fun _ _ => []) (fun _ _ => None).

Definition tempo : CharmTestConfig :=
  mkCharm "tempo-k8s" "https://github.com/canonical/tempo-k8s-operator" None None.

(** traefik under two interfaces, and tempo next to it under the second. *)
Definition registry_pair : Registry :=
  [("ingress", [("v1", roles_traefik)]);
   ("tracing", [("v1", [("provider", mkRoleSpec ["test_data_published"] [traefik; tempo]);
                        ("requirer", mkRoleSpec [] [])])])].

(** ** Helpers for the properties of the whole runner *)

Definition role_leaves_ok (tpr : TestsPerRole) (role : string) (y : ResultsPerCharm) : Prop :=
  (forall c b, dict_get c y = Some b ->
     exists spec, dict_get role tpr = Some spec /\ In c (map name (charms spec))) /\
  (forall spec, dict_get role tpr = Some spec -> tests spec <> [] ->
     forall cfg, In cfg (charms spec) -> dict_get (name cfg) y <> None).

Definition version_leaves_ok (item : string * TestsPerRole) (tr : ResultsPerRole) : Prop :=
  forall r, (forall y, dict_get r tr = Some y -> role_leaves_ok (snd item) r y) /\
            (In r ["provider"; "requirer"] -> dict_get r tr <> None).

Definition interface_leaves_ok (item : string * TestsPerVersion) (rv : ResultsPerVersion) : Prop :=
  (forall v y, dict_get v rv = Some y -> exists tpr, In (v, tpr) (snd item) /\ version_leaves_ok (v, tpr) y) /\
  (NoDup (map fst (snd item)) -> forall v tpr, In (v, tpr) (snd item) ->
     exists y, dict_get v rv = Some y /\ version_leaves_ok (v, tpr) y).

Definition charm_step h iface ver role (out : ResultsPerCharm) (c : CharmTestConfig) : M ResultsPerCharm :=
  b <- _test_charm h c iface ver role ;; ret (dict_set (name c) b out).

Definition is_fnf (e : Exn) : Prop := exists p, e = FileNotFoundError p.

(** The exceptions [_prepare_repo] can raise. *)
Definition prepare_exn (cfg : CharmTestConfig) (e : Exn) : Prop :=
  e = SetupError (clone_error_msg cfg) \/ e = SetupError "venv setup failed" \/
  e = SetupError ("fixture missing for charm " ++ name cfg) \/ is_fnf e.

Definition roles_exn (e : Exn) : Prop :=
  is_fnf e \/ e = KeyError "provider" \/ e = KeyError "requirer".

(** The exceptions [run_interface_tests] can raise: a [ValueError] names
    the tail of a collected version label that [int()] rejects. *)
Definition run_exn_of (h : Host) (path include : string) (e : Exn) : Prop :=
  (exists p, e = OSError p) \/ roles_exn e \/
  exists iface tpv v tpr, In (iface, tpv) (h_collect h path include) /\ In (v, tpr) tpv /\
                          python_int (drop_first v) = None /\ e = ValueError (drop_first v).

(** ** Scenarios for the properties of the whole runner *)

(** traefik was cloned, but its clone has no fixture file. *)
Definition s_clone_no_fixture : State :=
  mkState ["home"; "user"; "charm-relation-interfaces"] RDir
    [("traefik-k8s", mkCharmDir traefik [] 3)] [] [].

(** Roles with a provider but no requirer. *)
Definition roles_no_requirer : TestsPerRole :=
  [("provider", mkRoleSpec ["test_data_published"] [traefik])].

(** * Proofs *)

Lemma ws_root_parsed : Path_of "/tmp/charm-relation-interfaces-tests/" = PAbs ws_root.
Proof. vm_compute. reflexivity. Qed.

(** ** Dictionary lemmas *)

Lemma dict_get_set {V} (k k' : string) (v : V) (d : dict string V) :
  dict_get k (dict_set k' v d) = if String.eqb k k' then Some v else dict_get k d.
Proof.
  induction d as [|[k0 v0] d IH]; simpl.
  - reflexivity.
  - destruct (String.eqb k' k0) eqn:E1.
    + apply String.eqb_eq in E1; subst k0. simpl. destruct (String.eqb k k'); reflexivity.
    + simpl. rewrite IH. destruct (String.eqb k k0) eqn:E2, (String.eqb k k') eqn:E3; auto.
      apply String.eqb_eq in E2, E3. subst. rewrite String.eqb_refl in E1. discriminate.
Qed.

Lemma dict_get_set_same {V} (k : string) (v : V) d : dict_get k (dict_set k v d) = Some v.
Proof. rewrite dict_get_set, String.eqb_refl. reflexivity. Qed.

Lemma dict_get_set_other {V} (k k' : string) (v : V) d :
  k <> k' -> dict_get k (dict_set k' v d) = dict_get k d.
Proof. intros H. rewrite dict_get_set. apply String.eqb_neq in H. rewrite H. reflexivity. Qed.

Lemma truthy_str_some (l : string) : l <> "" -> truthy_str (Some l) = true.
Proof. intros H. simpl. apply String.eqb_neq in H. rewrite H. reflexivity. Qed.

(** ** C5: the two fixture overrides are applied independently *)

(** C5.  With only a location override the identifier is the default
    [interface_tester]; with only an identifier override the path is the
    default [<charm>/tests/interface/conftest.py]; with both, both are the
    overrides (the location taken relative to the charm path); with
    neither, both defaults. *)
Theorem get_fixture_overrides_independent (cfg : CharmTestConfig) (charm_path : APath) :
  (forall l, loc_override cfg = Some l -> l <> "" -> id_override cfg = None ->
     _get_fixture cfg charm_path = mkFixtureSpec (path_join charm_path (Path_of l)) FIXTURE_IDENTIFIER) /\
  (forall i, id_override cfg = Some i -> i <> "" -> loc_override cfg = None ->
     _get_fixture cfg charm_path = mkFixtureSpec (default_fixture_path charm_path) i) /\
  (forall l i, loc_override cfg = Some l -> l <> "" -> id_override cfg = Some i -> i <> "" ->
     _get_fixture cfg charm_path = mkFixtureSpec (path_join charm_path (Path_of l)) i) /\
  (loc_override cfg = None -> id_override cfg = None ->
     _get_fixture cfg charm_path = mkFixtureSpec (default_fixture_path charm_path) FIXTURE_IDENTIFIER).
Proof.
  destruct cfg as [nm u [[lo io]|] br]; unfold loc_override, id_override, _get_fixture; simpl;
    repeat split; intros; subst; try discriminate;
    repeat (rewrite truthy_str_some by assumption); reflexivity.
Qed.

Lemma get_fixture_overrides_independent_witness :
  _get_fixture (mkCharm "c" "u" (Some (mkTestSetup (Some "tests/conftest.py") None)) None)
    ["tmp"; "c"]
  = mkFixtureSpec (path_join ["tmp"; "c"] (Path_of "tests/conftest.py")) FIXTURE_IDENTIFIER.
Proof.
  apply (proj1 (get_fixture_overrides_independent
                  (mkCharm "c" "u" (Some (mkTestSetup (Some "tests/conftest.py") None)) None)
                  ["tmp"; "c"]) "tests/conftest.py"); [reflexivity | discriminate | reflexivity].
Defined.

(** ** C10: falsy overrides resolve to the defaults *)

(** C10.  When [test_setup] is present but its [location] (resp.
    [identifier]) is [None] or the empty string, [_get_fixture] resolves
    the default path (resp. the default identifier). *)
Theorem get_fixture_falsy_override_is_default (cfg : CharmTestConfig) (ts : TestSetup)
  (charm_path : APath) :
  test_setup cfg = Some ts ->
  ((location ts = None \/ location ts = Some "") ->
     fs_path (_get_fixture cfg charm_path) = default_fixture_path charm_path) /\
  ((identifier ts = None \/ identifier ts = Some "") ->
     fs_id (_get_fixture cfg charm_path) = FIXTURE_IDENTIFIER).
Proof.
  intros Hts. unfold _get_fixture. rewrite Hts. split; intros [H|H]; simpl; rewrite H; reflexivity.
Qed.

Lemma get_fixture_falsy_override_is_default_witness :
  fs_path (_get_fixture (mkCharm "c" "u" (Some (mkTestSetup (Some "") (Some ""))) None) ["tmp"; "c"])
  = default_fixture_path ["tmp"; "c"].
Proof.
  apply (proj1 (get_fixture_falsy_override_is_default
                  (mkCharm "c" "u" (Some (mkTestSetup (Some "") (Some ""))) None)
                  (mkTestSetup (Some "") (Some "")) ["tmp"; "c"] eq_refl)).
  right; reflexivity.
Defined.

(** ** Shape of the role loop *)

Lemma test_role_step_shape h tpr iface ver results role s r s' :
  test_role_step h tpr iface ver results role s = (Ok r, s') ->
  exists x, r = dict_set role x results.
Proof.
  unfold test_role_step. destruct (dict_get role tpr) as [spec|]; [|discriminate].
  destruct (negb (truthy_list (tests spec))).
  - intros H; inversion H; eauto.
  - destruct (negb (truthy_list (charms spec))).
    + intros H; inversion H; eauto.
    + unfold bind, ret. destruct (_test_charms h (charms spec) iface ver role s) as [[x|e] s1].
      * intros H; inversion H; eauto.
      * discriminate.
Qed.

Lemma test_roles_unfold h tpr iface ver s :
  _test_roles h tpr iface ver s =
  match test_role_step h tpr iface ver [] "provider" s with
  | (Ok r1, s1) => test_role_step h tpr iface ver r1 "requirer" s1
  | (Err e, s1) => (Err e, s1)
  end.
Proof.
  unfold _test_roles. simpl. unfold bind, ret.
  destruct (test_role_step h tpr iface ver [] "provider" s) as [[r1|e] s1]; [|reflexivity].
  destruct (test_role_step h tpr iface ver r1 "requirer" s1) as [[r2|e] s2]; reflexivity.
Qed.

(** ** C4: an empty role is recorded as an empty mapping *)

(** C4.  If a role's test list or charm list is empty, its step of the
    role loop records exactly [{}] at the role's key and leaves the state
    untouched (no charm is attempted); in the result of [_test_roles] the
    key of such a role maps to [{}]. *)
Theorem test_roles_empty_role h tpr iface ver role spec :
  dict_get role tpr = Some spec -> (tests spec = [] \/ charms spec = []) ->
  (forall results s,
     test_role_step h tpr iface ver results role s = (Ok (dict_set role [] results), s)) /\
  (forall s r s', (role = "provider" \/ role = "requirer") ->
     _test_roles h tpr iface ver s = (Ok r, s') -> dict_get role r = Some []).
Proof.
  intros Hget Hempty.
  assert (Hstep : forall results s,
     test_role_step h tpr iface ver results role s = (Ok (dict_set role [] results), s)).
  { intros results s. unfold test_role_step. rewrite Hget.
    destruct Hempty as [E|E]; rewrite E; simpl; [reflexivity|].
    destruct (tests spec); reflexivity. }
  split; [exact Hstep|].
  intros s r s' Hrole Hrun. rewrite test_roles_unfold in Hrun.
  destruct Hrole as [->| ->].
  - rewrite Hstep in Hrun.
    apply test_role_step_shape in Hrun as [x ->].
    rewrite dict_get_set_other by discriminate. apply dict_get_set_same.
  - destruct (test_role_step h tpr iface ver [] "provider" s) as [[r1|e] s1]; [|discriminate].
    rewrite Hstep in Hrun. inversion Hrun. apply dict_get_set_same.
Qed.

Lemma test_roles_empty_role_witness :
  test_role_step host_ok roles_requirer_first "ingress" 2 [] "provider" s_fresh
  = (Ok [("provider", [])], s_fresh).
Proof.
  exact (proj1 (test_roles_empty_role host_ok roles_requirer_first "ingress" 2 "provider"
                  (mkRoleSpec [] [traefik]) eq_refl (or_introl eq_refl)) [] s_fresh).
Defined.

(** ** C8: roles are emitted provider first, then requirer *)

(** C8.  Whatever the order of the role keys in the registry, a successful
    [_test_roles] returns a mapping whose keys are exactly provider then
    requirer, in that order. *)
Theorem test_roles_fixed_order h tpr iface ver s r s' :
  _test_roles h tpr iface ver s = (Ok r, s') -> map fst r = ["provider"; "requirer"].
Proof.
  rewrite test_roles_unfold.
  destruct (test_role_step h tpr iface ver [] "provider" s) as [[r1|e] s1] eqn:E1; [|discriminate].
  apply test_role_step_shape in E1 as [x ->].
  intros E2. apply test_role_step_shape in E2 as [y ->]. reflexivity.
Qed.

Lemma test_roles_fixed_order_witness :
  _test_roles host_ok roles_requirer_first "ingress" 2 s_fresh
    = (Ok [("provider", []); ("requirer", [])], s_fresh) /\
  map fst [("provider", @nil (string * bool)); ("requirer", [])] = ["provider"; "requirer"].
Proof.
  split; [vm_compute; reflexivity|].
  apply (test_roles_fixed_order host_ok roles_requirer_first "ingress" 2 s_fresh _ s_fresh).
  vm_compute; reflexivity.
Defined.

(** ** Running monadic code step by step *)

Lemma bind_inv {A B} (m : M A) (k : A -> M B) s r s' :
  bind m k s = (r, s') ->
  (exists e, m s = (Err e, s') /\ r = Err e) \/
  (exists a s1, m s = (Ok a, s1) /\ k a s1 = (r, s')).
Proof.
  unfold bind. destruct (m s) as [[a|e] s1].
  - intros H. right. eauto.
  - intros H. inversion H. left. eauto.
Qed.

Lemma try_inv {A} (m : M A) hdl s r s' :
  try_except m hdl s = (r, s') ->
  (exists a, m s = (Ok a, s') /\ r = Ok a) \/
  (exists e s1, m s = (Err e, s1) /\
     ((hdl e = None /\ r = Err e /\ s' = s1) \/ (exists k, hdl e = Some k /\ k s1 = (r, s')))).
Proof.
  unfold try_except. destruct (m s) as [[a|e] s1].
  - intros H. inversion H. left. eauto.
  - destruct (hdl e) as [k|] eqn:E; intros H; right; exists e, s1; split; auto.
    + right. eauto.
    + left. inversion H. auto.
Qed.

Lemma log_event_run e s :
  log_event e s = (Ok tt, mkState (st_cwd s) (st_root s) (st_ws s) (st_written s) (st_log s ++ [e])).
Proof. reflexivity. Qed.

Lemma os_getcwd_inv s r s' :
  os_getcwd s = (r, s') -> s' = s /\ (r = Ok (st_cwd s) \/ r = Err (FileNotFoundError (st_cwd s))).
Proof. unfold os_getcwd. destruct (dir_exists s (st_cwd s)); intros H; inversion H; auto. Qed.

Lemma os_chdir_inv p s r s' :
  os_chdir p s = (r, s') ->
  (r = Ok tt /\ s' = mkState p (st_root s) (st_ws s) (st_written s) (st_log s) /\ dir_exists s p = true) \/
  (r = Err (FileNotFoundError p) /\ s' = s).
Proof. unfold os_chdir. destruct (dir_exists s p) eqn:E; intros H; inversion H; auto. Qed.

Lemma venv_check_call_inv h k s r s' :
  venv_check_call h k s = (r, s') ->
  st_cwd s' = st_cwd s /\ (r = Ok tt \/ exists rc, r = Err (CalledProcessError rc)).
Proof.
  unfold venv_check_call.
  destruct (strip_prefix ws_root (st_cwd s)) as [[|n [|x l]]|];
    try (intros H; inversion H; subst; eauto; fail).
  destruct (ws_entry s (st_cwd s)) as [cd|]; [|intros H; inversion H; subst; eauto].
  destruct (h_venv_rc h cd k =? 0)%Z; intros H; inversion H; subst; simpl; eauto.
Qed.

Lemma pytest_check_call_inv h tp s r s' :
  pytest_check_call h tp s = (r, s') ->
  st_cwd s' = st_cwd s /\ (r = Ok tt \/ exists rc, r = Err (CalledProcessError rc)).
Proof.
  unfold pytest_check_call. destruct (_ =? 0)%Z; intros H; inversion H; subst; simpl; eauto.
Qed.

Lemma bind_ok {A B} (m : M A) (k : A -> M B) s a s1 :
  m s = (Ok a, s1) -> bind m k s = k a s1.
Proof. unfold bind. intros ->. reflexivity. Qed.

Lemma bind_err {A B} (m : M A) (k : A -> M B) s e s1 :
  m s = (Err e, s1) -> bind m k s = (Err e, s1).
Proof. unfold bind. intros ->. reflexivity. Qed.

Lemma bind_assoc_s {A B C} (m : M A) (k1 : A -> M B) (k2 : B -> M C) s :
  bind (bind m k1) k2 s = bind m (fun a => bind (k1 a) k2) s.
Proof. unfold bind. destruct (m s) as [[a|e] s1]; reflexivity. Qed.

Ltac step_ok E := rewrite ?bind_assoc_s; rewrite (bind_ok _ _ _ _ _ E); cbv beta.

Lemma strip_prefix_app pre q : strip_prefix pre (pre ++ q) = Some q.
Proof. induction pre as [|a pre IH]; simpl; [reflexivity|]. rewrite String.eqb_refl. exact IH. Qed.

Lemma ws_entry_none_dir s p n :
  strip_prefix ws_root p = Some [n] -> ws_entry s p = None -> dir_exists s p = false.
Proof.
  unfold ws_entry, dir_exists. intros -> H.
  destruct (RootKind_eqb (st_root s) RDir); [|reflexivity]. simpl. rewrite H. reflexivity.
Qed.

Lemma git_clone_call_nonzero h cfg cp s :
  RootKind_eqb (st_root s) RFile = false -> (h_clone_rc h cfg =? 0)%Z = false ->
  git_clone_call h cfg cp s =
  (Ok (h_clone_rc h cfg),
   mkState (st_cwd s) (st_root s) (st_ws s) (st_written s) (st_log s ++ [EClone cfg])).
Proof. intros H1 H2. unfold git_clone_call. rewrite H1. cbv iota. rewrite H2. reflexivity. Qed.


Section Preserves.

Variable R : State -> State -> Prop.
Hypothesis R_refl : forall s, R s s.
Hypothesis R_trans : forall s1 s2 s3, R s1 s2 -> R s2 s3 -> R s1 s3.

Definition preserves {A} (m : M A) : Prop := forall s r s', m s = (r, s') -> R s s'.

Lemma preserves_ret {A} (a : A) : preserves (ret a).
Proof. intros s r s' H. inversion H. apply R_refl. Qed.

Lemma preserves_raise {A} e : preserves (@raise A e).
Proof. intros s r s' H. inversion H. apply R_refl. Qed.

Lemma preserves_bind {A B} (m : M A) (k : A -> M B) :
  preserves m -> (forall a, preserves (k a)) -> preserves (bind m k).
Proof.
  intros Hm Hk s r s' H. apply bind_inv in H as [[e [E _]]|[a [s1 [E1 E2]]]].
  - exact (Hm _ _ _ E).
  - exact (R_trans _ _ _ (Hm _ _ _ E1) (Hk _ _ _ _ E2)).
Qed.

Lemma preserves_try {A} (m : M A) hdl :
  preserves m -> (forall e k, hdl e = Some k -> preserves k) -> preserves (try_except m hdl).
Proof.
  intros Hm Hh s r s' H.
  apply try_inv in H as [[a [E _]]|[e [s1 [E [[_ [_ ->]]|[k [Hk Ek]]]]]]].
  - exact (Hm _ _ _ E).
  - exact (Hm _ _ _ E).
  - exact (R_trans _ _ _ (Hm _ _ _ E) (Hh _ _ Hk _ _ _ Ek)).
Qed.

Lemma preserves_fold {A B} (f : B -> A -> M B) (l : list A) :
  (forall b a, preserves (f b a)) -> forall acc, preserves (fold_m f l acc).
Proof.
  intros Hf. induction l as [|a l IH]; intros acc; simpl.
  - apply preserves_ret.
  - apply preserves_bind; auto.
Qed.

End Preserves.

(** Which exceptions a computation can raise. *)
Definition raises_only {A} (P : Exn -> Prop) (m : M A) : Prop :=
  forall s e s', m s = (Err e, s') -> P e.

Lemma raises_only_bind {A B} P (m : M A) (k : A -> M B) :
  raises_only P m -> (forall a, raises_only P (k a)) -> raises_only P (bind m k).
Proof.
  intros Hm Hk s e s' H. apply bind_inv in H as [[e' [E1 E2]]|[a [s1 [E1 E2]]]].
  - inversion E2; subst. exact (Hm _ _ _ E1).
  - exact (Hk _ _ _ _ E2).
Qed.

Definition is_cpe (e : Exn) : Prop := exists rc, e = CalledProcessError rc.

Definition same_cwd (s s' : State) : Prop := st_cwd s' = st_cwd s.

Lemma venv_body_cwd h :
  preserves same_cwd (venv_check_call h 1 ;;; venv_check_call h 2 ;;; venv_check_call h 3).
Proof.
  assert (Hv : forall k, preserves same_cwd (venv_check_call h k)).
  { intros k s r s' H. apply venv_check_call_inv in H as [H _]. exact H. }
  assert (Hr : forall s, same_cwd s s) by (intros; reflexivity).
  assert (Ht : forall s1 s2 s3, same_cwd s1 s2 -> same_cwd s2 s3 -> same_cwd s1 s3)
    by (unfold same_cwd; intros; congruence).
  apply preserves_bind; auto; intros _.
  apply preserves_bind; auto.
Qed.

Lemma venv_body_raises h :
  raises_only is_cpe (venv_check_call h 1 ;;; venv_check_call h 2 ;;; venv_check_call h 3).
Proof.
  assert (Hv : forall k, raises_only is_cpe (venv_check_call h k)).
  { intros k s e s' H. apply venv_check_call_inv in H as [_ [H|H]]; [discriminate|].
    destruct H as [rc H]. inversion H. exists rc. reflexivity. }
  apply raises_only_bind; [apply Hv|intros _].
  apply raises_only_bind; [apply Hv|intros _]. apply Hv.
Qed.

(** ** C1: the working directory is not restored on the error paths *)

(** C1.  [_setup_venv] and [_run_test_with_pytest] restore the previous
    working directory only when their subprocesses succeed: when
    [_setup_venv(charm_path)] raises [SetupError] the process is left in
    [charm_path], and when [_run_test_with_pytest(root, _)] raises
    [InterfaceTestError] it is left in [root]. *)
Theorem cwd_not_restored_on_error h :
  (forall charm_path s msg s',
     _setup_venv h charm_path s = (Err (SetupError msg), s') -> st_cwd s' = charm_path) /\
  (forall root test_path s s',
     _run_test_with_pytest h root test_path s = (Err InterfaceTestError, s') -> st_cwd s' = root).
Proof.
  split.
  - intros cp s msg s' H. unfold _setup_venv in H.
    apply bind_inv in H as [[e [E1 _]]|[u [s1 [E1 H]]]];
      [rewrite log_event_run in E1; discriminate|].
    apply bind_inv in H as [[e [E2 Hr]]|[orig [s2 [E2 H]]]].
    { apply os_getcwd_inv in E2 as [_ [?|?]]; congruence. }
    apply os_getcwd_inv in E2 as [-> _].
    apply bind_inv in H as [[e [E3 Hr]]|[u3 [s3 [E3 H]]]].
    { apply os_chdir_inv in E3 as [[? _]|[? _]]; congruence. }
    apply os_chdir_inv in E3 as [[_ [-> _]]|[? _]]; [|discriminate].
    apply bind_inv in H as [[e [E4 Hr]]|[u4 [s4 [E4 H]]]].
    + apply try_inv in E4 as [[a [_ ?]]|[e' [s5 [E5 [[Hh [? ->]]|[k [Hk Ek]]]]]]]; try discriminate.
      * destruct (venv_body_raises h _ _ _ E5) as [rc ->]. discriminate.
      * destruct (venv_body_raises h _ _ _ E5) as [rc ->]. inversion Hk; subst.
        inversion Ek; subst. apply (venv_body_cwd h) in E5. exact E5.
    + apply os_chdir_inv in H as [[? _]|[? _]]; discriminate.
  - intros root tp s s' H. unfold _run_test_with_pytest in H.
    apply bind_inv in H as [[e [E2 Hr]]|[orig [s2 [E2 H]]]].
    { apply os_getcwd_inv in E2 as [_ [?|?]]; congruence. }
    apply os_getcwd_inv in E2 as [-> _].
    apply bind_inv in H as [[e [E3 Hr]]|[u3 [s3 [E3 H]]]].
    { apply os_chdir_inv in E3 as [[? _]|[? _]]; congruence. }
    apply os_chdir_inv in E3 as [[_ [-> _]]|[? _]]; [|discriminate].
    apply bind_inv in H as [[e [E4 Hr]]|[u4 [s4 [E4 H]]]].
    + apply try_inv in E4 as [[a [_ ?]]|[e' [s5 [E5 [[Hh [? ->]]|[k [Hk Ek]]]]]]]; try discriminate.
      * apply pytest_check_call_inv in E5 as [_ [Hq|[rc Hq]]]; inversion Hq; subst.
        simpl in Hh. discriminate.
      * apply pytest_check_call_inv in E5 as [Hc [Hq|[rc Hq]]]; inversion Hq; subst.
        inversion Hk; subst. inversion Ek; subst. exact Hc.
    + apply os_chdir_inv in H as [[? _]|[? _]]; discriminate.
Qed.

Lemma cwd_not_restored_on_error_witness :
  _setup_venv host_venv_fails traefik_path s_cloned
    = (Err (SetupError "venv setup failed"),
       mkState traefik_path RDir (st_ws s_cloned) [] [EVenv traefik_path]) /\
  st_cwd (mkState traefik_path RDir (st_ws s_cloned) [] [EVenv traefik_path]) = traefik_path /\
  traefik_path <> st_cwd s_cloned.
Proof.
  assert (E : _setup_venv host_venv_fails traefik_path s_cloned
    = (Err (SetupError "venv setup failed"),
       mkState traefik_path RDir (st_ws s_cloned) [] [EVenv traefik_path])) by (vm_compute; reflexivity).
  split; [exact E|]. split.
  - exact (proj1 (cwd_not_restored_on_error host_venv_fails) _ _ _ _ E).
  - vm_compute. discriminate.
Defined.

(** ** C6: the clone's exit status *)

(** C6.  When the charm directory is absent, [_prepare_repo] clones it.
    A positive exit status of [git clone] aborts with [SetupError] naming
    the charm, and nothing but the clone is attempted.  A negative status
    (the shell killed by a signal, as [subprocess.call] reports it) is not
    caught by [retcode > 0]: the venv build is attempted in the missing
    directory and the error that escapes is not a [SetupError]. *)
Theorem prepare_repo_clone_status h cfg iface ver s :
  charm_path_of cfg = ws_root ++ [name cfg] ->
  ws_entry s (charm_path_of cfg) = None -> st_root s <> RFile ->
  ((h_clone_rc h cfg > 0)%Z ->
     exists s', _prepare_repo h cfg iface ver s = (Err (SetupError (clone_error_msg cfg)), s') /\
                st_log s' = st_log s ++ [EClone cfg]) /\
  ((h_clone_rc h cfg < 0)%Z ->
     exists e s', _prepare_repo h cfg iface ver s = (Err e, s') /\
                  (forall m, e <> SetupError m) /\ In (EVenv (charm_path_of cfg)) (st_log s')).
Proof.
  intros Hcp Hnone Hroot.
  assert (Hrf : RootKind_eqb (st_root s) RFile = false)
    by (destruct (st_root s); simpl; congruence).
  unfold _prepare_repo. cbv beta zeta.
  rewrite (bind_ok _ _ s false s) by (unfold path_exists; rewrite Hnone; reflexivity).
  cbv beta iota. cbn [negb].
  split; intros Hrc.
  - assert (E0 : (h_clone_rc h cfg =? 0)%Z = false) by (apply Z.eqb_neq; lia).
    assert (E1 : (h_clone_rc h cfg >? 0)%Z = true) by (apply Z.gtb_lt; lia).
    eexists. split.
    { erewrite bind_err; [reflexivity|].
      erewrite bind_err; [reflexivity|].
      unfold _clone_charm_repo.
      rewrite (bind_ok _ _ _ _ _ (git_clone_call_nonzero h cfg _ s Hrf E0)).
      rewrite E1. reflexivity. }
    reflexivity.
  - assert (E0 : (h_clone_rc h cfg =? 0)%Z = false) by (apply Z.eqb_neq; lia).
    assert (E1 : (h_clone_rc h cfg >? 0)%Z = false) by (rewrite Z.gtb_ltb; apply Z.ltb_ge; lia).
    unfold _clone_charm_repo at 1.
    step_ok (git_clone_call_nonzero h cfg (charm_path_of cfg) s Hrf E0).
    rewrite E1. step_ok (@eq_refl _ (ret tt (mkState (st_cwd s) (st_root s) (st_ws s) (st_written s) (st_log s ++ [EClone cfg])))).
    unfold _setup_venv.
    step_ok (log_event_run (EVenv (charm_path_of cfg)) (mkState (st_cwd s) (st_root s) (st_ws s) (st_written s) (st_log s ++ [EClone cfg]))).
    rewrite !bind_assoc_s. unfold bind at 1. unfold os_getcwd at 1.
    cbn [st_cwd st_root st_ws st_written st_log].
    destruct (dir_exists _ _) eqn:Ecwd.
    + cbv beta iota. rewrite !bind_assoc_s. unfold bind at 1. unfold os_chdir at 1.
      rewrite ws_entry_none_dir with (n := name cfg).
      * do 2 eexists. split; [reflexivity|]. split; [intros m; discriminate|].
        simpl. apply in_or_app. right. left. reflexivity.
      * rewrite Hcp. apply strip_prefix_app.
      * unfold ws_entry in *. exact Hnone.
    + do 2 eexists. split; [reflexivity|]. split; [intros m; discriminate|].
      simpl. apply in_or_app. right. left. reflexivity.
Qed.

Lemma prepare_repo_clone_status_witness :
  charm_path_of traefik = ws_root ++ [name traefik] /\
  ws_entry s_fresh (charm_path_of traefik) = None /\ st_root s_fresh <> RFile /\
  (h_clone_rc host_clone_killed traefik < 0)%Z /\
  _prepare_repo host_clone_killed traefik "ingress" 2 s_fresh =
    (Err (FileNotFoundError (charm_path_of traefik)),
     mkState (st_cwd s_fresh) RAbsent [] [] [EClone traefik; EVenv (charm_path_of traefik)]) /\
  (exists e s', _prepare_repo host_clone_killed traefik "ingress" 2 s_fresh = (Err e, s') /\
     (forall m, e <> SetupError m) /\ In (EVenv (charm_path_of traefik)) (st_log s')).
Proof.
  assert (H1 : charm_path_of traefik = ws_root ++ [name traefik]) by reflexivity.
  assert (H2 : ws_entry s_fresh (charm_path_of traefik) = None) by reflexivity.
  assert (H3 : st_root s_fresh <> RFile) by discriminate.
  assert (H4 : (h_clone_rc host_clone_killed traefik < 0)%Z) by reflexivity.
  split; [exact H1|]. split; [exact H2|]. split; [exact H3|]. split; [exact H4|].
  split; [vm_compute; reflexivity|].
  exact (proj2 (prepare_repo_clone_status host_clone_killed traefik "ingress" 2 s_fresh H1 H2 H3) H4).
Defined.

Lemma fold_m_app {A B} (f : B -> A -> M B) l1 l2 acc s :
  fold_m f (l1 ++ l2) acc s = bind (fold_m f l1 acc) (fold_m f l2) s.
Proof.
  revert acc s. induction l1 as [|x l1 IH]; intros acc s; simpl.
  - reflexivity.
  - rewrite bind_assoc_s. unfold bind. destruct (f acc x s) as [[a|e] s1]; [|reflexivity].
    specialize (IH a s1). unfold bind in IH. exact IH.
Qed.

Lemma test_interface_version_value_error h tpv iface s :
  forall vpre v tpr vrest acc s1,
  tpv = vpre ++ (v, tpr) :: vrest ->
  python_int (drop_first v) = None ->
  fold_m (test_version_step h iface) vpre [] s = (Ok acc, s1) ->
  _test_interface_version h tpv iface s = (Err (ValueError (drop_first v)), s1).
Proof.
  intros vpre v tpr vrest acc s1 -> Hv Hpre. unfold _test_interface_version.
  rewrite fold_m_app. rewrite (bind_ok _ _ _ _ _ Hpre). simpl.
  unfold bind. simpl. rewrite Hv. reflexivity.
Qed.

Lemma only_writes_refl s : only_writes s s.
Proof. split; [|split]; [reflexivity|reflexivity|]. exists []. rewrite app_nil_r. auto. Qed.

Lemma only_writes_trans s1 s2 s3 : only_writes s1 s2 -> only_writes s2 s3 -> only_writes s1 s3.
Proof.
  intros [W1 [R1 [l1 [L1 F1]]]] [W2 [R2 [l2 [L2 F2]]]].
  split; [congruence|]. split; [congruence|]. exists (l1 ++ l2).
  rewrite L2, L1, app_assoc. split; [reflexivity|]. rewrite forallb_app, F1, F2. reflexivity.
Qed.

Lemma count_clones_app l1 l2 : count_clones (l1 ++ l2) = count_clones l1 + count_clones l2.
Proof. unfold count_clones. rewrite filter_app, length_app. reflexivity. Qed.

Lemma count_builds_app l1 l2 : count_builds (l1 ++ l2) = count_builds l1 + count_builds l2.
Proof. unfold count_builds. rewrite filter_app, length_app. reflexivity. Qed.

Lemma no_provisioning_refl p s : no_provisioning p s s.
Proof. split; [auto|]. exists []. rewrite app_nil_r. auto. Qed.

Lemma no_provisioning_trans p s1 s2 s3 :
  no_provisioning p s1 s2 -> no_provisioning p s2 s3 -> no_provisioning p s1 s3.
Proof.
  intros [E1 [l1 [L1 [C1 B1]]]] [E2 [l2 [L2 [C2 B2]]]].
  split; [auto|]. exists (l1 ++ l2). rewrite L2, L1, app_assoc.
  rewrite count_clones_app, count_builds_app. split; [reflexivity|lia].
Qed.

Lemma writes_no_provisioning l : forallb is_write l = true -> count_clones l = 0 /\ count_builds l = 0.
Proof.
  induction l as [|e l IH]; simpl; [auto|]. intros H. apply andb_prop in H as [H1 H2].
  destruct e; try discriminate. exact (IH H2).
Qed.

Lemma only_writes_no_provisioning p s s' : only_writes s s' -> no_provisioning p s s'.
Proof.
  intros [W [R [l [L F]]]]. split.
  - unfold ws_entry. rewrite W, R. auto.
  - exists l. split; [exact L|]. apply writes_no_provisioning, F.
Qed.

Ltac pres_steps Rr Rt :=
  repeat first
    [ apply (preserves_bind _ Rt); [|intros ?]
    | apply (preserves_try _ Rt); [|intros ? ? ?]
    | apply (preserves_ret _ Rr)
    | apply (preserves_raise _ Rr)
    | match goal with |- preserves _ (if ?b then _ else _) => destruct b end ].

Lemma path_is_file_only_writes h p : preserves only_writes (path_is_file h p).
Proof. intros s r s' H. inversion H. apply only_writes_refl. Qed.

(** On an existing clone, everything [_prepare_repo] does after the
    existence check only writes the test file. *)
Lemma prepare_repo_existing h cfg iface ver s cd r s' :
  ws_entry s (charm_path_of cfg) = Some cd ->
  _prepare_repo h cfg iface ver s = (r, s') -> only_writes s s'.
Proof.
  intros Hent H. unfold _prepare_repo in H.
  rewrite (bind_ok _ _ s true s) in H by (unfold path_exists; rewrite Hent; reflexivity).
  cbn [negb] in H. rewrite (bind_ok _ _ s tt s) in H by reflexivity.
  match type of H with ?m _ = _ => assert (Hp : preserves only_writes m) end.
  { pres_steps only_writes_refl only_writes_trans.
    - lazymatch goal with Hk : _ = Some ?k |- preserves _ ?k =>
        destruct e; try discriminate Hk; inversion Hk end.
      apply (preserves_raise _ only_writes_refl).
    - apply path_is_file_only_writes.
    - intros s0 r0 s0' E. inversion E. split; [reflexivity|]. split; [reflexivity|].
      eexists. split; reflexivity. }
  exact (Hp _ _ _ H).
Qed.

Lemma dict_set_keeps {V} (d : dict string V) k v m :
  dict_get m d <> None -> dict_get m (dict_set k v d) <> None.
Proof. rewrite dict_get_set. destruct (String.eqb m k); [discriminate|auto]. Qed.

Lemma no_provisioning_prims h p :
  (forall k, preserves (no_provisioning p) (venv_check_call h k)) /\
  preserves (no_provisioning p) (os_getcwd) /\
  (forall q, preserves (no_provisioning p) (os_chdir q)) /\
  (forall q, preserves (no_provisioning p) (path_is_file h q)) /\
  (forall q c, preserves (no_provisioning p) (write_file q c)).
Proof.
  assert (Hsame : forall s s', st_root s' = st_root s -> st_ws s' = st_ws s ->
                    (exists l, st_log s' = st_log s ++ l /\ forallb is_write l = true) ->
                    no_provisioning p s s').
  { intros s s' R W L. apply only_writes_no_provisioning. split; [exact W|]. split; [exact R|exact L]. }
  split; [|split; [|split; [|split]]].
  - intros k s r s' H. unfold venv_check_call in H.
    destruct (strip_prefix ws_root (st_cwd s)) as [[|n [|x l]]|];
      try (inversion H; subst; apply no_provisioning_refl).
    destruct (ws_entry s (st_cwd s)) as [cd|]; [|inversion H; subst; apply no_provisioning_refl].
    destruct (h_venv_rc h cd k =? 0)%Z; inversion H; subst; [|apply no_provisioning_refl].
    split.
    + unfold ws_entry. cbn [st_root st_ws]. destruct (strip_prefix ws_root p) as [[|m [|y l']]|]; auto.
      destruct (RootKind_eqb (st_root s) RDir); auto. apply dict_set_keeps.
    + exists []. rewrite app_nil_r. auto.
  - intros s r s' H. apply os_getcwd_inv in H as [-> _]. apply no_provisioning_refl.
  - intros q s r s' H. apply os_chdir_inv in H as [[_ [-> _]]|[_ ->]]; [|apply no_provisioning_refl].
    apply Hsame; auto. exists []. rewrite app_nil_r. auto.
  - intros q s r s' H. inversion H. apply no_provisioning_refl.
  - intros q c s r s' H. inversion H; subst. apply Hsame; auto. eexists. split; reflexivity.
Qed.

Lemma git_clone_call_zero h cfg cp n s :
  RootKind_eqb (st_root s) RFile = false -> h_clone_rc h cfg = 0%Z ->
  strip_prefix ws_root cp = Some [n] ->
  git_clone_call h cfg cp s =
  (Ok 0%Z, mkState (st_cwd s) RDir (dict_set n (mkCharmDir cfg (h_repo_files h cfg) 0) (st_ws s))
             (st_written s) (st_log s ++ [EClone cfg])).
Proof. intros H1 H2 H3. unfold git_clone_call. rewrite H1, H2, H3. reflexivity. Qed.

(** ** C3: provisioning reuses an existing clone *)




Lemma no_reset_refl s : no_reset s s.
Proof. exists []. rewrite app_nil_r. auto. Qed.

Lemma no_reset_trans s1 s2 s3 : no_reset s1 s2 -> no_reset s2 s3 -> no_reset s1 s3.
Proof.
  intros [l1 [L1 F1]] [l2 [L2 F2]]. exists (l1 ++ l2).
  rewrite L2, L1, app_assoc, forallb_app, F1, F2. auto.
Qed.

Lemma no_reset_step s s' l :
  st_log s' = st_log s ++ l -> forallb (fun e => negb (is_clean e)) l = true -> no_reset s s'.
Proof. intros L F. exists l. auto. Qed.

Create HintDb no_reset_db.

Lemma no_reset_log_event e : is_clean e = false -> preserves no_reset (log_event e).
Proof. intros He s r s' H. inversion H. apply (no_reset_step _ _ [e]); simpl; [reflexivity|]. rewrite He. reflexivity. Qed.

Lemma no_reset_git_clone_call h cfg cp : preserves no_reset (git_clone_call h cfg cp).
Proof.
  intros s r s' H. unfold git_clone_call in H.
  destruct (_ =? 0)%Z; [destruct (strip_prefix ws_root cp) as [[|n [|x l]]|]|];
    inversion H; apply (no_reset_step _ _ [EClone cfg]); reflexivity.
Qed.

Lemma no_reset_venv_check_call h k : preserves no_reset (venv_check_call h k).
Proof.
  intros s r s' H. unfold venv_check_call in H.
  destruct (strip_prefix ws_root (st_cwd s)) as [[|n [|x l]]|];
    try (inversion H; apply no_reset_refl).
  destruct (ws_entry s (st_cwd s)); [|inversion H; apply no_reset_refl].
  destruct (_ =? 0)%Z; inversion H; [|apply no_reset_refl].
  apply (no_reset_step _ _ []); [simpl; rewrite app_nil_r|]; reflexivity.
Qed.

Lemma no_reset_pytest_check_call h tp : preserves no_reset (pytest_check_call h tp).
Proof.
  intros s r s' H. unfold pytest_check_call in H.
  destruct (_ =? 0)%Z; inversion H; apply (no_reset_step _ _ [EPytest tp]); reflexivity.
Qed.

Lemma no_reset_os_getcwd : preserves no_reset os_getcwd.
Proof. intros s r s' H. apply os_getcwd_inv in H as [-> _]. apply no_reset_refl. Qed.

Lemma no_reset_os_chdir p : preserves no_reset (os_chdir p).
Proof.
  intros s r s' H. apply os_chdir_inv in H as [[_ [-> _]]|[_ ->]]; [|apply no_reset_refl].
  apply (no_reset_step _ _ []); [simpl; rewrite app_nil_r|]; reflexivity.
Qed.

Lemma no_reset_path_exists p : preserves no_reset (path_exists p).
Proof. intros s r s' H. inversion H. apply no_reset_refl. Qed.

Lemma no_reset_path_is_file h p : preserves no_reset (path_is_file h p).
Proof. intros s r s' H. inversion H. apply no_reset_refl. Qed.

Lemma no_reset_write_file p c : preserves no_reset (write_file p c).
Proof. intros s r s' H. inversion H. apply (no_reset_step _ _ [EWriteTest p c]); reflexivity. Qed.

#[local] Hint Resolve no_reset_git_clone_call no_reset_venv_check_call no_reset_pytest_check_call
  no_reset_os_getcwd no_reset_os_chdir no_reset_path_exists no_reset_path_is_file
  no_reset_write_file : no_reset_db.
#[local] Hint Extern 1 (preserves no_reset (log_event _)) =>
  apply no_reset_log_event; reflexivity : no_reset_db.

Ltac pres_run Rr Rt :=
  repeat first
    [ apply (preserves_bind _ Rt); [|intros ?]
    | apply (preserves_try _ Rt); [|intros ? ? ?]
    | apply (preserves_ret _ Rr)
    | apply (preserves_raise _ Rr)
    | match goal with
      | Hk : (match ?x with _ => _ end) = Some ?k |- preserves _ ?k =>
          destruct x; try discriminate Hk; inversion Hk; subst; clear Hk
      | |- preserves _ (if ?b then _ else _) => destruct b
      | |- preserves _ (match ?x with _ => _ end) => destruct x
      end ].

Lemma no_reset_setup_venv h p : preserves no_reset (_setup_venv h p).
Proof.
  unfold _setup_venv. pres_run no_reset_refl no_reset_trans; auto with no_reset_db.
Qed.

Lemma no_reset_prepare_repo h cfg iface ver : preserves no_reset (_prepare_repo h cfg iface ver).
Proof.
  unfold _prepare_repo, _clone_charm_repo, _generate_test.
  pres_run no_reset_refl no_reset_trans; auto using no_reset_setup_venv with no_reset_db.
Qed.

Lemma no_reset_test_charm h cfg iface ver role : preserves no_reset (_test_charm h cfg iface ver role).
Proof.
  unfold _test_charm, _run_test_with_pytest.
  pres_run no_reset_refl no_reset_trans; auto using no_reset_prepare_repo with no_reset_db.
Qed.

Lemma no_reset_test_charms_loop h cfgs iface ver role out :
  preserves no_reset (test_charms_loop h cfgs iface ver role out).
Proof.
  revert out. induction cfgs as [|cfg cfgs IH]; intros out; simpl.
  - apply (preserves_ret _ no_reset_refl).
  - apply (preserves_bind _ no_reset_trans); [apply no_reset_test_charm|intros; apply IH].
Qed.

Lemma no_reset_traversal h coll acc : preserves no_reset (fold_m (test_interface_step h) coll acc).
Proof.
  apply (preserves_fold _ no_reset_refl no_reset_trans). intros b [iface tpv].
  unfold test_interface_step, _test_interface_version.
  apply (preserves_bind _ no_reset_trans); [|intros; apply (preserves_ret _ no_reset_refl)].
  apply (preserves_fold _ no_reset_refl no_reset_trans). intros b' [v tpr].
  unfold test_version_step. destruct (python_int (drop_first v)); [|apply (preserves_raise _ no_reset_refl)].
  apply (preserves_bind _ no_reset_trans); [|intros; apply (preserves_ret _ no_reset_refl)].
  unfold _test_roles. apply (preserves_fold _ no_reset_refl no_reset_trans). intros b'' role.
  unfold test_role_step, _test_charms.
  pres_run no_reset_refl no_reset_trans; auto using no_reset_test_charms_loop.
Qed.

Lemma clean_run h s :
  _clean h s =
  if RootKind_eqb (st_root s) RDir
  then match h_rmtree h (st_ws s) (filter (fun pc => negb (outside_ws pc)) (st_written s)) with
       | None =>
           (Ok tt, mkState (st_cwd s) RAbsent [] (filter outside_ws (st_written s))
                     (st_log s ++ [EClean; ERmtree]))
       | Some (p, ws', w') =>
           (Err (OSError p), mkState (st_cwd s) RDir ws' (w' ++ filter outside_ws (st_written s))
                               (st_log s ++ [EClean; ERmtree]))
       end
  else (Ok tt, mkState (st_cwd s) (st_root s) (st_ws s) (st_written s) (st_log s ++ [EClean])).
Proof.
  unfold _clean. rewrite (bind_ok _ _ _ _ _ (log_event_run _ _)). cbn [st_root st_log st_cwd st_ws st_written].
  destruct (RootKind_eqb (st_root s) RDir); [|reflexivity].
  destruct (h_rmtree h _ _) as [[[p ws'] w']|]; rewrite <- app_assoc; reflexivity.
Qed.

(** [_clean] logs its entry, then at most the [rmtree]. *)
Lemma clean_log h s r s1 :
  _clean h s = (r, s1) ->
  exists l, st_log s1 = st_log s ++ EClean :: l /\ ~ In EClean l.
Proof.
  rewrite clean_run. intros H.
  destruct (RootKind_eqb (st_root s) RDir).
  - destruct (h_rmtree h _ _) as [[[p ws'] w']|]; injection H as _ <-;
      exists [ERmtree]; (split; [reflexivity|intros [E|[]]; discriminate]).
  - injection H as _ <-. exists []. split; [reflexivity|intros []].
Qed.


(** ** C7: the workspace reset *)

(** C7 (amended).  [run_interface_tests] invokes [_clean] exactly once,
    before anything else is logged (no clone, venv build, test file or
    test run precedes it).  When the workspace root is a directory,
    [_clean] deletes it with [shutil.rmtree]; when [rmtree] fails (an
    [OSError] such as [PermissionError]) the error is not caught and the
    run ends right there, the root still a directory, with nothing
    provisioned or tested.  When the root is absent or a regular file,
    [_clean] changes nothing and raises nothing.  A call right after a call
    that returned changes nothing. *)
Theorem clean_once_first h path include :
  (forall s r s', run_interface_tests h path include s = (r, s') ->
     exists l, st_log s' = st_log s ++ EClean :: l /\ ~ In EClean l) /\
  (forall s, st_root s = RDir ->
     h_rmtree h (st_ws s) (filter (fun pc => negb (outside_ws pc)) (st_written s)) = None ->
     exists w, _clean h s = (Ok tt, mkState (st_cwd s) RAbsent [] w (st_log s ++ [EClean; ERmtree]))) /\
  (forall s p ws' w', st_root s = RDir ->
     h_rmtree h (st_ws s) (filter (fun pc => negb (outside_ws pc)) (st_written s)) = Some (p, ws', w') ->
     exists s', run_interface_tests h path include s = (Err (OSError p), s') /\
                st_root s' = RDir /\ st_log s' = st_log s ++ [EClean; ERmtree]) /\
  (forall s, st_root s <> RDir ->
     _clean h s = (Ok tt, mkState (st_cwd s) (st_root s) (st_ws s) (st_written s) (st_log s ++ [EClean]))) /\
  (forall s s1, _clean h s = (Ok tt, s1) ->
     _clean h s1 = (Ok tt, mkState (st_cwd s1) (st_root s1) (st_ws s1) (st_written s1) (st_log s1 ++ [EClean]))).
Proof.
  split; [|split; [|split; [|split]]].
  - intros s r s' H. unfold run_interface_tests, bind in H.
    destruct (_clean h s) as [[u|e] s0] eqn:Ec.
    + destruct (clean_log h s _ _ Ec) as [l0 [L0 N0]].
      destruct (no_reset_traversal h (h_collect h path include) [] _ _ _ H) as [l [L F]].
      exists (l0 ++ l). rewrite L, L0, <- app_assoc. split; [reflexivity|].
      intros Hin. apply in_app_or in Hin as [Hin|Hin]; [exact (N0 Hin)|].
      rewrite forallb_forall in F. specialize (F _ Hin). discriminate.
    + injection H as _ <-. exact (clean_log h s _ _ Ec).
  - intros s Hr Hn. rewrite clean_run, Hr. cbn [RootKind_eqb]. rewrite <- Hr, Hn. eexists. reflexivity.
  - intros s p ws' w' Hr Hn. unfold run_interface_tests, bind. rewrite clean_run, Hr. cbn [RootKind_eqb].
    rewrite <- Hr, Hn. eexists. split; [reflexivity|]. split; reflexivity.
  - intros s Hr. rewrite clean_run. destruct (st_root s); try reflexivity. congruence.
  - intros s s1 H. rewrite clean_run in H.
    destruct (RootKind_eqb (st_root s) RDir) eqn:E.
    + destruct (h_rmtree h _ _) as [[[p ws'] w']|]; [discriminate|].
      injection H as <-. rewrite clean_run. reflexivity.
    + injection H as <-. rewrite clean_run. cbn [st_root]. rewrite E. reflexivity.
Qed.

Lemma clean_once_first_witness :
  (exists l, st_log (snd (run_interface_tests (host_with_registry registry_one) "." "*" s_cloned))
             = st_log s_cloned ++ EClean :: l /\ ~ In EClean l) /\
  st_root s_cloned = RDir /\
  h_rmtree (host_with_registry registry_one) (st_ws s_cloned)
    (filter (fun pc => negb (outside_ws pc)) (st_written s_cloned)) = None /\
  (exists w, _clean (host_with_registry registry_one) s_cloned =
               (Ok tt, mkState (st_cwd s_cloned) RAbsent [] w (st_log s_cloned ++ [EClean; ERmtree]))) /\
  h_rmtree host_rmtree_fails (st_ws s_cloned)
    (filter (fun pc => negb (outside_ws pc)) (st_written s_cloned)) =
    Some (traefik_path, st_ws s_cloned, []) /\
  (exists s', run_interface_tests host_rmtree_fails "." "*" s_cloned = (Err (OSError traefik_path), s') /\
              st_root s' = RDir /\ st_log s' = st_log s_cloned ++ [EClean; ERmtree]) /\
  st_root s_fresh <> RDir /\
  _clean (host_with_registry registry_one) s_fresh =
    (Ok tt, mkState (st_cwd s_fresh) (st_root s_fresh) (st_ws s_fresh) (st_written s_fresh) (st_log s_fresh ++ [EClean])) /\
  _clean (host_with_registry registry_one) (snd (_clean (host_with_registry registry_one) s_cloned)) =
    (Ok tt, mkState (st_cwd (snd (_clean (host_with_registry registry_one) s_cloned)))
              (st_root (snd (_clean (host_with_registry registry_one) s_cloned)))
              (st_ws (snd (_clean (host_with_registry registry_one) s_cloned)))
              (st_written (snd (_clean (host_with_registry registry_one) s_cloned)))
              (st_log (snd (_clean (host_with_registry registry_one) s_cloned)) ++ [EClean])).
Proof.
  destruct (clean_once_first (host_with_registry registry_one) "." "*") as [P1 [P2 [_ [P4 P5]]]].
  destruct (clean_once_first host_rmtree_fails "." "*") as [_ [_ [Q3 _]]].
  assert (H1 : st_root s_cloned = RDir) by reflexivity.
  assert (H2 : st_root s_fresh <> RDir) by discriminate.
  assert (H3 : _clean (host_with_registry registry_one) s_cloned =
                 (Ok tt, snd (_clean (host_with_registry registry_one) s_cloned))) by reflexivity.
  assert (H4 : h_rmtree (host_with_registry registry_one) (st_ws s_cloned)
                 (filter (fun pc => negb (outside_ws pc)) (st_written s_cloned)) = None) by reflexivity.
  assert (H5 : h_rmtree host_rmtree_fails (st_ws s_cloned)
                 (filter (fun pc => negb (outside_ws pc)) (st_written s_cloned)) =
               Some (traefik_path, st_ws s_cloned, [])) by reflexivity.
  split; [exact (P1 s_cloned _ _ (surjective_pairing _))|].
  split; [exact H1|]. split; [exact H4|]. split; [exact (P2 s_cloned H1 H4)|].
  split; [exact H5|]. split; [exact (Q3 s_cloned _ _ _ H1 H5)|].
  split; [exact H2|]. split; [exact (P4 s_fresh H2)|].
  exact (P5 s_cloned _ H3).
Defined.

(** Against C7 as stated: a workspace root that exists as a regular file
    is not deleted, and a root directory that [rmtree] fails to delete
    stays, the run ending with the [OSError]. *)
Lemma clean_root_file_counterexample :
  st_root s_root_file <> RAbsent /\
  _clean host_ok s_root_file = (Ok tt, mkState (st_cwd s_root_file) RFile [] [] [EClean]) /\
  st_root (snd (_clean host_ok s_root_file)) = RFile /\
  st_root s_cloned <> RAbsent /\
  fst (run_interface_tests host_rmtree_fails "." "*" s_cloned) = Err (OSError traefik_path) /\
  st_root (snd (run_interface_tests host_rmtree_fails "." "*" s_cloned)) = RDir /\
  st_ws (snd (run_interface_tests host_rmtree_fails "." "*" s_cloned)) = st_ws s_cloned.
Proof. split; [discriminate|]. split; [reflexivity|]. split; [reflexivity|]. split; [discriminate|]. split; [reflexivity|]. split; reflexivity. Qed.

(** ** C2: failure isolation *)

(** *** Agreement of two runs *)

Lemma agree_refl a s : agree a s s.
Proof. split; [reflexivity|split; reflexivity]. Qed.

Lemma agree_sym a s1 s2 : agree a s1 s2 -> agree a s2 s1.
Proof.
  intros [R [W F]]. split; [auto|split]; intros; symmetry; auto.
Qed.

Lemma agree_trans a s1 s2 s3 : agree a s1 s2 -> agree a s2 s3 -> agree a s1 s3.
Proof.
  intros [R1 [W1 F1]] [R2 [W2 F2]]. split; [congruence|split].
  - intros n Hn. rewrite (W1 n Hn). exact (W2 n Hn).
  - intros p Hp. rewrite (F1 p Hp). exact (F2 p Hp).
Qed.

Lemma states_agree_sym a s1 s2 : states_agree a s1 s2 -> states_agree a s2 s1.
Proof. intros [A [V1 [V2 [W1 W2]]]]. split; [apply agree_sym; exact A|tauto]. Qed.

Lemma inv_kept_refl s : inv_kept s s.
Proof. split; [intros p H; exact H|tauto]. Qed.

Lemma inv_kept_trans s1 s2 s3 : inv_kept s1 s2 -> inv_kept s2 s3 -> inv_kept s1 s3.
Proof. intros [D1 [V1 W1]] [D2 [V2 W2]]. split; [intros p H; auto|tauto]. Qed.

Lemma side_step_refl a s : side_step a s s.
Proof. split; [apply agree_refl|apply inv_kept_refl]. Qed.

Lemma side_step_trans a s1 s2 s3 : side_step a s1 s2 -> side_step a s2 s3 -> side_step a s1 s3.
Proof.
  intros [A1 K1] [A2 K2]. split; [eapply agree_trans; eauto|eapply inv_kept_trans; eauto].
Qed.

Lemma states_agree_side a s1 s2 s1' :
  states_agree a s1 s2 -> side_step a s1 s1' -> states_agree a s1' s2.
Proof.
  intros [A [V1 [V2 [W1 W2]]]] [A' [_ [V' W']]].
  split; [|tauto]. eapply agree_trans; [apply agree_sym; exact A'|exact A].
Qed.

Lemma ws_entry_wf s n : ws_wf s -> ws_entry s (ws_root ++ [n]) = dict_get n (st_ws s).
Proof.
  intros W. unfold ws_entry. rewrite strip_prefix_app.
  destruct (RootKind_eqb (st_root s) RDir) eqn:E; [reflexivity|]. rewrite (W E). reflexivity.
Qed.

Lemma dir_exists_wf s n rest :
  ws_wf s -> dir_exists s (ws_root ++ n :: rest) =
             match dict_get n (st_ws s) with Some _ => true | None => false end.
Proof.
  intros W. unfold dir_exists. rewrite strip_prefix_app.
  destruct (RootKind_eqb (st_root s) RDir) eqn:E; [reflexivity|]. rewrite (W E). reflexivity.
Qed.

Lemma path_owner_app n rest : path_owner (ws_root ++ n :: rest) = Some n.
Proof. unfold path_owner. rewrite strip_prefix_app. reflexivity. Qed.

(** *** Relational combinators *)

Section Relational.

Variable S : State -> State -> Prop.

Lemma rrun_ret {A B} (R : A -> B -> Prop) x y : R x y -> rrun S R (ret x) (ret y).
Proof. intros H s1 s2 HS. simpl. auto. Qed.

Lemma rrun_raise {A B} (R : A -> B -> Prop) e : rrun S R (raise e) (raise e).
Proof. intros s1 s2 HS. simpl. auto. Qed.

Lemma rrun_bind {A1 A2 B1 B2} (RA : A1 -> A2 -> Prop) (RB : B1 -> B2 -> Prop) m1 m2 k1 k2 :
  rrun S RA m1 m2 -> (forall x y, RA x y -> rrun S RB (k1 x) (k2 y)) ->
  rrun S RB (bind m1 k1) (bind m2 k2).
Proof.
  intros Hm Hk s1 s2 HS. unfold bind. specialize (Hm s1 s2 HS).
  destruct (m1 s1) as [r1 t1], (m2 s2) as [r2 t2]. simpl in Hm. destruct Hm as [Hr Ht].
  destruct r1, r2; simpl in Hr; try contradiction.
  - apply Hk; auto.
  - subst. simpl. auto.
Qed.

Lemma rrun_try {A B} (R : A -> B -> Prop) m1 m2 hdl1 hdl2 :
  rrun S R m1 m2 ->
  (forall e, opt_rel (rrun S R) (hdl1 e) (hdl2 e)) ->
  rrun S R (try_except m1 hdl1) (try_except m2 hdl2).
Proof.
  intros Hm Hh s1 s2 HS. unfold try_except. specialize (Hm s1 s2 HS).
  destruct (m1 s1) as [r1 t1], (m2 s2) as [r2 t2]. simpl in Hm. destruct Hm as [Hr Ht].
  destruct r1, r2; simpl in Hr; try contradiction.
  - simpl. auto.
  - subst. specialize (Hh e0). destruct (hdl1 e0), (hdl2 e0); simpl in Hh; try contradiction.
    + apply Hh. exact Ht.
    + simpl. auto.
Qed.

Lemma rrun_ext {A B} (R : A -> B -> Prop) m1 m2 m1' m2' :
  (forall s, m1 s = m1' s) -> (forall s, m2 s = m2' s) ->
  rrun S R m1' m2' -> rrun S R m1 m2.
Proof. intros E1 E2 H s1 s2 HS. rewrite E1, E2. apply H, HS. Qed.

Lemma rrun_left_skip {A1 B1 B2} (R : B1 -> B2 -> Prop) (m1 : M A1) k1 m2 :
  (forall s1 s2, S s1 s2 -> exists x t1, m1 s1 = (Ok x, t1) /\ S t1 s2) ->
  (forall x, rrun S R (k1 x) m2) -> rrun S R (bind m1 k1) m2.
Proof.
  intros Hm Hk s1 s2 HS. destruct (Hm s1 s2 HS) as [x [t1 [E Ht]]].
  unfold bind. rewrite E. apply Hk, Ht.
Qed.

Lemma rrun_right_skip {A2 B1 B2} (R : B1 -> B2 -> Prop) m1 (m2 : M A2) k2 :
  (forall s1 s2, S s1 s2 -> exists x t2, m2 s2 = (Ok x, t2) /\ S s1 t2) ->
  (forall x, rrun S R m1 (k2 x)) -> rrun S R m1 (bind m2 k2).
Proof.
  intros Hm Hk s1 s2 HS. destruct (Hm s1 s2 HS) as [x [t2 [E Ht]]].
  unfold bind. rewrite E. apply Hk, Ht.
Qed.

Lemma rrun_fold2 {A1 A2 B1 B2} (P : A1 -> A2 -> Prop) (R : B1 -> B2 -> Prop) f1 f2 l1 l2 :
  Forall2 P l1 l2 ->
  (forall x1 x2 b1 b2, P x1 x2 -> R b1 b2 -> rrun S R (f1 b1 x1) (f2 b2 x2)) ->
  forall acc1 acc2, R acc1 acc2 -> rrun S R (fold_m f1 l1 acc1) (fold_m f2 l2 acc2).
Proof.
  intros HF Hf. induction HF as [|x1 x2 l1 l2 Hx HF IH]; intros acc1 acc2 Hacc; simpl.
  - apply rrun_ret, Hacc.
  - apply (rrun_bind R); [apply Hf; auto|]. intros; apply IH; auto.
Qed.

End Relational.

Lemma Forall2_map_eq {A B} (g : A -> B) l1 l2 :
  map g l1 = map g l2 -> Forall2 (fun x y => g x = g y) l1 l2.
Proof.
  revert l2. induction l1 as [|x l1 IH]; intros [|y l2] H; simpl in H; try discriminate.
  - constructor.
  - inversion H. constructor; auto.
Qed.

(** *** Invariants of the traversal *)

Lemma inv_kept_same s s' :
  st_cwd s' = st_cwd s -> st_root s' = st_root s -> st_ws s' = st_ws s -> inv_kept s s'.
Proof.
  intros C R W.
  assert (D : forall p, dir_exists s' p = dir_exists s p) by (intros p; unfold dir_exists; rewrite R, W; reflexivity).
  split; [intros p H; rewrite D; exact H|]. split.
  - unfold cwd_valid. rewrite C, D. auto.
  - unfold ws_wf. rewrite R, W. auto.
Qed.

Lemma dirs_kept_set s n v :
  dirs_kept s (mkState (st_cwd s) RDir (dict_set n v (st_ws s)) (st_written s) (st_log s)).
Proof.
  intros p H. unfold dir_exists in *. cbn [st_root st_ws].
  destruct (strip_prefix ws_root p) as [[|m l]|]; auto.
  apply andb_prop in H as [_ H]. simpl.
  destruct (dict_get m (st_ws s)) eqn:E; [|discriminate].
  assert (E' : dict_get m (dict_set n v (st_ws s)) <> None) by (apply dict_set_keeps; congruence).
  destruct (dict_get m (dict_set n v (st_ws s))); [reflexivity|congruence].
Qed.

Lemma inv_kept_set s n v l :
  inv_kept s (mkState (st_cwd s) RDir (dict_set n v (st_ws s)) (st_written s) l).
Proof.
  assert (D : dirs_kept s (mkState (st_cwd s) RDir (dict_set n v (st_ws s)) (st_written s) l)).
  { intros p H. exact (dirs_kept_set s n v p H). }
  split; [exact D|]. split.
  - intros V. exact (D _ V).
  - intros _ E. discriminate.
Qed.

Create HintDb inv_db.

Lemma inv_log_event e : preserves inv_kept (log_event e).
Proof. intros s r s' H. inversion H. apply inv_kept_same; reflexivity. Qed.

Lemma inv_git_clone_call h cfg cp : preserves inv_kept (git_clone_call h cfg cp).
Proof.
  intros s r s' H. unfold git_clone_call in H.
  destruct (_ =? 0)%Z; [destruct (strip_prefix ws_root cp) as [[|n [|x l]]|]|];
    inversion H; subst; try (apply inv_kept_same; reflexivity).
  apply inv_kept_set.
Qed.

Lemma inv_venv_check_call h k : preserves inv_kept (venv_check_call h k).
Proof.
  intros s r s' H. unfold venv_check_call in H.
  destruct (strip_prefix ws_root (st_cwd s)) as [[|n [|x l]]|] eqn:Ec;
    try (inversion H; apply inv_kept_refl).
  destruct (ws_entry s (st_cwd s)) as [cd|] eqn:Ee; [|inversion H; apply inv_kept_refl].
  destruct (_ =? 0)%Z; inversion H; subst; [|apply inv_kept_refl].
  assert (Hr : RootKind_eqb (st_root s) RDir = true).
  { unfold ws_entry in Ee. rewrite Ec in Ee. destruct (RootKind_eqb (st_root s) RDir); [reflexivity|discriminate]. }
  destruct (st_root s) eqn:Er; try discriminate. apply inv_kept_set.
Qed.

Lemma inv_pytest_check_call h tp : preserves inv_kept (pytest_check_call h tp).
Proof.
  intros s r s' H. unfold pytest_check_call in H.
  destruct (_ =? 0)%Z; inversion H; apply inv_kept_same; reflexivity.
Qed.

Lemma inv_os_getcwd : preserves inv_kept os_getcwd.
Proof. intros s r s' H. apply os_getcwd_inv in H as [-> _]. apply inv_kept_refl. Qed.

Lemma inv_os_chdir p : preserves inv_kept (os_chdir p).
Proof.
  intros s r s' H. apply os_chdir_inv in H as [[_ [-> D]]|[_ ->]]; [|apply inv_kept_refl].
  assert (E : forall q, dir_exists (mkState p (st_root s) (st_ws s) (st_written s) (st_log s)) q = dir_exists s q)
    by reflexivity.
  split; [intros q Hq; rewrite E; exact Hq|]. split.
  - intros _. unfold cwd_valid. rewrite E. exact D.
  - unfold ws_wf. auto.
Qed.

Lemma inv_path_exists p : preserves inv_kept (path_exists p).
Proof. intros s r s' H. inversion H. apply inv_kept_refl. Qed.

Lemma inv_path_is_file h p : preserves inv_kept (path_is_file h p).
Proof. intros s r s' H. inversion H. apply inv_kept_refl. Qed.

Lemma inv_write_file p c : preserves inv_kept (write_file p c).
Proof. intros s r s' H. inversion H. apply inv_kept_same; reflexivity. Qed.

#[local] Hint Resolve inv_log_event inv_git_clone_call inv_venv_check_call inv_pytest_check_call
  inv_os_getcwd inv_os_chdir inv_path_exists inv_path_is_file inv_write_file : inv_db.

Lemma inv_prepare_repo h cfg iface ver : preserves inv_kept (_prepare_repo h cfg iface ver).
Proof.
  unfold _prepare_repo, _clone_charm_repo, _generate_test.
  pres_run inv_kept_refl inv_kept_trans; auto with inv_db.
Qed.

Lemma inv_test_charm h cfg iface ver role : preserves inv_kept (_test_charm h cfg iface ver role).
Proof.
  unfold _test_charm, _run_test_with_pytest.
  pres_run inv_kept_refl inv_kept_trans; auto using inv_prepare_repo with inv_db.
Qed.

(** *** The steps of another charm's unit, run from agreeing states *)

Lemma os_getcwd_valid s : cwd_valid s -> os_getcwd s = (Ok (st_cwd s), s).
Proof. unfold os_getcwd, cwd_valid. intros ->. reflexivity. Qed.

Lemma os_chdir_ok p s :
  dir_exists s p = true -> os_chdir p s = (Ok tt, mkState p (st_root s) (st_ws s) (st_written s) (st_log s)).
Proof. unfold os_chdir. intros ->. reflexivity. Qed.

Lemma os_chdir_err p s : dir_exists s p = false -> os_chdir p s = (Err (FileNotFoundError p), s).
Proof. unfold os_chdir. intros ->. reflexivity. Qed.

Lemma states_agree_step a s1 s2 s1' s2' :
  states_agree a s1 s2 -> inv_kept s1 s1' -> inv_kept s2 s2' -> agree a s1' s2' ->
  states_agree a s1' s2'.
Proof.
  intros [_ [V1 [V2 [W1 W2]]]] [_ [V1' W1']] [_ [V2' W2']] A. split; [exact A|]. auto.
Qed.

Lemma agree_same a s1 s2 s1' s2' :
  agree a s1 s2 ->
  st_root s1' = st_root s1 -> st_ws s1' = st_ws s1 -> st_written s1' = st_written s1 ->
  st_root s2' = st_root s2 -> st_ws s2' = st_ws s2 -> st_written s2' = st_written s2 ->
  agree a s1' s2'.
Proof. intros A R1 W1 F1 R2 W2 F2. unfold agree. rewrite R1, W1, F1, R2, W2, F2. exact A. Qed.

Lemma states_agree_log a s1 s2 l1 l2 :
  states_agree a s1 s2 ->
  states_agree a (mkState (st_cwd s1) (st_root s1) (st_ws s1) (st_written s1) l1)
                 (mkState (st_cwd s2) (st_root s2) (st_ws s2) (st_written s2) l2).
Proof.
  intros H. eapply states_agree_step; [exact H| | |].
  - apply inv_kept_same; reflexivity.
  - apply inv_kept_same; reflexivity.
  - destruct H as [A _]. eapply agree_same; [exact A|..]; reflexivity.
Qed.

Lemma is_file_wf_part s n (f : CharmDir -> bool) :
  ws_wf s ->
  (RootKind_eqb (st_root s) RDir && match dict_get n (st_ws s) with Some cd => f cd | None => false end)
  = match dict_get n (st_ws s) with Some cd => f cd | None => false end.
Proof.
  intros W. destruct (RootKind_eqb (st_root s) RDir) eqn:E; [reflexivity|]. rewrite (W E). reflexivity.
Qed.

Section OtherCharm.

Variable h : Host.
Variable a : string.

Lemma rrun_log_event e : rrun (states_agree a) eq (log_event e) (log_event e).
Proof. intros s1 s2 HS. split; [reflexivity|]. apply states_agree_log, HS. Qed.

Lemma rrun_path_exists b : b <> a ->
  rrun (states_agree a) eq (path_exists (ws_root ++ [b])) (path_exists (ws_root ++ [b])).
Proof.
  intros Hb s1 s2 HS. pose proof HS as [[R [W F]] [V1 [V2 [W1 W2]]]].
  unfold path_exists; cbn [fst snd]. rewrite (ws_entry_wf s1 b W1), (ws_entry_wf s2 b W2), (W b Hb).
  split; [reflexivity|exact HS].
Qed.

Lemma rrun_git_clone_call cfg b : b <> a ->
  rrun (states_agree a) eq (git_clone_call h cfg (ws_root ++ [b])) (git_clone_call h cfg (ws_root ++ [b])).
Proof.
  intros Hb s1 s2 HS. pose proof HS as [[R [W F]] _].
  pose proof (inv_git_clone_call h cfg (ws_root ++ [b]) s1) as K1.
  pose proof (inv_git_clone_call h cfg (ws_root ++ [b]) s2) as K2.
  destruct (git_clone_call h cfg (ws_root ++ [b]) s1) as [r1 t1] eqn:E1.
  destruct (git_clone_call h cfg (ws_root ++ [b]) s2) as [r2 t2] eqn:E2.
  specialize (K1 _ _ eq_refl). specialize (K2 _ _ eq_refl).
  unfold git_clone_call in E1, E2. rewrite <- R in E2.
  rewrite strip_prefix_app in E1, E2.
  destruct (_ =? 0)%Z; inversion E1; inversion E2; subst; simpl.
  - split; [reflexivity|]. eapply states_agree_step; [exact HS|exact K1|exact K2|].
    split; [reflexivity|]. split.
    + intros n Hn. cbn [st_ws]. rewrite !dict_get_set. destruct (String.eqb n b); auto.
    + exact F.
  - split; [reflexivity|]. eapply states_agree_step; [exact HS|exact K1|exact K2|].
    eapply agree_same; [exact (proj1 HS)|..]; reflexivity.
Qed.

Lemma rrun_path_is_file q : path_owner q <> Some a ->
  rrun (states_agree a) eq (path_is_file h q) (path_is_file h q).
Proof.
  intros Hq s1 s2 HS. pose proof HS as [[R [W F]] [V1 [V2 [W1 W2]]]].
  unfold path_is_file; cbn [fst snd]. split; [|exact HS]. cbn [res_rel].
  unfold is_file. rewrite (F q Hq).
  destruct (written_lookup q (st_written s2)); [reflexivity|].
  unfold path_owner in Hq. destruct (strip_prefix ws_root q) as [[|n rel]|]; try reflexivity.
  rewrite (is_file_wf_part s1 n _ W1), (is_file_wf_part s2 n _ W2).
  rewrite (W n); [reflexivity|]. intros ->. exact (Hq eq_refl).
Qed.

Lemma rrun_write_file q c : rrun (states_agree a) eq (write_file q c) (write_file q c).
Proof.
  intros s1 s2 HS. split; [reflexivity|]. simpl.
  eapply states_agree_step; [exact HS|apply inv_kept_same; reflexivity|apply inv_kept_same; reflexivity|].
  destruct HS as [[R [W F]] _]. split; [exact R|]. split; [exact W|].
  intros p Hp. simpl. rewrite (F p Hp). reflexivity.
Qed.

(** The working directory is [p] in both runs. *)
Definition in_dir_agree (p : APath) (s1 s2 : State) : Prop :=
  states_agree a s1 s2 /\ st_cwd s1 = p /\ st_cwd s2 = p.

Lemma rrun_venv_check_call b k : b <> a ->
  rrun (in_dir_agree (ws_root ++ [b])) eq (venv_check_call h k) (venv_check_call h k).
Proof.
  intros Hb s1 s2 [HS [C1 C2]]. pose proof HS as [[R [W F]] [V1 [V2 [W1 W2]]]].
  pose proof (inv_venv_check_call h k s1) as K1. pose proof (inv_venv_check_call h k s2) as K2.
  destruct (venv_check_call h k s1) as [r1 t1] eqn:E1.
  destruct (venv_check_call h k s2) as [r2 t2] eqn:E2.
  specialize (K1 _ _ eq_refl). specialize (K2 _ _ eq_refl).
  unfold venv_check_call in E1, E2. rewrite C1 in E1. rewrite C2 in E2.
  rewrite strip_prefix_app in E1, E2. rewrite (ws_entry_wf s1 b W1) in E1.
  rewrite (ws_entry_wf s2 b W2), <- (W b Hb) in E2.
  destruct (dict_get b (st_ws s1)) as [cd|].
  - destruct (h_venv_rc h cd k =? 0)%Z; inversion E1; inversion E2; subst; simpl.
    + split; [reflexivity|]. split; [|split; reflexivity].
      eapply states_agree_step; [exact HS|exact K1|exact K2|].
      split; [exact R|]. split; [|exact F].
      intros n Hn. cbn [st_ws]. rewrite !dict_get_set. destruct (String.eqb n b); auto.
    + split; [reflexivity|]. split; [exact HS|]. auto.
  - inversion E1; inversion E2; subst. simpl. split; [reflexivity|]. split; [exact HS|]. auto.
Qed.

Lemma rrun_pytest_check_call b tp : b <> a -> path_owner tp <> Some a ->
  rrun (in_dir_agree (ws_root ++ [b])) eq (pytest_check_call h tp) (pytest_check_call h tp).
Proof.
  intros Hb Htp s1 s2 [HS [C1 C2]]. pose proof HS as [[R [W F]] [V1 [V2 [W1 W2]]]].
  assert (HS' : in_dir_agree (ws_root ++ [b])
      (mkState (st_cwd s1) (st_root s1) (st_ws s1) (st_written s1) (st_log s1 ++ [EPytest tp]))
      (mkState (st_cwd s2) (st_root s2) (st_ws s2) (st_written s2) (st_log s2 ++ [EPytest tp]))).
  { split; [apply states_agree_log, HS|]. simpl. auto. }
  unfold pytest_check_call. rewrite C1, C2 in *. rewrite (ws_entry_wf s1 b W1), (ws_entry_wf s2 b W2), (W b Hb), (F tp Htp).
  destruct (_ =? 0)%Z; cbn [fst snd res_rel]; (split; [reflexivity|exact HS']).
Qed.

End OtherCharm.

Lemma rrun_bind_try_ret S {A B C} (R : B -> C -> Prop) (v : A) hdl (k : A -> M B) (k' : A -> M C) :
  rrun S R (k v) (k' v) ->
  rrun S R (bind (try_except (ret v) hdl) k) (bind (try_except (ret v) hdl) k').
Proof. intros H s1 s2 HS. exact (H s1 s2 HS). Qed.

Lemma fixture_shape cfg n :
  fixture_loc_ok cfg = true ->
  exists c cs, fs_path (_get_fixture cfg (ws_root ++ [n])) = ws_root ++ n :: c :: cs.
Proof.
  assert (Hd : Path_of FIXTURE_PATH = PRel ["tests"; "interface"; "conftest.py"]) by (vm_compute; reflexivity).
  unfold fixture_loc_ok, loc_override, _get_fixture.
  destruct (test_setup cfg) as [ts|]; cbn [fs_path].
  - destruct (location ts) as [l|]; cbn [truthy_str negb].
    + destruct (String.eqb l "") eqn:El; cbn [negb].
      * intros _. rewrite Hd. cbn [path_join]. exists "tests", ["interface"; "conftest.py"].
        rewrite <- app_assoc. reflexivity.
      * destruct (Path_of l) as [ps|[|c cs]]; try discriminate. intros _. cbn [path_join].
        exists c, cs. rewrite <- app_assoc. reflexivity.
    + intros _. rewrite Hd. cbn [path_join]. exists "tests", ["interface"; "conftest.py"].
      rewrite <- app_assoc. reflexivity.
  - intros _. rewrite Hd. cbn [path_join]. exists "tests", ["interface"; "conftest.py"].
    rewrite <- app_assoc. reflexivity.
Qed.

Lemma test_path_owner n c cs f : path_owner (parent (ws_root ++ n :: c :: cs) ++ [f]) = Some n.
Proof.
  unfold parent. rewrite removelast_app by discriminate.
  change (removelast (n :: c :: cs)) with (n :: removelast (c :: cs)).
  rewrite <- app_assoc. apply path_owner_app.
Qed.

Lemma rrun_in_dir a b (body : M unit) : b <> a ->
  rrun (in_dir_agree a (ws_root ++ [b])) eq body body ->
  preserves inv_kept body ->
  rrun (states_agree a) eq
    (wd <- os_getcwd ;; os_chdir (ws_root ++ [b]) ;;; body ;;; os_chdir wd)
    (wd <- os_getcwd ;; os_chdir (ws_root ++ [b]) ;;; body ;;; os_chdir wd).
Proof.
  intros Hb Hbody Hinv s1 s2 HS. pose proof HS as [[R [W F]] [V1 [V2 [W1 W2]]]].
  rewrite (bind_ok _ _ _ _ _ (os_getcwd_valid s1 V1)), (bind_ok _ _ _ _ _ (os_getcwd_valid s2 V2)).
  cbv beta.
  assert (D : dir_exists s1 (ws_root ++ [b]) = dir_exists s2 (ws_root ++ [b])).
  { rewrite (dir_exists_wf s1 b [] W1), (dir_exists_wf s2 b [] W2), (W b Hb). reflexivity. }
  destruct (dir_exists s1 (ws_root ++ [b])) eqn:D1.
  - symmetry in D.
    rewrite (bind_ok _ _ _ _ _ (os_chdir_ok _ s1 D1)), (bind_ok _ _ _ _ _ (os_chdir_ok _ s2 D)).
    pose proof (inv_os_chdir (ws_root ++ [b]) s1 _ _ (os_chdir_ok _ s1 D1)) as K1.
    pose proof (inv_os_chdir (ws_root ++ [b]) s2 _ _ (os_chdir_ok _ s2 D)) as K2.
    cbv beta.
    set (u1 := mkState (ws_root ++ [b]) (st_root s1) (st_ws s1) (st_written s1) (st_log s1)) in *.
    set (u2 := mkState (ws_root ++ [b]) (st_root s2) (st_ws s2) (st_written s2) (st_log s2)) in *.
    assert (HT : in_dir_agree a (ws_root ++ [b]) u1 u2).
    { split; [|split; reflexivity]. eapply states_agree_step; [exact HS|exact K1|exact K2|].
      eapply agree_same; [exact (proj1 HS)|..]; reflexivity. }
    specialize (Hbody u1 u2 HT).
    pose proof (Hinv u1) as L1. pose proof (Hinv u2) as L2.
    destruct (body u1) as [r1 t1] eqn:B1, (body u2) as [r2 t2] eqn:B2.
    specialize (L1 _ _ eq_refl). specialize (L2 _ _ eq_refl).
    cbn [fst snd] in Hbody. destruct Hbody as [Hr [Ht _]].
    destruct r1 as [[]|e1], r2 as [[]|e2]; cbn [res_rel] in Hr; try contradiction.
    + rewrite (bind_ok _ _ _ _ _ B1), (bind_ok _ _ _ _ _ B2).
      assert (E1 : dir_exists t1 (st_cwd s1) = true)
        by (apply (proj1 (inv_kept_trans _ _ _ (inv_kept_trans _ _ _ K1 L1) (inv_kept_refl _))); exact V1).
      assert (E2 : dir_exists t2 (st_cwd s2) = true)
        by (apply (proj1 (inv_kept_trans _ _ _ (inv_kept_trans _ _ _ K2 L2) (inv_kept_refl _))); exact V2).
      rewrite (os_chdir_ok _ _ E1), (os_chdir_ok _ _ E2). cbn [fst snd res_rel].
      split; [reflexivity|].
      eapply states_agree_step; [exact Ht|exact (inv_os_chdir _ t1 _ _ (os_chdir_ok _ _ E1))
                                 |exact (inv_os_chdir _ t2 _ _ (os_chdir_ok _ _ E2))|].
      eapply agree_same; [exact (proj1 Ht)|..]; reflexivity.
    + subst e2. rewrite (bind_err _ _ _ _ _ B1), (bind_err _ _ _ _ _ B2). cbn [fst snd res_rel].
      split; [reflexivity|exact Ht].
  - symmetry in D.
    rewrite (bind_err _ _ _ _ _ (os_chdir_err _ s1 D1)), (bind_err _ _ _ _ _ (os_chdir_err _ s2 D)).
    cbn [fst snd res_rel]. split; [reflexivity|exact HS].
Qed.

Section OtherUnit.

Variable h : Host.
Variable a : string.

Lemma rrun_setup_venv b : b <> a ->
  rrun (states_agree a) eq (_setup_venv h (ws_root ++ [b])) (_setup_venv h (ws_root ++ [b])).
Proof.
  intros Hb. unfold _setup_venv.
  apply (rrun_bind _ eq); [apply rrun_log_event|]. intros [] [] _.
  apply rrun_in_dir; [exact Hb| |].
  - apply rrun_try.
    + apply (rrun_bind _ eq); [apply rrun_venv_check_call, Hb|]. intros [] [] _.
      apply (rrun_bind _ eq); [apply rrun_venv_check_call, Hb|]. intros [] [] _.
      apply rrun_venv_check_call, Hb.
    + intros e. destruct e; cbn [opt_rel]; try exact I. apply rrun_raise.
  - pres_run inv_kept_refl inv_kept_trans; auto with inv_db.
Qed.

Lemma rrun_run_test b tp : b <> a -> path_owner tp <> Some a ->
  rrun (states_agree a) eq (_run_test_with_pytest h (ws_root ++ [b]) tp)
    (_run_test_with_pytest h (ws_root ++ [b]) tp).
Proof.
  intros Hb Htp. unfold _run_test_with_pytest.
  apply rrun_in_dir; [exact Hb| |].
  - apply rrun_try; [apply rrun_pytest_check_call; assumption|].
    intros e. destruct e; cbn [opt_rel]; try exact I. apply rrun_raise.
  - pres_run inv_kept_refl inv_kept_trans; auto with inv_db.
Qed.

Lemma rrun_clone_charm_repo cfg b : b <> a ->
  rrun (states_agree a) eq (_clone_charm_repo h cfg (ws_root ++ [b]))
    (_clone_charm_repo h cfg (ws_root ++ [b])).
Proof.
  intros Hb. unfold _clone_charm_repo.
  apply (rrun_bind _ eq); [apply rrun_git_clone_call, Hb|]. intros x _ <-.
  destruct (x >? 0)%Z; [apply rrun_raise|apply rrun_ret; reflexivity].
Qed.

Lemma rrun_generate_test iface d fid ver :
  rrun (states_agree a) (fun x y => x = y /\ x = d ++ [test_file_name iface])
    (_generate_test iface d fid ver) (_generate_test iface d fid ver).
Proof.
  unfold _generate_test. apply (rrun_bind _ eq); [apply rrun_write_file|]. intros [] [] _.
  apply rrun_ret. split; reflexivity.
Qed.

(** What [_prepare_repo] returns for a charm [b]: its clone and a test
    file inside it. *)
Definition prepared (b : string) (x y : APath * APath) : Prop :=
  x = y /\ fst x = ws_root ++ [b] /\ path_owner (snd x) = Some b.

Lemma rrun_prepare_repo cfg iface ver : isolated_cfg cfg -> name cfg <> a ->
  rrun (states_agree a) (prepared (name cfg))
    (_prepare_repo h cfg iface ver) (_prepare_repo h cfg iface ver).
Proof.
  intros [Hp Hloc] Hb. destruct (fixture_shape cfg (name cfg) Hloc) as [c [cs Hfs]].
  unfold _prepare_repo. cbv zeta. rewrite Hp.
  apply (rrun_bind _ eq); [apply rrun_path_exists, Hb|]. intros x _ <-.
  apply (rrun_bind _ (@eq unit)).
  { destruct (negb x); [|apply rrun_ret; reflexivity].
    apply (rrun_bind _ eq); [apply rrun_clone_charm_repo, Hb|]. intros [] [] _.
    apply rrun_setup_venv, Hb. }
  intros [] [] _. apply rrun_bind_try_ret.
  apply (rrun_bind _ eq).
  { apply rrun_path_is_file. rewrite Hfs, path_owner_app. congruence. }
  intros isf _ <-. destruct (negb isf); [apply rrun_raise|].
  apply (rrun_bind _ _ _ _ _ _ _ (rrun_generate_test _ _ _ _)).
  intros tp _ [<- ->]. apply rrun_ret. split; [reflexivity|split; [reflexivity|]].
  cbn [snd]. rewrite Hfs. apply test_path_owner.
Qed.

Lemma rrun_test_charm cfg iface ver role : isolated_cfg cfg -> name cfg <> a ->
  rrun (states_agree a) eq (_test_charm h cfg iface ver role) (_test_charm h cfg iface ver role).
Proof.
  intros Hc Hb. unfold _test_charm.
  apply (rrun_bind _ (fun x y => x = y /\
           match x with Some p => fst p = ws_root ++ [name cfg] /\ path_owner (snd p) = Some (name cfg)
                      | None => True end)).
  - apply rrun_try.
    + apply (rrun_bind _ _ _ _ _ _ _ (rrun_prepare_repo cfg iface ver Hc Hb)).
      intros p _ [<- Hp]. apply rrun_ret. split; [reflexivity|exact Hp].
    + intros e. destruct e; cbn [opt_rel]; try exact I. apply rrun_ret. split; [reflexivity|exact I].
  - intros r _ [<- Hr]. destruct r as [[cp tp]|]; [|apply rrun_ret; reflexivity].
    destruct Hr as [Hcp Htp]. cbn [fst snd] in Hcp, Htp. subst cp.
    apply rrun_try.
    + apply (rrun_bind _ eq); [|intros; apply rrun_ret; reflexivity].
      apply rrun_run_test; [exact Hb|rewrite Htp; congruence].
    + intros e. destruct e; cbn [opt_rel]; try exact I. apply rrun_ret. reflexivity.
Qed.

End OtherUnit.

(** *** Hoare triples for the unit of charm [a] *)

Definition ht {A} (P : State -> Prop) (m : M A) (Q : A -> State -> Prop) (E : Exn -> State -> Prop) : Prop :=
  forall s, P s -> match m s with (Ok x, s') => Q x s' | (Err e, s') => E e s' end.

Lemma ht_ret {A} P (x : A) Q E : (forall s, P s -> Q x s) -> ht P (ret x) Q E.
Proof. intros H s Hs. exact (H s Hs). Qed.

Lemma ht_raise {A} P e (Q : A -> State -> Prop) E : (forall s, P s -> E e s) -> ht P (raise e) Q E.
Proof. intros H s Hs. exact (H s Hs). Qed.

Lemma ht_bind {A B} P (m : M A) (k : A -> M B) Q1 Q E :
  ht P m Q1 E -> (forall x, ht (Q1 x) (k x) Q E) -> ht P (bind m k) Q E.
Proof.
  intros Hm Hk s Hs. specialize (Hm s Hs). unfold bind.
  destruct (m s) as [[x|e] s1]; [apply Hk|]; exact Hm.
Qed.

Lemma ht_try {A} P (m : M A) hdl Q E1 E :
  ht P m Q E1 ->
  (forall e, match hdl e with Some k => ht (E1 e) k Q E | None => forall s, E1 e s -> E e s end) ->
  ht P (try_except m hdl) Q E.
Proof.
  intros Hm Hh s Hs. specialize (Hm s Hs). unfold try_except.
  destruct (m s) as [[x|e] s1]; [exact Hm|]. specialize (Hh e).
  destruct (hdl e) as [k|]; [apply Hh|apply Hh]; exact Hm.
Qed.

Lemma ht_pre {A} (P P' : State -> Prop) (m : M A) Q E :
  (forall s, P' s -> P s) -> ht P m Q E -> ht P' m Q E.
Proof. intros HP H s Hs. apply H, HP, Hs. Qed.

Lemma ht_post {A} P (m : M A) (Q Q' : A -> State -> Prop) (E E' : Exn -> State -> Prop) :
  ht P m Q E -> (forall x s, Q x s -> Q' x s) -> (forall e s, E e s -> E' e s) -> ht P m Q' E'.
Proof.
  intros H HQ HE s Hs. specialize (H s Hs). destruct (m s) as [[x|e] s1]; auto.
Qed.

(** A step that keeps [P] in every outcome, from what the step does to the state. *)
Lemma ht_state {A} (P : State -> Prop) (m : M A) (Q : A -> State -> Prop) (E : Exn -> State -> Prop) :
  (forall s r s', P s -> m s = (r, s') ->
     match r with Ok x => Q x s' | Err e => E e s' end) ->
  ht P m Q E.
Proof. intros H s Hs. specialize (H s). destruct (m s) as [r s']. destruct r; apply (H _ _ Hs eq_refl). Qed.

Lemma agree_set_own a s c root v l :
  RootKind_eqb root RFile = RootKind_eqb (st_root s) RFile ->
  agree a s (mkState c root (dict_set a v (st_ws s)) (st_written s) l).
Proof.
  intros R. split; [symmetry; exact R|split; [|reflexivity]].
  intros n Hn. cbn [st_ws]. rewrite dict_get_set. destruct (String.eqb n a) eqn:E; [|reflexivity].
  apply String.eqb_eq in E. contradiction.
Qed.

Lemma agree_log a s c l :
  agree a s (mkState c (st_root s) (st_ws s) (st_written s) l).
Proof. split; [reflexivity|split; reflexivity]. Qed.

Lemma path_eqb_true p q : path_eqb p q = true -> p = q.
Proof.
  revert q. induction p as [|x p IH]; intros [|y q] E; try discriminate; [reflexivity|].
  cbn in E. apply andb_prop in E as [E1 E2]. apply String.eqb_eq in E1. subst. f_equal. apply IH, E2.
Qed.

Lemma agree_write_own a s q c l : path_owner q = Some a ->
  agree a s (mkState (st_cwd s) (st_root s) (st_ws s) ((q, c) :: st_written s) l).
Proof.
  intros Hq. split; [reflexivity|split; [reflexivity|]].
  intros p Hp. cbn [st_written written_lookup].
  destruct (path_eqb q p) eqn:E; [|reflexivity].
  apply path_eqb_true in E. subst p. contradiction.
Qed.

Section OwnUnit.

Variable h : Host.
Variable a : string.
Variable s0 : State.

Lemma side_valid s : cwd_valid s0 -> ws_wf s0 -> side_step a s0 s -> cwd_valid s /\ ws_wf s.
Proof. intros V W [_ [_ [HV HW]]]. auto. Qed.

Lemma side_extend s s' : side_step a s0 s -> inv_kept s s' -> agree a s s' -> side_step a s0 s'.
Proof. intros H K A. eapply side_step_trans; [exact H|split; assumption]. Qed.

Lemma dir_exists_own s : dir_exists s (ws_root ++ [a]) = true -> exists cd, ws_entry s (ws_root ++ [a]) = Some cd.
Proof.
  unfold dir_exists, ws_entry. rewrite strip_prefix_app.
  destruct (RootKind_eqb (st_root s) RDir); [|discriminate]. cbn.
  destruct (dict_get a (st_ws s)); [eauto|discriminate].
Qed.

Definition setup_err (e : Exn) : Prop := exists m, e = SetupError m.

Lemma ht_own_clone cfg : (0 <= h_clone_rc h cfg)%Z ->
  ht (side_step a s0) (_clone_charm_repo h cfg (ws_root ++ [a]))
     (fun _ s => side_step a s0 s /\ dir_exists s (ws_root ++ [a]) = true)
     (fun e s => side_step a s0 s /\ setup_err e).
Proof.
  intros Hrc. unfold _clone_charm_repo. eapply ht_bind with
    (Q1 := fun rc s => side_step a s0 s /\ (0 <= rc)%Z /\ ((rc =? 0)%Z = true -> dir_exists s (ws_root ++ [a]) = true)).
  - apply ht_state. intros s r s' Hs E.
    pose proof (inv_git_clone_call h cfg _ s _ _ E) as K.
    unfold git_clone_call in E. rewrite strip_prefix_app in E.
    destruct (RootKind_eqb (st_root s) RFile) eqn:Rf.
    + cbn in E. inversion E; subst. split; [|split; [lia|discriminate]].
      apply (side_extend s _ Hs K), agree_log.
    + destruct (h_clone_rc h cfg =? 0)%Z eqn:Z; inversion E; subst.
      * split; [|split; [exact Hrc|intros _]].
        -- apply (side_extend s _ Hs K). apply agree_set_own. rewrite Rf. reflexivity.
        -- unfold dir_exists. rewrite strip_prefix_app. cbn [st_root st_ws RootKind_eqb andb].
           rewrite dict_get_set_same. reflexivity.
      * split; [|split; [exact Hrc|intros Z'; congruence]].
        apply (side_extend s _ Hs K), agree_log.
  - intros rc. destruct (rc >? 0)%Z eqn:P.
    + apply ht_raise. intros s [Hs _]. split; [exact Hs|eexists; reflexivity].
    + apply ht_ret. intros s [Hs [H0 Hd]]. split; [exact Hs|apply Hd].
      apply Z.eqb_eq. rewrite Z.gtb_ltb, Z.ltb_ge in P. lia.
Qed.

Hypothesis V0 : cwd_valid s0.
Hypothesis W0 : ws_wf s0.

Lemma ht_bind_try_ret {A B} (P : State -> Prop) (v : A) hdl (k : A -> M B) Q E :
  ht P (k v) Q E -> ht P (bind (try_except (ret v) hdl) k) Q E.
Proof. intros H s Hs. exact (H s Hs). Qed.

Lemma ws_entry_dir_exists s n cd : ws_entry s (ws_root ++ [n]) = Some cd -> dir_exists s (ws_root ++ [n]) = true.
Proof.
  unfold ws_entry, dir_exists. rewrite strip_prefix_app.
  destruct (RootKind_eqb (st_root s) RDir); [|discriminate]. cbn. intros ->. reflexivity.
Qed.

Lemma ht_own_venv k wd :
  ht (fun s => side_step a s0 s /\ st_cwd s = ws_root ++ [a] /\ dir_exists s wd = true)
     (venv_check_call h k)
     (fun _ s => side_step a s0 s /\ st_cwd s = ws_root ++ [a] /\ dir_exists s wd = true)
     (fun e s => side_step a s0 s /\ (exists rc, e = CalledProcessError rc)).
Proof.
  apply ht_state. intros s r s' [Hs [Hc Hw]] E.
  pose proof (inv_venv_check_call h k s _ _ E) as K.
  unfold venv_check_call in E. rewrite Hc, strip_prefix_app in E.
  destruct (ws_entry s (ws_root ++ [a])) as [cd|] eqn:Ee.
  - destruct (h_venv_rc h cd k =? 0)%Z; inversion E; subst.
    + split; [|split; [reflexivity|exact (proj1 K wd Hw)]].
      apply (side_extend s _ Hs K). apply agree_set_own. reflexivity.
    + split; [exact Hs|eexists; reflexivity].
  - inversion E; subst. split; [exact Hs|eexists; reflexivity].
Qed.

Lemma ht_own_setup_venv :
  ht (fun s => side_step a s0 s /\ dir_exists s (ws_root ++ [a]) = true)
     (_setup_venv h (ws_root ++ [a]))
     (fun _ s => side_step a s0 s /\ dir_exists s (ws_root ++ [a]) = true)
     (fun e s => side_step a s0 s /\ setup_err e).
Proof.
  unfold _setup_venv.
  eapply ht_bind with (Q1 := fun _ s => side_step a s0 s /\ dir_exists s (ws_root ++ [a]) = true).
  { apply ht_state. intros s r s' [Hs Hd] E. pose proof (inv_log_event _ s _ _ E) as K.
    inversion E; subst. split; [apply (side_extend s _ Hs K), agree_log|exact Hd]. }
  intros [].
  eapply ht_bind with (Q1 := fun wd s => side_step a s0 s /\ dir_exists s (ws_root ++ [a]) = true
                                          /\ dir_exists s wd = true).
  { apply ht_state. intros s r s' [Hs Hd] E. destruct (side_valid s V0 W0 Hs) as [Vs _].
    rewrite (os_getcwd_valid s Vs) in E. inversion E; subst. auto. }
  intros wd.
  eapply ht_bind with (Q1 := fun _ s => side_step a s0 s /\ st_cwd s = ws_root ++ [a] /\ dir_exists s wd = true).
  { apply ht_state. intros s r s' [Hs [Hd Hw]] E. pose proof (inv_os_chdir _ s _ _ E) as K.
    rewrite (os_chdir_ok _ s Hd) in E. inversion E; subst.
    split; [apply (side_extend s _ Hs K), agree_log|split; [reflexivity|exact Hw]]. }
  intros [].
  eapply ht_bind with (Q1 := fun _ s => side_step a s0 s /\ dir_exists s (ws_root ++ [a]) = true
                                         /\ dir_exists s wd = true).
  { eapply ht_try with (E1 := fun e s => side_step a s0 s /\ (exists rc, e = CalledProcessError rc)).
    - eapply ht_post.
      + eapply ht_bind; [apply ht_own_venv|intros []].
        eapply ht_bind; [apply ht_own_venv|intros []].
        apply ht_own_venv.
      + intros _ s [Hs [Hc Hw]]. split; [exact Hs|split; [|exact Hw]].
        destruct (side_valid s V0 W0 Hs) as [Vs _]. unfold cwd_valid in Vs. rewrite Hc in Vs. exact Vs.
      + auto.
    - intros e. destruct e; cbv beta iota; try (intros st [_ [rc Hrc]]; discriminate).
      apply ht_raise. intros s [Hs _]. split; [exact Hs|eexists; reflexivity].
  }
  intros [].
  apply ht_state. intros s r s' [Hs [Hd Hw]] E. pose proof (inv_os_chdir _ s _ _ E) as K.
  rewrite (os_chdir_ok _ s Hw) in E. inversion E; subst.
  split; [apply (side_extend s _ Hs K), agree_log|exact Hd].
Qed.

Lemma ht_own_prepare cfg iface ver : name cfg = a -> isolated_cfg cfg -> (0 <= h_clone_rc h cfg)%Z ->
  ht (side_step a s0) (_prepare_repo h cfg iface ver)
     (fun p s => side_step a s0 s /\ dir_exists s (fst p) = true)
     (fun e s => side_step a s0 s /\ setup_err e).
Proof.
  intros Hn [Hp Hloc] Hrc. destruct (fixture_shape cfg (name cfg) Hloc) as [c [cs Hfs]].
  unfold _prepare_repo. cbv zeta. rewrite Hp. rewrite Hn in Hfs |- *.
  eapply ht_bind with (Q1 := fun ex s => side_step a s0 s /\ (ex = true -> dir_exists s (ws_root ++ [a]) = true)).
  { apply ht_state. intros s r s' Hs E. unfold path_exists in E. injection E as <- <-.
    split; [exact Hs|]. match goal with |- context [ws_entry s ?p] => destruct (ws_entry s p) eqn:Ee end;
      [|intros Hf; discriminate Hf].
    intros _. exact (ws_entry_dir_exists s a _ Ee). }
  intros ex.
  eapply ht_bind with (Q1 := fun _ s => side_step a s0 s /\ dir_exists s (ws_root ++ [a]) = true).
  { destruct ex; cbn [negb].
    - apply ht_ret. intros s [Hs Hd]. auto.
    - eapply ht_bind.
      + eapply ht_pre; [|apply ht_own_clone, Hrc]. intros s [Hs _]. exact Hs.
      + intros []. apply ht_own_setup_venv. }
  intros []. apply ht_bind_try_ret.
  eapply ht_bind with (Q1 := fun _ s => side_step a s0 s /\ dir_exists s (ws_root ++ [a]) = true).
  { apply ht_state. intros s r s' H E. injection E as <- <-. exact H. }
  intros isf. destruct (negb isf).
  - apply ht_raise. intros s [Hs _]. split; [exact Hs|eexists; reflexivity].
  - eapply ht_bind with (Q1 := fun _ s => side_step a s0 s /\ dir_exists s (ws_root ++ [a]) = true).
    { unfold _generate_test.
      eapply ht_bind with (Q1 := fun _ s => side_step a s0 s /\ dir_exists s (ws_root ++ [a]) = true).
      - apply ht_state. intros s r s' [Hs Hd] E. pose proof (inv_write_file _ _ s _ _ E) as K.
        injection E as <- <-. split; [|exact Hd].
        apply (side_extend s _ Hs K). apply agree_write_own.
        assert (Ho : path_owner (parent (fs_path (_get_fixture cfg (ws_root ++ [a]))) ++ [test_file_name iface]) = Some a)
          by (rewrite Hfs; apply test_path_owner).
        exact Ho.
      - intros []. apply ht_ret. auto. }
    intros tp. apply ht_ret. intros s [Hs Hd]. cbn [fst]. auto.
Qed.

Lemma ht_own_run_test r tp :
  ht (fun s => side_step a s0 s /\ dir_exists s r = true)
     (_run_test_with_pytest h r tp)
     (fun _ s => side_step a s0 s)
     (fun e s => side_step a s0 s /\ e = InterfaceTestError).
Proof.
  unfold _run_test_with_pytest.
  eapply ht_bind with (Q1 := fun wd s => side_step a s0 s /\ dir_exists s r = true /\ dir_exists s wd = true).
  { apply ht_state. intros s x s' [Hs Hd] E. destruct (side_valid s V0 W0 Hs) as [Vs _].
    rewrite (os_getcwd_valid s Vs) in E. inversion E; subst. auto. }
  intros wd.
  eapply ht_bind with (Q1 := fun _ s => side_step a s0 s /\ dir_exists s wd = true).
  { apply ht_state. intros s x s' [Hs [Hd Hw]] E. pose proof (inv_os_chdir _ s _ _ E) as K.
    rewrite (os_chdir_ok _ s Hd) in E. inversion E; subst.
    split; [apply (side_extend s _ Hs K), agree_log|exact Hw]. }
  intros [].
  eapply ht_bind with (Q1 := fun _ s => side_step a s0 s /\ dir_exists s wd = true).
  { eapply ht_try with (E1 := fun e s => side_step a s0 s /\ (exists rc, e = CalledProcessError rc)).
    - apply ht_state. intros s x s' [Hs Hw] E. pose proof (inv_pytest_check_call h tp s _ _ E) as K.
      unfold pytest_check_call in E.
      destruct (_ =? 0)%Z; inversion E; subst.
      + split; [apply (side_extend s _ Hs K), agree_log|exact Hw].
      + split; [apply (side_extend s _ Hs K), agree_log|eexists; reflexivity].
    - intros e. destruct e; cbv beta iota; try (intros st [_ [rc Hrc]]; discriminate).
      apply ht_raise. intros s [Hs _]. auto. }
  intros [].
  apply ht_state. intros s x s' [Hs Hw] E. pose proof (inv_os_chdir _ s _ _ E) as K.
  rewrite (os_chdir_ok _ s Hw) in E. inversion E; subst.
  apply (side_extend s _ Hs K), agree_log.
Qed.

(** The unit of charm [a] always returns a boolean, and only changes what
    concerns the clone of [a]. *)
Lemma ht_own_test_charm cfg iface ver role :
  name cfg = a -> isolated_cfg cfg -> (0 <= h_clone_rc h cfg)%Z ->
  ht (side_step a s0) (_test_charm h cfg iface ver role) (fun _ s => side_step a s0 s) (fun _ _ => False).
Proof.
  intros Hn Hc Hrc. unfold _test_charm.
  eapply ht_bind with (Q1 := fun r s => side_step a s0 s /\
                               match r with Some p => dir_exists s (fst p) = true | None => True end).
  { eapply ht_try with (E1 := fun e s => side_step a s0 s /\ setup_err e).
    - eapply ht_bind; [apply ht_own_prepare; assumption|].
      intros p. apply ht_ret. intros s [Hs Hd]. auto.
    - intros e. destruct e; cbv beta iota; try (intros st [_ [m Hm]]; discriminate).
      apply ht_ret. intros s [Hs _]. auto. }
  intros [[cp tp]|].
  - eapply ht_try with (E1 := fun e s => side_step a s0 s /\ e = InterfaceTestError).
    + eapply ht_bind; [apply ht_own_run_test|intros []; apply ht_ret; auto].
    + intros e. destruct e; cbv beta iota; try (intros st [_ He]; discriminate).
      apply ht_ret. intros s [Hs _]. exact Hs.
  - apply ht_ret. intros s [Hs _]. exact Hs.
Qed.

End OwnUnit.

(** *** The traversal *)

Lemma own_unit_ok h a cfg iface ver role s :
  name cfg = a -> isolated_cfg cfg -> (0 <= h_clone_rc h cfg)%Z -> cwd_valid s -> ws_wf s ->
  exists x t, _test_charm h cfg iface ver role s = (Ok x, t) /\ side_step a s t.
Proof.
  intros Hn Hc Hrc V W.
  pose proof (ht_own_test_charm h a s V W cfg iface ver role Hn Hc Hrc s (side_step_refl a s)) as H.
  destruct (_test_charm h cfg iface ver role s) as [[x|e] t]; [eauto|contradiction].
Qed.

Lemma charms_agree_set a n x d1 d2 :
  charms_agree a d1 d2 -> charms_agree a (dict_set n x d1) (dict_set n x d2).
Proof. intros H c Hc. rewrite !dict_get_set. destruct (String.eqb c n); auto. Qed.

Lemma charms_agree_set_own a x d1 d2 :
  charms_agree a d1 d2 -> charms_agree a (dict_set a x d1) d2.
Proof.
  intros H c Hc. rewrite dict_get_set. destruct (String.eqb c a) eqn:E; [|auto].
  apply String.eqb_eq in E. contradiction.
Qed.

Lemma drop_charm_own a c r : name c = a -> drop_charm a (c :: r) = drop_charm a r.
Proof. intros E. unfold drop_charm. cbn. rewrite E, String.eqb_refl. reflexivity. Qed.

Lemma charms_agree_set_own_r a x d1 d2 :
  charms_agree a d1 d2 -> charms_agree a d1 (dict_set a x d2).
Proof.
  intros H c Hc. rewrite dict_get_set. destruct (String.eqb c a) eqn:E; [|auto].
  apply String.eqb_eq in E. contradiction.
Qed.

(** Runs of the runner with the same host but different registries. *)
Section Traversal.

Variable h : Host.
Variable a : string.

(** The configurations that appear in the compared runs. *)
Variable ok_cfg : CharmTestConfig -> Prop.
Hypothesis ok_isolated : forall cfg, ok_cfg cfg -> isolated_cfg cfg.
Hypothesis ok_clone : forall cfg, ok_cfg cfg -> name cfg = a -> (0 <= h_clone_rc h cfg)%Z.

Lemma rrun_charms_loop_n iface ver role n : forall cfgs1 cfgs2 out1 out2,
  (length cfgs1 + length cfgs2 <= n)%nat ->
  drop_charm a cfgs1 = drop_charm a cfgs2 ->
  Forall ok_cfg cfgs1 -> Forall ok_cfg cfgs2 ->
  charms_agree a out1 out2 ->
  rrun (states_agree a) (charms_agree a)
    (test_charms_loop h cfgs1 iface ver role out1) (test_charms_loop h cfgs2 iface ver role out2).
Proof.
  induction n as [|n IH]; intros cfgs1 cfgs2 out1 out2 Hlen Hd F1 F2 Ho.
  - destruct cfgs1, cfgs2; cbn in Hlen; try lia. apply rrun_ret, Ho.
  - destruct cfgs1 as [|c1 r1].
    + destruct cfgs2 as [|c2 r2]; [apply rrun_ret, Ho|].
      inversion F2 as [|? ? Hc2 F2']; subst.
      destruct (String.eqb (name c2) a) eqn:E2.
      * apply String.eqb_eq in E2. cbn [test_charms_loop].
        apply rrun_right_skip.
        { intros s1 s2 HS. pose proof HS as [_ [_ [V2 [_ W2]]]].
          destruct (own_unit_ok h a c2 iface ver role s2 E2 (ok_isolated _ Hc2) (ok_clone _ Hc2 E2) V2 W2)
            as [x [t [Ex Ht]]].
          exists x, t. split; [exact Ex|]. apply states_agree_sym.
          exact (states_agree_side _ _ _ _ (states_agree_sym _ _ _ HS) Ht). }
        intros x. rewrite E2. apply (IH [] r2); [cbn in *; lia| |constructor|exact F2'|].
        -- rewrite (drop_charm_own _ _ _ E2) in Hd. exact Hd.
        -- apply charms_agree_set_own_r, Ho.
      * unfold drop_charm in Hd. cbn in Hd. rewrite E2 in Hd. discriminate.
    + inversion F1 as [|? ? Hc1 F1']; subst.
      destruct (String.eqb (name c1) a) eqn:E1.
      * apply String.eqb_eq in E1. cbn [test_charms_loop].
        apply rrun_left_skip.
        { intros s1 s2 HS. pose proof HS as [_ [V1 [_ [W1 _]]]].
          destruct (own_unit_ok h a c1 iface ver role s1 E1 (ok_isolated _ Hc1) (ok_clone _ Hc1 E1) V1 W1)
            as [x [t [Ex Ht]]].
          exists x, t. split; [exact Ex|]. exact (states_agree_side _ _ _ _ HS Ht). }
        intros x. rewrite E1. apply IH; [cbn in *; lia| |exact F1'|exact F2|apply charms_agree_set_own; exact Ho].
        rewrite (drop_charm_own _ _ _ E1) in Hd. exact Hd.
      * destruct cfgs2 as [|c2 r2].
        -- unfold drop_charm in Hd. cbn in Hd. rewrite E1 in Hd. discriminate.
        -- inversion F2 as [|? ? Hc2 F2']; subst.
           destruct (String.eqb (name c2) a) eqn:E2.
           ++ apply String.eqb_eq in E2. cbn [test_charms_loop].
              apply rrun_right_skip.
              { intros s1 s2 HS. pose proof HS as [_ [_ [V2 [_ W2]]]].
                destruct (own_unit_ok h a c2 iface ver role s2 E2 (ok_isolated _ Hc2) (ok_clone _ Hc2 E2) V2 W2)
                  as [x [t [Ex Ht]]].
                exists x, t. split; [exact Ex|]. apply states_agree_sym.
                exact (states_agree_side _ _ _ _ (states_agree_sym _ _ _ HS) Ht). }
              intros x. rewrite E2. apply (IH (c1 :: r1) r2 out1 _); [cbn in *; lia| |exact F1|exact F2'|].
              ** rewrite (drop_charm_own _ _ _ E2) in Hd. exact Hd.
              ** apply charms_agree_set_own_r, Ho.
           ++ unfold drop_charm in Hd. cbn in Hd. rewrite E1, E2 in Hd. cbn in Hd.
              injection Hd as <- Hd. cbn [test_charms_loop].
              apply (rrun_bind _ eq); [apply rrun_test_charm; [apply ok_isolated, Hc1|]|].
              { intros Ha. rewrite Ha, String.eqb_refl in E1. discriminate. }
              intros x _ <-. apply IH; [cbn in *; lia|exact Hd|exact F1'|exact F2'|].
              apply charms_agree_set, Ho.
Qed.

Lemma rrun_charms_loop iface ver role cfgs1 cfgs2 out1 out2 :
  drop_charm a cfgs1 = drop_charm a cfgs2 ->
  Forall ok_cfg cfgs1 -> Forall ok_cfg cfgs2 ->
  charms_agree a out1 out2 ->
  rrun (states_agree a) (charms_agree a)
    (test_charms_loop h cfgs1 iface ver role out1) (test_charms_loop h cfgs2 iface ver role out2).
Proof. apply (rrun_charms_loop_n iface ver role (length cfgs1 + length cfgs2)). lia. Qed.

Lemma roles_agree_set r x1 x2 d1 d2 :
  roles_agree a d1 d2 -> charms_agree a x1 x2 -> roles_agree a (dict_set r x1 d1) (dict_set r x2 d2).
Proof. intros H X r'. rewrite !dict_get_set. destruct (String.eqb r' r); [exact X|apply H]. Qed.

Lemma charms_agree_refl d : charms_agree a d d.
Proof. intros c _. reflexivity. Qed.

(** The role's result, whether or not it has charms. *)
Lemma rrun_role_charms iface ver role cfgs1 cfgs2 res1 res2 :
  drop_charm a cfgs1 = drop_charm a cfgs2 ->
  Forall ok_cfg cfgs1 -> Forall ok_cfg cfgs2 ->
  roles_agree a res1 res2 ->
  rrun (states_agree a) (roles_agree a)
    (r <- _test_charms h cfgs1 iface ver role ;; ret (dict_set role r res1))
    (r <- _test_charms h cfgs2 iface ver role ;; ret (dict_set role r res2)).
Proof.
  intros Hd F1 F2 Hr.
  apply (rrun_bind _ (charms_agree a)); [apply rrun_charms_loop; auto using charms_agree_refl|].
  intros x1 x2 X. apply rrun_ret. apply roles_agree_set; assumption.
Qed.

Lemma dict_get_map_snd {V W} (g : V -> W) k (d : dict string V) :
  dict_get k (map (fun kv => (fst kv, g (snd kv))) d) = option_map g (dict_get k d).
Proof.
  induction d as [|[k' v] d IH]; cbn; [reflexivity|]. destruct (String.eqb k k'); [reflexivity|exact IH].
Qed.

Lemma dict_get_in {V} k (d : dict string V) v : dict_get k d = Some v -> In (k, v) d.
Proof.
  induction d as [|[k' v'] d IH]; cbn; [discriminate|].
  destruct (String.eqb k k') eqn:E; [intros H; inversion H; subst; left; apply String.eqb_eq in E; subst; reflexivity|].
  intros H. right. apply IH, H.
Qed.

Definition roles_ok (t : TestsPerRole) : Prop := forall cfg, In cfg (role_charms t) -> ok_cfg cfg.

Lemma roles_ok_spec t role sp : roles_ok t -> dict_get role t = Some sp -> Forall ok_cfg (charms sp).
Proof.
  intros Ht E. apply Forall_forall. intros cfg Hc. apply Ht. unfold role_charms.
  apply in_flat_map. exists (role, sp). split; [apply dict_get_in, E|exact Hc].
Qed.

Lemma rrun_role_step tpr1 tpr2 iface ver role res1 res2 :
  strip_roles a tpr1 = strip_roles a tpr2 -> roles_ok tpr1 -> roles_ok tpr2 ->
  roles_agree a res1 res2 ->
  rrun (states_agree a) (roles_agree a)
    (test_role_step h tpr1 iface ver res1 role) (test_role_step h tpr2 iface ver res2 role).
Proof.
  intros Ht O1 O2 Hr. unfold test_role_step.
  assert (Hg : option_map (fun sp => mkRoleSpec (tests sp) (drop_charm a (charms sp))) (dict_get role tpr1)
             = option_map (fun sp => mkRoleSpec (tests sp) (drop_charm a (charms sp))) (dict_get role tpr2)).
  { unfold strip_roles in Ht. rewrite <- !dict_get_map_snd. rewrite Ht. reflexivity. }
  destruct (dict_get role tpr1) as [sp1|] eqn:E1, (dict_get role tpr2) as [sp2|] eqn:E2;
    cbn [option_map] in Hg; try discriminate; [|apply rrun_raise].
  injection Hg as Hts Hcs.
  pose proof (roles_ok_spec _ _ _ O1 E1) as F1. pose proof (roles_ok_spec _ _ _ O2 E2) as F2.
  rewrite Hts. destruct (negb (truthy_list (tests sp2))).
  { apply rrun_ret. apply roles_agree_set; [exact Hr|apply charms_agree_refl]. }
  eapply rrun_ext; [| |apply (rrun_role_charms iface ver role (charms sp1) (charms sp2) res1 res2 Hcs F1 F2 Hr)].
  - intros s. destruct (charms sp1); reflexivity.
  - intros s. destruct (charms sp2); reflexivity.
Qed.

Lemma rrun_fold2_in S {A1 A2 B1 B2} (P : A1 -> A2 -> Prop) (R : B1 -> B2 -> Prop) f1 f2 l1 l2 :
  Forall2 P l1 l2 ->
  (forall x1 x2 b1 b2, In x1 l1 -> In x2 l2 -> P x1 x2 -> R b1 b2 -> rrun S R (f1 b1 x1) (f2 b2 x2)) ->
  forall acc1 acc2, R acc1 acc2 -> rrun S R (fold_m f1 l1 acc1) (fold_m f2 l2 acc2).
Proof.
  intros HF. induction HF as [|x1 x2 l1 l2 Hx HF IH]; intros Hf acc1 acc2 Hacc; cbn [fold_m].
  - apply rrun_ret, Hacc.
  - apply (rrun_bind _ R); [apply Hf; auto; left; reflexivity|].
    intros b1 b2 Hb. apply IH; [|exact Hb].
    intros; apply Hf; auto; right; assumption.
Qed.

Lemma rrun_test_roles tpr1 tpr2 iface ver :
  strip_roles a tpr1 = strip_roles a tpr2 -> roles_ok tpr1 -> roles_ok tpr2 ->
  rrun (states_agree a) (roles_agree a) (_test_roles h tpr1 iface ver) (_test_roles h tpr2 iface ver).
Proof.
  intros Ht O1 O2. unfold _test_roles.
  apply (rrun_fold2 _ eq); [repeat constructor| |].
  - intros r _ b1 b2 <- Hb. apply rrun_role_step; assumption.
  - intros r. exact I.
Qed.

Lemma versions_agree_set v x1 x2 d1 d2 :
  versions_agree a d1 d2 -> roles_agree a x1 x2 -> versions_agree a (dict_set v x1 d1) (dict_set v x2 d2).
Proof. intros H X v'. rewrite !dict_get_set. destruct (String.eqb v' v); [exact X|apply H]. Qed.

Lemma interfaces_agree_set i x1 x2 d1 d2 :
  interfaces_agree a d1 d2 -> versions_agree a x1 x2 ->
  interfaces_agree a (dict_set i x1 d1) (dict_set i x2 d2).
Proof. intros H X i'. rewrite !dict_get_set. destruct (String.eqb i' i); [exact X|apply H]. Qed.

Definition versions_ok (t : TestsPerVersion) : Prop := forall cfg, In cfg (version_charms t) -> ok_cfg cfg.
Definition registry_ok (reg : Registry) : Prop := forall cfg, In cfg (registry_charms reg) -> ok_cfg cfg.

Lemma rrun_interface_version tpv1 tpv2 iface :
  strip_versions a tpv1 = strip_versions a tpv2 -> versions_ok tpv1 -> versions_ok tpv2 ->
  rrun (states_agree a) (versions_agree a)
    (_test_interface_version h tpv1 iface) (_test_interface_version h tpv2 iface).
Proof.
  intros Ht O1 O2. unfold _test_interface_version.
  apply (rrun_fold2_in _ (fun x y => (fst x, strip_roles a (snd x)) = (fst y, strip_roles a (snd y)))).
  - apply Forall2_map_eq, Ht.
  - intros [v1 t1] [v2 t2] b1 b2 I1 I2 Hx Hb. cbn in Hx. injection Hx as <- Hs.
    unfold test_version_step. destruct (python_int (drop_first v1)) as [n|]; [|apply rrun_raise].
    apply (rrun_bind _ (roles_agree a)).
    + apply rrun_test_roles; [exact Hs| |].
      * intros cfg Hc. apply O1. apply in_flat_map. exists (v1, t1). auto.
      * intros cfg Hc. apply O2. apply in_flat_map. exists (v1, t2). auto.
    + intros x1 x2 X. apply rrun_ret. apply versions_agree_set; assumption.
  - intros v. exact I.
Qed.

Lemma rrun_traversal reg1 reg2 :
  strip_registry a reg1 = strip_registry a reg2 -> registry_ok reg1 -> registry_ok reg2 ->
  rrun (states_agree a) (interfaces_agree a)
    (fold_m (test_interface_step h) reg1 []) (fold_m (test_interface_step h) reg2 []).
Proof.
  intros Ht O1 O2.
  apply (rrun_fold2_in _ (fun x y => (fst x, strip_versions a (snd x)) = (fst y, strip_versions a (snd y)))).
  - apply Forall2_map_eq, Ht.
  - intros [i1 t1] [i2 t2] b1 b2 I1 I2 Hx Hb. cbn in Hx. injection Hx as <- Hs.
    unfold test_interface_step.
    apply (rrun_bind _ (versions_agree a)).
    + apply rrun_interface_version; [exact Hs| |].
      * intros cfg Hc. apply O1. apply in_flat_map. exists (i1, t1). auto.
      * intros cfg Hc. apply O2. apply in_flat_map. exists (i1, t2). auto.
    + intros x1 x2 X. apply rrun_ret. apply interfaces_agree_set; assumption.
  - intros i. exact I.
Qed.

End Traversal.

(** *** The run *)

Lemma run_with_registry h reg path include s :
  run_interface_tests (with_registry h reg) path include s =
  (_clean h ;;; fold_m (test_interface_step h) reg []) s.
Proof. reflexivity. Qed.

Lemma interfaces_agree_leaf a t1 t2 i v r c :
  interfaces_agree a t1 t2 -> c <> a -> result_leaf t1 i v r c = result_leaf t2 i v r c.
Proof.
  intros H Hc. unfold result_leaf. specialize (H i).
  destruct (dict_get i t1) as [tv1|], (dict_get i t2) as [tv2|]; cbn in H; try contradiction; [|reflexivity].
  specialize (H v). destruct (dict_get v tv1) as [tr1|], (dict_get v tv2) as [tr2|]; cbn in H; try contradiction; [|reflexivity].
  specialize (H r). destruct (dict_get r tr1) as [tc1|], (dict_get r tr2) as [tc2|]; cbn in H; try contradiction; [|reflexivity].
  apply H, Hc.
Qed.

Lemma clean_states_agree h a s s1 :
  strip_prefix ws_root (st_cwd s) = None -> ws_wf s -> _clean h s = (Ok tt, s1) -> states_agree a s1 s1.
Proof.
  intros Hc W E. rewrite clean_run in E.
  assert (V : forall t, st_cwd t = st_cwd s -> cwd_valid t).
  { intros t Ht. unfold cwd_valid, dir_exists. rewrite Ht, Hc. reflexivity. }
  destruct (RootKind_eqb (st_root s) RDir) eqn:ER.
  - destruct (h_rmtree h _ _) as [[[p ws'] w']|]; [discriminate|].
    injection E as <-. split; [apply agree_refl|].
    split; [apply V; reflexivity|split; [apply V; reflexivity|]]. split; intros _; reflexivity.
  - injection E as <-. split; [apply agree_refl|].
    split; [apply V; reflexivity|split; [apply V; reflexivity|]].
    split; intros _; apply W; exact ER.
Qed.

Lemma test_charm_catches :
  (forall h cfg iface ver role s m s',
     _prepare_repo h cfg iface ver s = (Err (SetupError m), s') ->
     _test_charm h cfg iface ver role s = (Ok false, s')) /\
  (forall h cfg iface ver role s cp tp s1 s',
     _prepare_repo h cfg iface ver s = (Ok (cp, tp), s1) ->
     _run_test_with_pytest h cp tp s1 = (Err InterfaceTestError, s') ->
     _test_charm h cfg iface ver role s = (Ok false, s')).
Proof.
  split.
  - intros h cfg iface ver role s m s' E.
    assert (T : try_except (p <- _prepare_repo h cfg iface ver ;; ret (Some p))
                  (fun e => match e with SetupError _ => Some (ret None) | _ => None end) s = (Ok None, s'))
      by (unfold try_except; rewrite (bind_err _ _ _ _ _ E); reflexivity).
    unfold _test_charm. rewrite (bind_ok _ _ _ _ _ T). reflexivity.
  - intros h cfg iface ver role s cp tp s1 s' E1 E2.
    assert (T : try_except (p <- _prepare_repo h cfg iface ver ;; ret (Some p))
                  (fun e => match e with SetupError _ => Some (ret None) | _ => None end) s
                = (Ok (Some (cp, tp)), s1))
      by (unfold try_except; rewrite (bind_ok _ _ _ _ _ E1); reflexivity).
    unfold _test_charm. rewrite (bind_ok _ _ _ _ _ T). cbv beta iota.
    unfold try_except. rewrite (bind_err _ _ _ _ _ E2). reflexivity.
Qed.




(** * Further properties of the runner *)

Lemma dict_keys_set {V} k (v : V) d :
  map fst (dict_set k v d) = if existsb (String.eqb k) (map fst d) then map fst d else map fst d ++ [k].
Proof.
  induction d as [|[k0 v0] d IH]; simpl; [reflexivity|].
  destruct (String.eqb k k0) eqn:E; simpl.
  - apply String.eqb_eq in E. subst. reflexivity.
  - rewrite IH. destruct (existsb (String.eqb k) (map fst d)); reflexivity.
Qed.

Lemma existsb_eqb_in k l : existsb (String.eqb k) l = true <-> In k l.
Proof.
  rewrite existsb_exists. split.
  - intros [x [H E]]. apply String.eqb_eq in E. subst. exact H.
  - intros H. exists k. split; [exact H|apply String.eqb_refl].
Qed.

Lemma dict_set_nodup {V} k (v : V) d : NoDup (map fst d) -> NoDup (map fst (dict_set k v d)).
Proof.
  intros H. rewrite dict_keys_set. destruct (existsb (String.eqb k) (map fst d)) eqn:E; [exact H|].
  apply NoDup_app; auto using NoDup_cons, NoDup_nil.
  intros x Hx [<-|[]]. apply (proj2 (existsb_eqb_in _ _)) in Hx. congruence.
Qed.

Lemma dict_get_some_in {V} k (d : dict string V) : dict_get k d <> None <-> In k (map fst d).
Proof.
  induction d as [|[k0 v0] d IH]; simpl; [tauto|].
  destruct (String.eqb k k0) eqn:E.
  - apply String.eqb_eq in E. split; [auto|discriminate].
  - apply String.eqb_neq in E. rewrite IH. split; [auto|intros [H|H]; [congruence|exact H]].
Qed.

Section FoldDict.

Context {A V : Type} (key : A -> string) (Q : A -> V -> Prop)
  (f : dict string V -> A -> M (dict string V)).

Hypothesis step : forall acc x s acc' s',
  f acc x s = (Ok acc', s') -> exists y, acc' = dict_set (key x) y acc /\ Q x y.

Lemma fold_cons_ok x l acc s r s' :
  fold_m f (x :: l) acc s = (Ok r, s') ->
  exists y s1, f acc x s = (Ok (dict_set (key x) y acc), s1) /\ Q x y /\
               fold_m f l (dict_set (key x) y acc) s1 = (Ok r, s').
Proof.
  cbn [fold_m]. intros H. apply bind_inv in H as [[e [_ E]]|[acc1 [s1 [E1 E2]]]]; [discriminate|].
  destruct (step _ _ _ _ _ E1) as [y [-> Hy]]. exists y, s1. auto.
Qed.

Lemma fold_get_other l : forall acc s r s' k, ~ In k (map key l) ->
  fold_m f l acc s = (Ok r, s') -> dict_get k r = dict_get k acc.
Proof.
  induction l as [|x l IH]; intros acc s r s' k Hk H.
  - injection H as <- _. reflexivity.
  - apply fold_cons_ok in H as [y [s1 [_ [_ H]]]].
    rewrite (IH _ _ _ _ k (fun F => Hk (or_intror F)) H).
    apply dict_get_set_other. intros ->. apply Hk. left. reflexivity.
Qed.

Lemma fold_get_sound l : forall acc s r s' k y,
  fold_m f l acc s = (Ok r, s') -> dict_get k r = Some y ->
  dict_get k acc = Some y \/ exists x, In x l /\ key x = k /\ Q x y.
Proof.
  induction l as [|x l IH]; intros acc s r s' k y H G.
  - injection H as <- _. left. exact G.
  - apply fold_cons_ok in H as [y1 [s1 [_ [Q1 H]]]].
    destruct (IH _ _ _ _ _ _ H G) as [G1|[x' [I [K Qx]]]].
    + rewrite dict_get_set in G1. destruct (String.eqb k (key x)) eqn:E.
      * apply String.eqb_eq in E. injection G1 as <-. right. exists x.
        split; [left; reflexivity|split; [symmetry; exact E|exact Q1]].
      * left. exact G1.
    + right. exists x'. split; [right; exact I|split; [exact K|exact Qx]].
Qed.

Lemma fold_keep l : forall acc s r s' k,
  fold_m f l acc s = (Ok r, s') -> dict_get k acc <> None -> dict_get k r <> None.
Proof.
  induction l as [|x l IH]; intros acc s r s' k H G.
  - injection H as <- _. exact G.
  - apply fold_cons_ok in H as [y [s1 [_ [_ H]]]]. apply (IH _ _ _ _ _ H).
    rewrite dict_get_set. destruct (String.eqb k (key x)); [discriminate|exact G].
Qed.

Lemma fold_get_present l : forall acc s r s' x,
  fold_m f l acc s = (Ok r, s') -> In x l -> dict_get (key x) r <> None.
Proof.
  induction l as [|x0 l IH]; intros acc s r s' x H I; [destruct I|].
  apply fold_cons_ok in H as [y [s1 [_ [_ H]]]]. destruct I as [<-|I].
  - apply (fold_keep _ _ _ _ _ _ H). rewrite dict_get_set_same. discriminate.
  - exact (IH _ _ _ _ _ H I).
Qed.

Lemma fold_get_in l : forall acc s r s' x,
  NoDup (map key l) -> fold_m f l acc s = (Ok r, s') -> In x l ->
  exists y, dict_get (key x) r = Some y /\ Q x y.
Proof.
  induction l as [|x0 l IH]; intros acc s r s' x N H I; [destruct I|].
  inversion N as [|k0 ks N0 N1]; subst.
  apply fold_cons_ok in H as [y [s1 [_ [Qy H]]]]. destruct I as [<-|I].
  - exists y. split; [|exact Qy]. rewrite (fold_get_other _ _ _ _ _ _ N0 H). apply dict_get_set_same.
  - exact (IH _ _ _ _ _ N1 H I).
Qed.

Lemma fold_keys l : forall acc s r s',
  NoDup (map key l) -> (forall x, In x l -> ~ In (key x) (map fst acc)) ->
  fold_m f l acc s = (Ok r, s') -> map fst r = map fst acc ++ map key l.
Proof.
  induction l as [|x l IH]; intros acc s r s' N D H.
  - injection H as <- _. rewrite app_nil_r. reflexivity.
  - inversion N as [|k0 ks N0 N1]; subst.
    apply fold_cons_ok in H as [y [s1 [_ [_ H]]]].
    assert (Kx : map fst (dict_set (key x) y acc) = map fst acc ++ [key x]).
    { rewrite dict_keys_set.
      destruct (existsb (String.eqb (key x)) (map fst acc)) eqn:E; [|reflexivity].
      apply existsb_eqb_in in E. exfalso. exact (D x (or_introl eq_refl) E). }
    assert (D' : forall x', In x' l -> ~ In (key x') (map fst (dict_set (key x) y acc))).
    2:{ rewrite (IH _ _ _ _ N1 D' H), Kx, <- app_assoc. reflexivity. }
    intros x' I. rewrite Kx. intros I'. apply in_app_or in I' as [I'|[E|[]]].
    + exact (D x' (or_intror I) I').
    + apply N0. rewrite E. apply in_map. exact I.
Qed.

End FoldDict.

Lemma fold_nodup {A V} (key : A -> string) (Q : A -> V -> Prop) f
  (step : forall acc x s acc' s', f acc x s = (Ok acc', s') -> exists y, acc' = dict_set (key x) y acc /\ Q x y) :
  forall l acc s r s', NoDup (map fst acc) -> fold_m f l acc s = (Ok r, s') -> NoDup (map fst r).
Proof.
  induction l as [|x l IH]; intros acc s r s' N H.
  - injection H as <- _. exact N.
  - apply (fold_cons_ok key Q f step) in H as [y [s1 [_ [_ H]]]].
    exact (IH _ _ _ _ (dict_set_nodup _ _ _ N) H).
Qed.

Lemma test_charms_loop_fold h cfgs iface ver role out s :
  test_charms_loop h cfgs iface ver role out s = fold_m (charm_step h iface ver role) cfgs out s.
Proof.
  revert out s. induction cfgs as [|c cfgs IH]; intros out s; [reflexivity|].
  cbn [test_charms_loop fold_m]. unfold charm_step. rewrite bind_assoc_s. unfold bind at 1 2.
  destruct (_test_charm h c iface ver role s) as [[b|e] s1]; [apply IH|reflexivity].
Qed.

Lemma charm_step_ok h iface ver role acc c s acc' s' :
  charm_step h iface ver role acc c s = (Ok acc', s') ->
  exists b, acc' = dict_set (name c) b acc /\ (fun _ _ => True) c b.
Proof.
  unfold charm_step. intros H. apply bind_inv in H as [[e [_ E]]|[b [s1 [_ E]]]]; [discriminate|].
  injection E as <- _. exists b. auto.
Qed.

Lemma test_charms_leaves h cfgs iface ver role s out s' :
  _test_charms h cfgs iface ver role s = (Ok out, s') ->
  NoDup (map fst out) /\ (forall c, dict_get c out <> None <-> In c (map name cfgs)).
Proof.
  unfold _test_charms. rewrite test_charms_loop_fold. intros H.
  pose proof (charm_step_ok h iface ver role) as St.
  split; [exact (fold_nodup _ _ _ St cfgs [] s out s' (NoDup_nil _) H)|].
  intros c. split.
  - intros G. destruct (dict_get c out) as [b|] eqn:E; [|congruence].
    destruct (fold_get_sound _ _ _ St _ _ _ _ _ _ _ H E) as [D|[x [I [<- _]]]]; [discriminate|].
    apply in_map. exact I.
  - intros I. apply in_map_iff in I as [x [<- I]]. exact (fold_get_present _ _ _ St _ _ _ _ _ _ H I).
Qed.

Lemma role_step_ok h tpr iface ver acc role s acc' s' :
  test_role_step h tpr iface ver acc role s = (Ok acc', s') ->
  exists y, acc' = dict_set role y acc /\ role_leaves_ok tpr role y.
Proof.
  unfold test_role_step. destruct (dict_get role tpr) as [spec|] eqn:G; [|discriminate].
  destruct (tests spec) as [|t ts] eqn:T; cbn [truthy_list negb].
  { intros H. injection H as <- _. exists []. split; [reflexivity|]. split.
    - intros c b D. discriminate.
    - intros spec' G' T'. rewrite G in G'. injection G' as <-. congruence. }
  destruct (charms spec) as [|c cs] eqn:C; cbn [truthy_list negb].
  { intros H. injection H as <- _. exists []. split; [reflexivity|]. split.
    - intros c b D. discriminate.
    - intros spec' G' _ cfg I. rewrite G in G'. injection G' as <-. rewrite C in I. destruct I. }
  intros H. apply bind_inv in H as [[e [_ E]]|[r [s1 [E1 E]]]]; [discriminate|].
  injection E as <- _. exists r. split; [reflexivity|].
  destruct (test_charms_leaves _ _ _ _ _ _ _ _ E1) as [_ K]. split.
  - intros c0 b D. exists spec. split; [exact G|]. rewrite C. apply K. congruence.
  - intros spec' G' _ cfg I. rewrite G in G'. injection G' as <-. apply K. apply in_map.
    rewrite C in I. exact I.
Qed.

Lemma test_roles_leaves h tpr iface ver s tr s' v :
  _test_roles h tpr iface ver s = (Ok tr, s') -> version_leaves_ok (v, tpr) tr.
Proof.
  unfold _test_roles. intros H.
  pose proof (role_step_ok h tpr iface ver) as St.
  intros r. split.
  - intros y G. destruct (fold_get_sound (fun r => r) _ _ St _ _ _ _ _ _ _ H G) as [D|[x [_ [<- Q]]]];
      [discriminate|exact Q].
  - intros I. exact (fold_get_present (fun r => r) _ _ St _ _ _ _ _ _ H I).
Qed.

Lemma version_step_ok h iface acc item s acc' s' :
  test_version_step h iface acc item s = (Ok acc', s') ->
  exists y, acc' = dict_set (fst item) y acc /\ version_leaves_ok item y.
Proof.
  destruct item as [v tpr]. unfold test_version_step. cbv beta iota.
  destruct (python_int (drop_first v)) as [vi|]; [|discriminate].
  intros H. apply bind_inv in H as [[e [_ E]]|[r [s1 [E1 E]]]]; [discriminate|].
  injection E as <- _. exists r. split; [reflexivity|]. exact (test_roles_leaves _ _ _ _ _ _ _ v E1).
Qed.

Lemma test_interface_version_leaves h tpv iface s rv s' i :
  _test_interface_version h tpv iface s = (Ok rv, s') -> interface_leaves_ok (i, tpv) rv.
Proof.
  unfold _test_interface_version. intros H.
  pose proof (version_step_ok h iface) as St. split.
  - intros v y G. destruct (fold_get_sound fst _ _ St _ _ _ _ _ _ _ H G) as [D|[[v' tpr] [I [K Q]]]];
      [discriminate|]. cbn [fst] in K. subst v'. exists tpr. auto.
  - intros N v tpr I. exact (fold_get_in fst _ _ St _ _ _ _ _ _ N H I).
Qed.

Lemma interface_step_ok h acc item s acc' s' :
  test_interface_step h acc item s = (Ok acc', s') ->
  exists y, acc' = dict_set (fst item) y acc /\ interface_leaves_ok item y.
Proof.
  destruct item as [i tpv]. unfold test_interface_step. cbv beta iota.
  intros H. apply bind_inv in H as [[e [_ E]]|[r [s1 [E1 E]]]]; [discriminate|].
  injection E as <- _. exists r. split; [reflexivity|].
  exact (test_interface_version_leaves _ _ _ _ _ _ i E1).
Qed.

Lemma run_fold h path include s t s' :
  run_interface_tests h path include s = (Ok t, s') ->
  exists s1, fold_m (test_interface_step h) (h_collect h path include) [] s1 = (Ok t, s').
Proof.
  unfold run_interface_tests. intros H. apply bind_inv in H as [[e [_ E]]|[u [s1 [E1 E]]]].
  - discriminate.
  - exists s1. exact E.
Qed.

(** X1. [_test_charms] returns a dict without duplicate keys whose keys are
    exactly the names of the charms it was given; a charm listed twice
    gets one key. *)
Theorem test_charms_keys h cfgs iface ver role s out s' :
  _test_charms h cfgs iface ver role s = (Ok out, s') ->
  NoDup (map fst out) /\ (forall c, dict_get c out <> None <-> In c (map name cfgs)).
Proof. apply test_charms_leaves. Qed.

(** X2. When the version labels of an interface are distinct and
    [_test_interface_version] returns, its result has exactly those labels
    as keys, in the order of the registry. *)
Theorem test_interface_version_keys h tpv iface s rv s' :
  NoDup (map fst tpv) -> _test_interface_version h tpv iface s = (Ok rv, s') -> map fst rv = map fst tpv.
Proof.
  intros N H. unfold _test_interface_version in H.
  exact (fold_keys fst version_leaves_ok _ (version_step_ok h iface) tpv [] s rv s' N (fun _ _ F => F) H).
Qed.

(** X3. When the collected interface names are distinct and
    [run_interface_tests] returns, its result has exactly those names as
    keys, in the order of [collect_tests]. *)
Theorem run_interface_tests_keys h path include s t s' :
  NoDup (map fst (h_collect h path include)) ->
  run_interface_tests h path include s = (Ok t, s') -> map fst t = map fst (h_collect h path include).
Proof.
  intros N H. apply run_fold in H as [s1 H].
  exact (fold_keys fst interface_leaves_ok _ (interface_step_ok h) _ [] _ t s' N (fun _ _ F => F) H).
Qed.

(** X4. Every leaf [result[i][v][r][c]] of a completed run comes from
    the registry: interface [i] has a version [v] whose role [r] lists a
    charm named [c]. *)
Theorem result_leaf_registered h path include s t s' :
  run_interface_tests h path include s = (Ok t, s') ->
  forall i v r c b, result_leaf t i v r c = Some b ->
  exists tpv tpr spec, In (i, tpv) (h_collect h path include) /\ In (v, tpr) tpv /\
                       dict_get r tpr = Some spec /\ In c (map name (charms spec)).
Proof.
  intros H i v r c b L. apply run_fold in H as [s1 H].
  unfold result_leaf in L.
  destruct (dict_get i t) as [tv|] eqn:Gi; [|discriminate].
  destruct (dict_get v tv) as [tr|] eqn:Gv; [|discriminate].
  destruct (dict_get r tr) as [tc|] eqn:Gr; [|discriminate].
  destruct (fold_get_sound fst _ _ (interface_step_ok h) _ _ _ _ _ _ _ H Gi)
    as [D|[[i' tpv] [Ii [K [Qs _]]]]]; [discriminate|]. cbn [fst] in K. subst i'.
  destruct (Qs v tr Gv) as [tpr [Iv Qv]].
  destruct (proj1 (Qv r) tc Gr) as [Qr _].
  destruct (Qr c b L) as [spec [Gs Is]].
  exists tpv, tpr, spec. auto.
Qed.

(** X5. Conversely, when the run completes (interface names and the
    version labels of [i] distinct), every charm listed under the provider
    or requirer role of a version of [i] with at least one test has a leaf
    [result[i][v][r][name]]. *)
Theorem registered_charm_has_leaf h path include s t s' :
  run_interface_tests h path include s = (Ok t, s') ->
  NoDup (map fst (h_collect h path include)) ->
  forall i tpv v tpr r spec cfg,
  In (i, tpv) (h_collect h path include) -> NoDup (map fst tpv) -> In (v, tpr) tpv ->
  In r ["provider"; "requirer"] -> dict_get r tpr = Some spec -> tests spec <> [] ->
  In cfg (charms spec) -> result_leaf t i v r (name cfg) <> None.
Proof.
  intros H N i tpv v tpr r spec cfg Ii Nv Iv Ir Gs Ts Ic. apply run_fold in H as [s1 H].
  destruct (fold_get_in fst _ _ (interface_step_ok h) _ _ _ _ _ _ N H Ii) as [tv [Gi [_ Qc]]].
  cbn [fst snd] in Gi, Qc.
  destruct (Qc Nv v tpr Iv) as [tr [Gv Qv]].
  destruct (Qv r) as [Qr Pr]. specialize (Pr Ir).
  destruct (dict_get r tr) as [tc|] eqn:Gr; [|congruence].
  destruct (Qr tc eq_refl) as [_ Cr].
  unfold result_leaf. rewrite Gi, Gv, Gr. exact (Cr spec Gs Ts cfg Ic).
Qed.

Lemma raises_only_ret {A} P (a : A) : raises_only P (ret a).
Proof. intros s e s' H. discriminate. Qed.

Lemma raises_only_raise {A} (P : Exn -> Prop) e : P e -> raises_only P (@raise A e).
Proof. intros He s e' s' H. injection H as <- _. exact He. Qed.

Lemma raises_only_weaken {A} (P P' : Exn -> Prop) (m : M A) :
  (forall e, P e -> P' e) -> raises_only P m -> raises_only P' m.
Proof. intros W H s e s' E. exact (W _ (H _ _ _ E)). Qed.

Lemma raises_only_try {A} (P Q : Exn -> Prop) (m : M A) hdl :
  raises_only Q m ->
  (forall e, Q e -> hdl e = None -> P e) ->
  (forall e k, Q e -> hdl e = Some k -> raises_only P k) ->
  raises_only P (try_except m hdl).
Proof.
  intros Hm H1 H2 s e s' H.
  apply try_inv in H as [[a [_ E]]|[e' [s1 [E [[Hn [Er _]]|[k [Hk Ek]]]]]]].
  - discriminate.
  - injection Er as <-. exact (H1 _ (Hm _ _ _ E) Hn).
  - exact (H2 _ _ (Hm _ _ _ E) Hk _ _ _ Ek).
Qed.

Lemma raises_only_never {A} P (m : M A) : (forall s, exists a s', m s = (Ok a, s')) -> raises_only P m.
Proof. intros H s e s' E. destruct (H s) as [a [s1 E1]]. congruence. Qed.

Lemma raises_only_os_getcwd : raises_only is_fnf os_getcwd.
Proof. intros s e s' H. apply os_getcwd_inv in H as [_ [H|H]]; [discriminate|]. injection H as E. subst e. eexists; reflexivity. Qed.

Lemma raises_only_os_chdir p : raises_only is_fnf (os_chdir p).
Proof. intros s e s' H. apply os_chdir_inv in H as [[H _]|[H _]]; [discriminate|]. injection H as E. subst e. eexists; reflexivity. Qed.

Lemma raises_only_setup_venv h cp :
  raises_only (fun e => e = SetupError "venv setup failed" \/ is_fnf e) (_setup_venv h cp).
Proof.
  unfold _setup_venv.
  apply raises_only_bind; [apply raises_only_never; intros s; eexists _, _; reflexivity|intros _].
  apply raises_only_bind; [apply (raises_only_weaken is_fnf); [auto|apply raises_only_os_getcwd]|intros wd].
  apply raises_only_bind; [apply (raises_only_weaken is_fnf); [auto|apply raises_only_os_chdir]|intros _].
  apply raises_only_bind; [|intros _; apply (raises_only_weaken is_fnf); [auto|apply raises_only_os_chdir]].
  apply (raises_only_try _ is_cpe); [apply venv_body_raises| |].
  - intros e [rc ->] Hn. discriminate.
  - intros e k [rc ->] Hk. injection Hk as <-. apply raises_only_raise. auto.
Qed.

Lemma raises_only_run_test h root tp :
  raises_only (fun e => e = InterfaceTestError \/ is_fnf e) (_run_test_with_pytest h root tp).
Proof.
  unfold _run_test_with_pytest.
  apply raises_only_bind; [apply (raises_only_weaken is_fnf); [auto|apply raises_only_os_getcwd]|intros wd].
  apply raises_only_bind; [apply (raises_only_weaken is_fnf); [auto|apply raises_only_os_chdir]|intros _].
  apply raises_only_bind; [|intros _; apply (raises_only_weaken is_fnf); [auto|apply raises_only_os_chdir]].
  apply (raises_only_try _ is_cpe).
  - intros s e s' H. apply pytest_check_call_inv in H as [_ [H|[rc H]]]; [discriminate|].
    injection H as E. subst e. exists rc. reflexivity.
  - intros e [rc ->] Hn. discriminate.
  - intros e k [rc ->] Hk. injection Hk as <-. apply raises_only_raise. auto.
Qed.

Lemma raises_only_git_clone_call h P cfg cp : raises_only P (git_clone_call h cfg cp).
Proof.
  intros s e s' H. unfold git_clone_call in H.
  destruct (_ =? 0)%Z; [destruct (strip_prefix ws_root cp) as [[|n [|]]|]|]; discriminate.
Qed.

Lemma raises_only_prepare h cfg iface ver : raises_only (prepare_exn cfg) (_prepare_repo h cfg iface ver).
Proof.
  unfold _prepare_repo, prepare_exn. cbv zeta.
  apply raises_only_bind; [apply raises_only_never; intros s; eexists _, _; reflexivity|intros ex].
  apply raises_only_bind.
  { destruct (negb ex); [|apply raises_only_ret].
    apply raises_only_bind.
    - unfold _clone_charm_repo. apply raises_only_bind; [apply raises_only_git_clone_call|intros rc].
      destruct (rc >? 0)%Z; [apply raises_only_raise; auto|apply raises_only_ret].
    - intros _. apply (raises_only_weaken _ _ _ (fun e H => match H with
                                                              | or_introl H => or_intror (or_introl H)
                                                              | or_intror H => or_intror (or_intror (or_intror H))
                                                              end)).
      apply raises_only_setup_venv. }
  intros _.
  apply raises_only_bind.
  { apply (raises_only_try _ (fun _ => False)); [apply raises_only_ret|intros _ []|intros _ _ []]. }
  intros fs.
  apply raises_only_bind; [apply raises_only_never; intros s; eexists _, _; reflexivity|intros isf].
  destruct (negb isf); [apply raises_only_raise; auto|].
  apply raises_only_bind; [|intros tp; apply raises_only_ret].
  unfold _generate_test. apply raises_only_never. intros s. eexists _, _. reflexivity.
Qed.


(** [_test_charm] as a case analysis on its two steps. *)
Lemma test_charm_cases h cfg iface ver role s :
  _test_charm h cfg iface ver role s =
  match _prepare_repo h cfg iface ver s with
  | (Ok (cp, tp), s1) =>
      match _run_test_with_pytest h cp tp s1 with
      | (Ok _, s2) => (Ok true, s2)
      | (Err InterfaceTestError, s2) => (Ok false, s2)
      | (Err e, s2) => (Err e, s2)
      end
  | (Err (SetupError _), s1) => (Ok false, s1)
  | (Err e, s1) => (Err e, s1)
  end.
Proof.
  unfold _test_charm, bind, try_except, ret. cbv beta.
  destruct (_prepare_repo h cfg iface ver s) as [[[cp tp]|e] s1]; cbv beta iota.
  - destruct (_run_test_with_pytest h cp tp s1) as [[[]|e] s2]; [reflexivity|].
    destruct e; reflexivity.
  - destruct e; reflexivity.
Qed.


Lemma raises_only_test_charm h cfg iface ver role : raises_only is_fnf (_test_charm h cfg iface ver role).
Proof.
  intros s e s' H. rewrite test_charm_cases in H.
  destruct (_prepare_repo h cfg iface ver s) as [[[cp tp]|e1] s1] eqn:P.
  - destruct (_run_test_with_pytest h cp tp s1) as [[u|e2] s2] eqn:R; [discriminate|].
    destruct (raises_only_run_test h cp tp s1 e2 s2 R) as [->|[p ->]]; [discriminate|].
    cbv beta iota in H. injection H as E _. subst e. exists p. reflexivity.
  - destruct (raises_only_prepare h cfg iface ver s e1 s1 P) as [->|[->|[->|[p ->]]]]; try discriminate.
    cbv beta iota in H. injection H as E _. subst e. exists p. reflexivity.
Qed.


Lemma raises_only_fold {A B} (P : Exn -> Prop) (f : B -> A -> M B) l :
  (forall acc x, In x l -> raises_only P (f acc x)) -> forall acc, raises_only P (fold_m f l acc).
Proof.
  induction l as [|x l IH]; intros Hf acc; cbn [fold_m]; [apply raises_only_ret|].
  apply raises_only_bind; [apply Hf; left; reflexivity|intros acc'].
  apply IH. intros acc0 x0 I. apply Hf. right. exact I.
Qed.

Lemma raises_only_charms_loop h cfgs iface ver role out :
  raises_only is_fnf (test_charms_loop h cfgs iface ver role out).
Proof.
  revert out. induction cfgs as [|c cfgs IH]; intros out; cbn [test_charms_loop]; [apply raises_only_ret|].
  apply raises_only_bind; [apply raises_only_test_charm|intros b; apply IH].
Qed.

Lemma raises_only_role_step h tpr iface ver acc role :
  raises_only (fun e => is_fnf e \/ (e = KeyError role /\ dict_get role tpr = None))
    (test_role_step h tpr iface ver acc role).
Proof.
  unfold test_role_step. destruct (dict_get role tpr) as [spec|] eqn:G.
  - destruct (negb (truthy_list (tests spec))); [apply raises_only_ret|].
    destruct (negb (truthy_list (charms spec))); [apply raises_only_ret|].
    apply raises_only_bind; [|intros r; apply raises_only_ret].
    apply (raises_only_weaken is_fnf); [auto|]. apply raises_only_charms_loop.
  - apply raises_only_raise. auto.
Qed.

Lemma raises_only_test_roles h tpr iface ver : raises_only roles_exn (_test_roles h tpr iface ver).
Proof.
  unfold _test_roles. apply raises_only_fold. intros acc x I.
  eapply raises_only_weaken; [|apply (raises_only_role_step h tpr iface ver acc x)].
  intros e H. cbv beta in H. unfold roles_exn. destruct H as [H|[-> _]]; [auto|].
  destruct I as [<-|[<-|[]]]; auto.
Qed.

Lemma raises_only_clean h : raises_only (fun e => exists p, e = OSError p) (_clean h).
Proof.
  intros s e s' H. rewrite clean_run in H.
  destruct (RootKind_eqb (st_root s) RDir); [|discriminate].
  destruct (h_rmtree h _ _) as [[[p ws'] w']|]; [|discriminate].
  injection H as <- _. exists p. reflexivity.
Qed.

Lemma raises_only_run_interface_tests h path include :
  raises_only (run_exn_of h path include) (run_interface_tests h path include).
Proof.
  unfold run_interface_tests.
  apply raises_only_bind; [eapply raises_only_weaken; [|apply raises_only_clean]; intros e He; left; exact He|intros _].
  apply raises_only_fold. intros acc [i tpv] Ii. unfold test_interface_step.
  apply raises_only_bind; [|intros rv; apply raises_only_ret].
  unfold _test_interface_version. apply raises_only_fold. intros acc' [v tpr] Iv.
  unfold test_version_step. destruct (python_int (drop_first v)) eqn:Ev.
  - apply raises_only_bind; [|intros r; apply raises_only_ret].
    eapply raises_only_weaken; [|apply raises_only_test_roles]. intros e He. right. left. exact He.
  - apply raises_only_raise. right. right. exists i, tpv, v, tpr. auto.
Qed.


Lemma dict_set_set {V} k (v1 v2 : V) d : dict_set k v2 (dict_set k v1 d) = dict_set k v2 d.
Proof.
  induction d as [|[k0 v0] d IH]; simpl.
  - rewrite String.eqb_refl. reflexivity.
  - destruct (String.eqb k k0) eqn:E; simpl.
    + rewrite String.eqb_refl. reflexivity.
    + rewrite E, IH. reflexivity.
Qed.

Lemma venv_check_call_ok h k s s' :
  venv_check_call h k s = (Ok tt, s') ->
  exists n cd, strip_prefix ws_root (st_cwd s) = Some [n] /\ ws_entry s (st_cwd s) = Some cd /\
    h_venv_rc h cd k = 0%Z /\
    s' = mkState (st_cwd s) (st_root s) (dict_set n (mkCharmDir (cd_origin cd) (cd_files cd) k) (st_ws s))
           (st_written s) (st_log s).
Proof.
  unfold venv_check_call.
  destruct (strip_prefix ws_root (st_cwd s)) as [[|n [|x l]]|] eqn:P; try discriminate.
  destruct (ws_entry s (st_cwd s)) as [cd|] eqn:W; [|discriminate].
  destruct (h_venv_rc h cd k =? 0)%Z eqn:R; [|discriminate].
  intros H. injection H as <-. apply Z.eqb_eq in R. exists n, cd. auto.
Qed.

Lemma ws_entry_set s t p n cd x :
  strip_prefix ws_root p = Some [n] -> ws_entry s p = Some cd ->
  st_root t = st_root s -> st_ws t = dict_set n x (st_ws s) -> ws_entry t p = Some x.
Proof.
  unfold ws_entry. intros P. rewrite P. intros W -> ->.
  destruct (RootKind_eqb (st_root s) RDir); [|discriminate]. apply dict_get_set_same.
Qed.

Lemma ws_entry_same s t p : st_root t = st_root s -> st_ws t = st_ws s -> ws_entry t p = ws_entry s p.
Proof. unfold ws_entry. intros -> ->. reflexivity. Qed.



(** X13. When [_prepare_repo] returns [(charm_path, test_path)], [charm_path]
    is [root / name], [test_path] is the test file next to the fixture, the
    fixture was a file, and the last action was writing the test file. *)
Theorem prepare_repo_result h cfg iface ver s cp tp s' :
  _prepare_repo h cfg iface ver s = (Ok (cp, tp), s') ->
  cp = charm_path_of cfg /\
  tp = parent (fs_path (_get_fixture cfg cp)) ++ [test_file_name iface] /\
  exists s2, is_file h s2 (fs_path (_get_fixture cfg cp)) = true /\
    s' = mkState (st_cwd s2) (st_root s2) (st_ws s2)
           ((tp, test_content iface (fs_id (_get_fixture cfg cp)) ver) :: st_written s2)
           (st_log s2 ++ [EWriteTest tp (test_content iface (fs_id (_get_fixture cfg cp)) ver)]).
Proof.
  unfold _prepare_repo. cbv zeta. intros H.
  apply bind_inv in H as [[e [_ E]]|[ex [s1 [_ H]]]]; [discriminate|].
  apply bind_inv in H as [[e [_ E]]|[u [s2 [_ H]]]]; [discriminate|].
  apply bind_inv in H as [[e [_ E]]|[fs [s3 [E3 H]]]]; [discriminate|].
  unfold try_except, ret in E3. injection E3 as <- <-.
  apply bind_inv in H as [[e [_ E]]|[isf [s4 [E4 H]]]]; [discriminate|].
  unfold path_is_file in E4. injection E4 as <- <-.
  destruct (is_file h s2 (fs_path (_get_fixture cfg (charm_path_of cfg)))) eqn:F; [|discriminate].
  cbn [negb] in H.
  apply bind_inv in H as [[e [_ E]]|[tp' [s5 [E5 H]]]]; [discriminate|].
  unfold ret in H. injection H as <- <- <-.
  unfold _generate_test, write_file, bind, ret in E5. injection E5 as <- <-.
  split; [reflexivity|]. split; [reflexivity|]. exists s2. split; [exact F|reflexivity].
Qed.

(** X14. When the clone exists and the fixture is not a file,
    [_prepare_repo] raises the missing-fixture [SetupError] and changes
    nothing. *)
Theorem prepare_repo_fixture_missing h cfg iface ver s :
  ws_entry s (charm_path_of cfg) <> None ->
  is_file h s (fs_path (_get_fixture cfg (charm_path_of cfg))) = false ->
  _prepare_repo h cfg iface ver s = (Err (SetupError ("fixture missing for charm " ++ name cfg)), s).
Proof.
  intros W F. unfold _prepare_repo. cbv zeta.
  rewrite (bind_ok _ _ s true s)
    by (unfold path_exists; destruct (ws_entry s (charm_path_of cfg)); [reflexivity|congruence]).
  cbn [negb]. rewrite (bind_ok _ _ s tt s) by reflexivity.
  rewrite (bind_ok _ _ s (_get_fixture cfg (charm_path_of cfg)) s) by reflexivity.
  rewrite (bind_ok _ _ s false s) by (unfold path_is_file; rewrite F; reflexivity).
  reflexivity.
Qed.

Lemma written_lookup_outside p w : strip_prefix ws_root p = None ->
  written_lookup p (filter (fun '(q, _) => match strip_prefix ws_root q with
                                            | Some _ => false | None => true end) w)
  = written_lookup p w.
Proof.
  intros Hp. induction w as [|[q c] w IH]; [reflexivity|]. cbn [filter written_lookup].
  destruct (strip_prefix ws_root q) eqn:Hq; cbn [written_lookup].
  - rewrite IH. destruct (path_eqb q p) eqn:E; [|reflexivity].
    apply path_eqb_true in E. subst. congruence.
  - rewrite IH. reflexivity.
Qed.

Lemma written_lookup_inside p w : strip_prefix ws_root p <> None ->
  written_lookup p (filter (fun '(q, _) => match strip_prefix ws_root q with
                                            | Some _ => false | None => true end) w) = None.
Proof.
  intros Hp. induction w as [|[q c] w IH]; [reflexivity|]. cbn [filter].
  destruct (strip_prefix ws_root q) eqn:Hq; [exact IH|]. cbn [written_lookup].
  destruct (path_eqb q p) eqn:E; [|exact IH].
  apply path_eqb_true in E. subst. congruence.
Qed.



(** *** [int(str(n))] *)

Definition digits_value (ds : list Z) : Z := fold_left (fun a d => a * 10 + d)%Z ds 0%Z.

Lemma code_points_ascii b r :
  (nat_of_ascii b < 128)%nat -> code_points (String b r) = Z.of_nat (nat_of_ascii b) :: code_points r.
Proof.
  intros H. unfold code_points. cbn [utf8_go]. unfold utf8_lead.
  rewrite (proj2 (Z.ltb_lt _ _)) by lia. reflexivity.
Qed.

Lemma code_points_digit d r : (0 <= d < 10)%Z ->
  code_points (String (ascii_of_nat (48 + Z.to_nat d)) r) = (48 + d)%Z :: code_points r.
Proof.
  intros H. assert (E : nat_of_ascii (ascii_of_nat (48 + Z.to_nat d)) = (48 + Z.to_nat d)%nat)
    by (apply nat_ascii_embedding; lia).
  rewrite code_points_ascii by (rewrite E; lia). rewrite E. f_equal. lia.
Qed.

Lemma digits_of_S f n acc :
  digits_of (S f) n acc =
  if (n / 10 =? 0)%Z then String (ascii_of_nat (48 + Z.to_nat (n mod 10))) acc
  else digits_of f (n / 10)%Z (String (ascii_of_nat (48 + Z.to_nat (n mod 10))) acc).
Proof. reflexivity. Qed.

Lemma digits_of_spec f : forall n acc, (0 <= n < 10 ^ Z.of_nat (S f))%Z ->
  exists ds, ds <> [] /\ Forall (fun d => 0 <= d < 10)%Z ds /\ digits_value ds = n /\
    (length ds = 1%nat \/ (10 ^ (Z.of_nat (length ds) - 1) <= n)%Z) /\
    code_points (digits_of (S f) n acc) = map (fun d => 48 + d)%Z ds ++ code_points acc.
Proof.
  induction f as [|f IH]; intros n acc Hn; rewrite digits_of_S.
  - assert (E : (n / 10 = 0)%Z) by (apply Z.div_small; cbn in Hn; lia).
    rewrite E. cbn [Z.eqb]. exists [(n mod 10)%Z].
    assert (M : (n mod 10 = n)%Z) by (apply Z.mod_small; cbn in Hn; lia).
    split; [discriminate|]. split; [constructor; [lia|constructor]|].
    split; [unfold digits_value; cbn; lia|]. split; [left; reflexivity|].
    rewrite code_points_digit by lia. reflexivity.
  - assert (D : (0 <= n mod 10 < 10)%Z) by (apply Z.mod_pos_bound; lia).
    destruct (Z.eqb_spec (n / 10) 0) as [E|E].
    + exists [(n mod 10)%Z].
      assert (M : (n mod 10 = n)%Z).
      { rewrite (Z.div_mod n 10) at 2 by lia. rewrite E. lia. }
      split; [discriminate|]. split; [constructor; [lia|constructor]|].
      split; [unfold digits_value; cbn; lia|]. split; [left; reflexivity|].
      rewrite code_points_digit by lia. reflexivity.
    + assert (Hq : (0 <= n / 10 < 10 ^ Z.of_nat (S f))%Z).
      { split; [apply Z.div_pos; lia|]. apply Z.div_lt_upper_bound; [lia|].
        rewrite <- Z.pow_succ_r by lia. rewrite <- Nat2Z.inj_succ. lia. }
      destruct (IH (n / 10)%Z (String (ascii_of_nat (48 + Z.to_nat (n mod 10))) acc) Hq)
        as [ds [Ne [F [V [L C]]]]].
      exists (ds ++ [(n mod 10)%Z]).
      split; [destruct ds; discriminate|].
      split; [apply Forall_app; split; [exact F|constructor; [exact D|constructor]]|].
      assert (V' : digits_value (ds ++ [(n mod 10)%Z]) = n).
      { unfold digits_value in *. rewrite fold_left_app. cbn. rewrite V.
        rewrite (Z.div_mod n 10) at 3 by lia. lia. }
      split; [exact V'|].
      split.
      * right. rewrite length_app. cbn [length].
        assert (Q : (10 * (n / 10) <= n)%Z) by (apply Z.mul_div_le; lia).
        destruct L as [L|L].
        -- rewrite L. cbn. lia.
        -- replace (Z.of_nat (length ds + 1) - 1)%Z with (Z.succ (Z.of_nat (length ds) - 1)) by lia.
           rewrite Z.pow_succ_r by (destruct ds; [congruence|cbn [length]; lia]). lia.
      * rewrite C, code_points_digit by exact D. rewrite map_app, <- app_assoc. reflexivity.
Qed.

Lemma to_ascii_digits_app_digits ds :
  Forall (fun d => 0 <= d < 10)%Z ds -> to_ascii_digits (map (fun d => 48 + d)%Z ds) = map (fun d => 48 + d)%Z ds.
Proof.
  induction 1 as [|d ds Hd _ IH]; [reflexivity|]. cbn [map to_ascii_digits].
  rewrite (proj2 (Z.ltb_lt _ _)) by lia. rewrite IH. reflexivity.
Qed.

Lemma scan_digits_digits ds : forall acc nd,
  Forall (fun d => 0 <= d < 10)%Z ds ->
  scan_digits (map (fun d => 48 + d)%Z ds) acc nd false =
  Some (fold_left (fun a d => a * 10 + d)%Z ds acc, (nd + length ds)%nat, []).
Proof.
  induction ds as [|d ds IH]; intros acc nd F; cbn [map scan_digits fold_left length].
  - rewrite Nat.add_0_r. reflexivity.
  - inversion F as [|d' ds' Hd F']; subst.
    unfold is_digit_code. rewrite (proj2 (Z.leb_le 48 (48 + d))), (proj2 (Z.leb_le (48 + d) 57)) by lia.
    cbn [andb]. rewrite IH by exact F'. replace (48 + d - 48)%Z with d by lia.
    rewrite Nat.add_succ_r. reflexivity.
Qed.

Lemma python_int_digits ds (neg : bool) :
  ds <> [] -> Forall (fun d => 0 <= d < 10)%Z ds -> (length ds <= 4300)%nat ->
  parse_int_ascii ((if neg then [45%Z] else []) ++ map (fun d => 48 + d)%Z ds) =
  Some ((if neg then -1 else 1) * digits_value ds)%Z.
Proof.
  intros Ne F L. destruct ds as [|d ds']; [congruence|].
  inversion F as [|d' ds'' Hd F']; subst.
  pose proof (scan_digits_digits (d :: ds') 0 0 F) as Sc. cbn [Nat.add] in Sc.
  assert (E1 : ascii_space (48 + d) = false)
    by (unfold ascii_space; apply Bool.not_true_iff_false; intros H;
        apply Bool.orb_true_iff in H as [H|H];
        [apply andb_true_iff in H as [H1 H2]; apply Z.leb_le in H2; lia|apply Z.eqb_eq in H; lia]).
  assert (E2 : (48 + d =? 43)%Z = false) by (apply Z.eqb_neq; lia).
  assert (E3 : (48 + d =? 45)%Z = false) by (apply Z.eqb_neq; lia).
  assert (E4 : (48 + d =? 95)%Z = false) by (apply Z.eqb_neq; lia).
  assert (Lb : Nat.ltb 4300 (length (d :: ds')) = false) by (apply Nat.ltb_ge; exact L).
  revert Sc E1 E2 E3 E4. cbn [map]. generalize (map (fun d0 => 48 + d0)%Z ds'). generalize (48 + d)%Z.
  intros c t Sc E1 E2 E3 E4.
  assert (E0 : ascii_space 45 = false) by reflexivity.
  unfold parse_int_ascii. destruct neg; cbn -[scan_digits ascii_space length digits_value Z.mul Nat.ltb].
  - rewrite E0. cbn -[scan_digits ascii_space length digits_value Z.mul Nat.ltb].
    rewrite E4, Sc, Lb. reflexivity.
  - rewrite E1, E2, E3, E4, Sc, Lb. reflexivity.
Qed.

Lemma digits_length_bound ds n :
  digits_value ds = n -> (length ds = 1%nat \/ (10 ^ (Z.of_nat (length ds) - 1) <= n)%Z) ->
  (n < 10 ^ 4300)%Z -> (length ds <= 4300)%nat.
Proof.
  intros _ [L|L] H; [lia|].
  destruct (Nat.le_gt_cases (length ds) 4300) as [G|G]; [exact G|exfalso].
  assert (P : (10 ^ 4300 <= 10 ^ (Z.of_nat (length ds) - 1))%Z) by (apply Z.pow_le_mono_r; lia).
  lia.
Qed.

Lemma python_int_Z_to_string n : (Z.abs n < 10 ^ 4300)%Z -> python_int (Z_to_string n) = Some n.
Proof.
  intros Hn. unfold Z_to_string.
  set (f := Z.to_nat (Z.log2 (Z.abs n))).
  assert (Fu : (0 <= Z.abs n < 10 ^ Z.of_nat (S f))%Z).
  { split; [lia|]. subst f. rewrite Nat2Z.inj_succ, Z2Nat.id by apply Z.log2_nonneg.
    destruct (Z.eq_dec (Z.abs n) 0) as [Z0|Z0]; [rewrite Z0; cbn; lia|].
    destruct (Z.log2_spec (Z.abs n)) as [_ U]; [lia|].
    apply (Z.lt_le_trans _ _ _ U). apply Z.pow_le_mono_l. split; [lia|lia]. }
  unfold python_int.
  destruct (Z.ltb_spec n 0) as [Neg|Pos].
  - destruct (digits_of_spec f (Z.abs n) "" Fu) as [ds [Ne [F [V [L C]]]]].
    cbn [append]. rewrite code_points_ascii by (cbn; lia). rewrite C.
    change (code_points "") with (@nil Z). rewrite app_nil_r.
    change (Z.of_nat (nat_of_ascii "-")) with 45%Z.
    assert (T : to_ascii_digits (45%Z :: map (fun d => 48 + d)%Z ds) =
                (if true then [45%Z] else []) ++ map (fun d => 48 + d)%Z ds)
      by (cbn [to_ascii_digits]; rewrite to_ascii_digits_app_digits by exact F; reflexivity).
    rewrite T, (python_int_digits ds true Ne F (digits_length_bound ds _ V L Hn)).
    f_equal. rewrite V. lia.
  - replace (Z.abs n) with n in Fu by lia. replace (Z.abs n) with n in Hn by lia.
    destruct (digits_of_spec f n "" Fu) as [ds [Ne [F [V [L C]]]]].
    rewrite C. change (code_points "") with (@nil Z). rewrite app_nil_r.
    rewrite to_ascii_digits_app_digits by exact F.
    pose proof (python_int_digits ds false Ne F (digits_length_bound ds _ V L Hn)) as P.
    cbn [app] in P. rewrite P.
    f_equal. rewrite V. lia.
Qed.

(** X17. A version label made of one character (of any UTF-8 length)
    followed by [str(n)], where [n] has at most 4300 digits, is parsed back
    to [n] by [int(version[1:])]: its roles are tested with version [n]
    and the result is stored under the label. *)
Theorem version_label_str_roundtrip h iface acc v n tpr :
  drop_first v = Z_to_string n -> (Z.abs n < 10 ^ 4300)%Z ->
  test_version_step h iface acc (v, tpr) =
  (r <- _test_roles h tpr iface n ;; ret (dict_set v r acc)).
Proof.
  intros Hv Hn. unfold test_version_step. rewrite Hv, python_int_Z_to_string by exact Hn. reflexivity.
Qed.

(** ** The run of one charm stays in its own clone *)


(** ** Instances of the properties of the whole runner *)

Ltac nodup_strings :=
  vm_compute; repeat constructor; vm_compute; intuition discriminate.

Lemma test_charms_keys_witness :
  exists out s', _test_charms host_ok [traefik; tempo; traefik] "ingress" 1 "provider" s_fresh = (Ok out, s') /\
  NoDup (map fst out) /\
  (forall c, dict_get c out <> None <-> In c (map name [traefik; tempo; traefik])).
Proof.
  destruct (_test_charms host_ok [traefik; tempo; traefik] "ingress" 1 "provider" s_fresh)
    as [[out|e] s'] eqn:E; [|vm_compute in E; discriminate].
  exists out, s'. split; [reflexivity|].
  exact (test_charms_keys host_ok [traefik; tempo; traefik] "ingress" 1 "provider" s_fresh out s' E).
Defined.

Lemma test_interface_version_keys_witness :
  exists rv s', _test_interface_version host_ok [("v1", roles_traefik); ("v2", roles_requirer_first)] "ingress" s_fresh = (Ok rv, s') /\
  map fst rv = ["v1"; "v2"].
Proof.
  destruct (_test_interface_version host_ok [("v1", roles_traefik); ("v2", roles_requirer_first)] "ingress" s_fresh)
    as [[rv|e] s'] eqn:E; [|vm_compute in E; discriminate].
  exists rv, s'. split; [reflexivity|].
  exact (test_interface_version_keys host_ok [("v1", roles_traefik); ("v2", roles_requirer_first)] "ingress" s_fresh rv s' ltac:(nodup_strings) E).
Defined.

Lemma run_interface_tests_keys_witness :
  exists t s', run_interface_tests (with_registry host_ok registry_pair) "." "*" s_fresh = (Ok t, s') /\
  map fst t = ["ingress"; "tracing"].
Proof.
  destruct (run_interface_tests (with_registry host_ok registry_pair) "." "*" s_fresh)
    as [[t|e] s'] eqn:E; [|vm_compute in E; discriminate].
  exists t, s'. split; [reflexivity|].
  exact (run_interface_tests_keys (with_registry host_ok registry_pair) "." "*" s_fresh t s' ltac:(nodup_strings) E).
Defined.

Lemma result_leaf_registered_witness :
  exists t s', run_interface_tests (with_registry host_ok registry_pair) "." "*" s_fresh = (Ok t, s') /\
  result_leaf t "tracing" "v1" "provider" "tempo-k8s" = Some true /\
  exists tpv tpr spec, In ("tracing", tpv) registry_pair /\ In ("v1", tpr) tpv /\
    dict_get "provider" tpr = Some spec /\ In "tempo-k8s" (map name (charms spec)).
Proof.
  destruct (run_interface_tests (with_registry host_ok registry_pair) "." "*" s_fresh)
    as [[t|e] s'] eqn:E; [|vm_compute in E; discriminate].
  assert (L : result_leaf t "tracing" "v1" "provider" "tempo-k8s" = Some true)
    by (vm_compute in E; injection E as <- _; reflexivity).
  exists t, s'. split; [reflexivity|]. split; [exact L|].
  exact (result_leaf_registered _ "." "*" s_fresh t s' E "tracing" "v1" "provider" "tempo-k8s" true L).
Defined.

Lemma registered_charm_has_leaf_witness :
  exists t s', run_interface_tests (with_registry host_ok registry_pair) "." "*" s_fresh = (Ok t, s') /\
  result_leaf t "tracing" "v1" "provider" (name tempo) <> None.
Proof.
  destruct (run_interface_tests (with_registry host_ok registry_pair) "." "*" s_fresh)
    as [[t|e] s'] eqn:E; [|vm_compute in E; discriminate].
  exists t, s'. split; [reflexivity|].
  refine (registered_charm_has_leaf _ "." "*" s_fresh t s' E ltac:(nodup_strings) "tracing"
    [("v1", [("provider", mkRoleSpec ["test_data_published"] [traefik; tempo]);
             ("requirer", mkRoleSpec [] [])])]
    "v1" [("provider", mkRoleSpec ["test_data_published"] [traefik; tempo]);
          ("requirer", mkRoleSpec [] [])]
    "provider" (mkRoleSpec ["test_data_published"] [traefik; tempo]) tempo _ _ _ _ _ _ _).
  - simpl; auto.
  - nodup_strings.
  - simpl; auto.
  - simpl; auto.
  - reflexivity.
  - simpl; discriminate.
  - simpl; auto.
Defined.







Lemma prepare_repo_result_witness :
  exists cp tp s', _prepare_repo host_ok traefik "ingress" 1 s_fresh = (Ok (cp, tp), s') /\
  cp = charm_path_of traefik /\
  tp = parent (fs_path (_get_fixture traefik cp)) ++ [test_file_name "ingress"] /\
  exists s2, is_file host_ok s2 (fs_path (_get_fixture traefik cp)) = true /\
    s' = mkState (st_cwd s2) (st_root s2) (st_ws s2)
           ((tp, test_content "ingress" (fs_id (_get_fixture traefik cp)) 1) :: st_written s2)
           (st_log s2 ++ [EWriteTest tp (test_content "ingress" (fs_id (_get_fixture traefik cp)) 1)]).
Proof.
  destruct (_prepare_repo host_ok traefik "ingress" 1 s_fresh) as [[[cp tp]|e] s'] eqn:E;
    [|vm_compute in E; discriminate].
  exists cp, tp, s'. split; [reflexivity|].
  exact (prepare_repo_result host_ok traefik "ingress" 1 s_fresh cp tp s' E).
Defined.

Lemma prepare_repo_fixture_missing_witness :
  _prepare_repo host_ok traefik "ingress" 1 s_clone_no_fixture =
    (Err (SetupError ("fixture missing for charm " ++ name traefik)), s_clone_no_fixture).
Proof.
  apply prepare_repo_fixture_missing.
  - vm_compute. discriminate.
  - vm_compute. reflexivity.
Defined.





Lemma version_label_str_roundtrip_witness :
  drop_first label_e_acute_three = Z_to_string 3 /\ (Z.abs 3 < 10 ^ 4300)%Z /\
  test_version_step host_ok "ingress" [] (label_e_acute_three, roles_empty) =
  (r <- _test_roles host_ok roles_empty "ingress" 3 ;; ret (dict_set label_e_acute_three r [])).
Proof.
  assert (H1 : drop_first label_e_acute_three = Z_to_string 3) by (vm_compute; reflexivity).
  assert (H2 : (Z.abs 3 < 10 ^ 4300)%Z) by (vm_compute; reflexivity).
  split; [exact H1|]. split; [exact H2|].
  exact (version_label_str_roundtrip host_ok "ingress" [] label_e_acute_three 3 roles_empty H1 H2).
Defined.

(** ** C9: a version label that [int()] rejects aborts the run *)



